(** * walkers.py: a shallow embedding of the walker simulation

    The development follows the Python sources:
    - [utils.py]     : [clamp], [lin_interp]
    - [colormaps.py] : [ColorMap] and its [__call__]
    - [walkers.py]   : [Walker], [WalkingSystem] with [get_current_state],
                       [next_state], the [states] generator and
                       [compute_3d_vectrices].

    The arithmetic of the sources is duck-typed.  Every function is
    written once, over the operations it uses, and read at three carriers:
    [Z] for Python's [int], the binary64 numbers of [Binary64] for
    Python's [float], and [R] for the exact arithmetic that [float]
    approximates.

    Python objects that are mutated in place (the [position] list of every
    walker) live in an explicit heap; a walker is referred to by its address
    in that heap, so that two names for the same list really alias.
    Exceptions are values of [exn]; a raised exception leaves the heap as it
    was at the point of the raise. *)

From Stdlib Require Import List ZArith Reals Lia Lra Bool Arith.
From Stdlib Require String Ascii Floats.
Import ListNotations.

Set Implicit Arguments.

(** ** Exceptions and the state-and-exception monad *)

Inductive exn : Type :=
| IndexError          (* list index out of range *)
| ValueError          (* raised by the curves / rings properties *)
| ZeroDivisionError   (* division or modulo by zero *)
| OverflowError       (* a float result too large to be represented *)
| DanglingRef         (* a reference to no object: cannot occur in Python *)
| OutOfFuel.          (* a loop of the model ran out of fuel: idem *)

Inductive result (A : Type) : Type :=
| Ok (a : A)
| Raise (e : exn).

Arguments Ok {A} a.
Arguments Raise {A} e.

Definition rbind {A B} (r : result A) (k : A -> result B) : result B :=
  match r with
  | Ok a => k a
  | Raise e => Raise e
  end.

Module HeapMonad.

Definition M (H A : Type) : Type := H -> result A * H.

Definition ret {H A} (a : A) : M H A := fun h => (Ok a, h).

Definition raise {H A} (e : exn) : M H A := fun h => (Raise e, h).

Definition bind {H A B} (c : M H A) (k : A -> M H B) : M H B :=
  fun h =>
    match c h with
    | (Ok a, h') => k a h'
    | (Raise e, h') => (Raise e, h')
    end.

Definition lift {H A} (r : result A) : M H A := fun h => (r, h).

(** [for x in xs: body(x)] *)
Fixpoint for_each {H A} (xs : list A) (body : A -> M H unit) : M H unit :=
  match xs with
  | [] => ret tt
  | x :: xs' => bind (body x) (fun _ => for_each xs' body)
  end.

(** a loop threading an accumulator: [for x in xs: acc = body(acc, x)] *)
Fixpoint fold_each {H A B} (xs : list A) (body : B -> A -> M H B) (acc : B)
  : M H B :=
  match xs with
  | [] => ret acc
  | x :: xs' => bind (body acc x) (fun acc' => fold_each xs' body acc')
  end.

(** [[f(x) for x in xs]] where [f] reads or writes the heap *)
Fixpoint map_each {H A B} (f : A -> M H B) (xs : list A) : M H (list B) :=
  match xs with
  | [] => ret []
  | x :: xs' =>
      bind (f x) (fun y => bind (map_each f xs') (fun ys => ret (y :: ys)))
  end.

End HeapMonad.
Import HeapMonad.

Declare Scope monad_scope.
Delimit Scope monad_scope with monad.
Notation "x <- c ;; k" := (bind c (fun x => k))
  (at level 61, c at next level, right associativity) : monad_scope.
Notation "c ;;; k" := (bind c (fun _ => k))
  (at level 61, right associativity) : monad_scope.
Open Scope monad_scope.

(** ** Python lists *)

(** [enumerate(xs)] *)
Definition enumerate {A} (xs : list A) : list (nat * A) :=
  combine (seq 0 (length xs)) xs.

(** [xs[i]] for [i >= 0] *)
Definition getitem {A} (xs : list A) (i : nat) : result A :=
  match nth_error xs i with
  | Some x => Ok x
  | None => Raise IndexError
  end.

(** [xs[i] = f(xs[i])]: the element at index [i] is replaced in place. *)
Fixpoint modify_nth {A} (i : nat) (f : A -> result A) (xs : list A)
  : result (list A) :=
  match xs, i with
  | [], _ => Raise IndexError
  | x :: xs', O => rbind (f x) (fun y => Ok (y :: xs'))
  | x :: xs', S i' => rbind (modify_nth i' f xs') (fun ys => Ok (x :: ys))
  end.

(** [xs[i] = v] *)
Definition setitem {A} (xs : list A) (i : nat) (v : A) : result (list A) :=
  modify_nth i (fun _ => Ok v) xs.

(** [xs[-1]] *)
Definition getlast {A} (xs : list A) : result A :=
  match rev xs with
  | x :: _ => Ok x
  | [] => Raise IndexError
  end.

(** [[f(x) for x in xs]] with the first exception propagated *)
Fixpoint comprehension {A B} (f : A -> result B) (xs : list A)
  : result (list B) :=
  match xs with
  | [] => Ok []
  | x :: xs' =>
      rbind (f x) (fun y =>
      rbind (comprehension f xs') (fun ys => Ok (y :: ys)))
  end.

(** a loop over [xs] that updates local variables [acc] and may raise *)
Fixpoint rfold {A B} (body : B -> A -> result B) (xs : list A) (acc : B)
  : result B :=
  match xs with
  | [] => Ok acc
  | x :: xs' => rbind (body acc x) (fun acc' => rfold body xs' acc')
  end.

(** [range(n)]: empty when [n] is negative *)
Definition range (n : Z) : list nat := seq 0 (Z.to_nat n).

(** [a % b] on non-negative integers *)
Definition pymod (a b : nat) : result nat :=
  if Nat.eqb b 0 then Raise ZeroDivisionError else Ok (Nat.modulo a b).

(** ** Numbers

    Python numbers are duck-typed: [next_state] only needs [+], [-] and
    [*], and the number [0] is the coefficient of a relation that is
    not there.  The simulation is therefore written over any carrier with
    these operations: [Z] (Python [int]), the binary64 numbers (Python
    [float], see [Binary64]) and [R] (the exact arithmetic that [float]
    approximates). *)

Class Number (num : Type) : Type := {
  nadd : num -> num -> num;
  nsub : num -> num -> num;
  nmul : num -> num -> num;
  nzero : num
}.

(** The laws of exact arithmetic used by the algebraic theorems.  They
    hold of [int] and of the reals, not of [float]: [inf - inf] and
    [inf * 0] are [nan]. *)
Class ExactNumber (num : Type) `{Number num} : Prop := {
  nadd_0_r : forall x, nadd x nzero = x;
  nsub_diag : forall x, nsub x x = nzero;
  nmul_0_l : forall x, nmul nzero x = nzero;
  nmul_0_r : forall x, nmul x nzero = nzero
}.

Arguments ExactNumber num {_}.

#[export] Instance Number_Z : Number Z :=
  {| nadd := Z.add; nsub := Z.sub; nmul := Z.mul; nzero := 0%Z |}.

#[export] Instance Number_R : Number R :=
  {| nadd := Rplus; nsub := Rminus; nmul := Rmult; nzero := 0%R |}.

#[export] Instance ExactNumber_Z : ExactNumber Z :=
  @Build_ExactNumber Z Number_Z Z.add_0_r Z.sub_diag Z.mul_0_l Z.mul_0_r.

#[export] Instance ExactNumber_R : ExactNumber R :=
  @Build_ExactNumber R Number_R Rplus_0_r (fun x => Rplus_opp_r x)
                     Rmult_0_l Rmult_0_r.

(** [abs] and [<], for the numbers that have them; [x > y] is [y < x] *)
Class Ordered (num : Type) `{Number num} : Type := {
  nabs : num -> num;
  nltb : num -> num -> bool
}.

Arguments Ordered num {_}.

(** No number is below itself: so it is of [int] and of [float], [nan]
    included, which is below nothing. *)
Class StrictlyOrdered (num : Type) `{Ordered num} : Prop := {
  nltb_irrefl : forall x, nltb x x = false
}.

Arguments StrictlyOrdered num {_ _}.

#[export] Instance Ordered_Z : Ordered Z :=
  {| nabs := Z.abs; nltb := Z.ltb |}.

#[export] Instance Ordered_R : Ordered R :=
  {| nabs := Rabs;
     nltb := fun a b => if Rlt_dec a b then true else false |}.

#[export] Instance StrictlyOrdered_Z : StrictlyOrdered Z :=
  @Build_StrictlyOrdered Z Number_Z Ordered_Z Z.ltb_irrefl.

#[export] Instance StrictlyOrdered_R : StrictlyOrdered R :=
  @Build_StrictlyOrdered R Number_R Ordered_R
    (fun x =>
       match Rlt_dec x x as d return (if d then true else false) = false with
       | left E => False_ind _ (Rlt_irrefl x E)
       | right _ => eq_refl
       end).

(** What the float computations of the sources use besides: an [int]
    operand that meets a float ([of_int]: the channels of a color, the
    literals 255, 0 and 1), true division [/], which raises
    ZeroDivisionError, [** 2], which raises OverflowError when the square
    of a float is too large, and [math.sqrt], which raises ValueError
    below zero. *)
Class Fractional (num : Type) `{Ordered num} : Type := {
  of_int : Z -> num;
  ndiv : num -> num -> result num;
  nsquare : num -> result num;
  nsqrt : num -> result num
}.

Arguments Fractional num {_ _}.

(** Exact arithmetic: nothing overflows, nothing is rounded. *)
#[export] Instance Fractional_R : Fractional R :=
  {| of_int := IZR;
     ndiv := fun a b =>
       if Req_dec_T b 0 then Raise ZeroDivisionError else Ok (a / b)%R;
     nsquare := fun x => Ok (x ^ 2)%R;
     nsqrt := fun x =>
       if Rlt_dec x 0 then Raise ValueError else Ok (sqrt x) |}.

(** ** Binary64: Python's float

    The carrier is the kernel's binary64 type, whose operations are the
    IEEE 754 ones, rounding to nearest even.  On top of them come the
    exceptions Python adds: [/] raises ZeroDivisionError on a divisor
    equal to zero, [** 2] raises OverflowError when the square of a finite
    number is infinite, [math.sqrt] raises ValueError below zero.  The
    square is taken as the correctly rounded one, which the power
    function of the C library is within one unit in the last place of. *)

Module Binary64.

Import Stdlib.Floats.PrimFloat Stdlib.Floats.FloatOps Stdlib.Floats.SpecFloat.

#[global] Instance Number_float : Number float :=
  {| nadd := add; nsub := sub; nmul := mul; nzero := zero |}.

#[global] Instance Ordered_float : Ordered float :=
  {| nabs := abs; nltb := ltb |}.

(** [float(z)], the conversion of an integer that meets a float: the
    nearest binary64 number.  (Python raises OverflowError for an integer
    beyond the range of the floats; the sources convert 8-bit channels
    and the literals 0, 1, 2 and 255.) *)
Definition float_of_int (z : Z) : float :=
  SF2Prim (binary_normalize prec emax z 0 false).

(** [a / b] *)
Definition truediv (a b : float) : result float :=
  if eqb b zero then Raise ZeroDivisionError else Ok (div a b).

(** [x ** 2] *)
Definition square (x : float) : result float :=
  let y := mul x x in
  if is_finite x && is_infinity y then Raise OverflowError else Ok y.

(** [math.sqrt(x)] *)
Definition pysqrt (x : float) : result float :=
  if ltb x zero then Raise ValueError else Ok (sqrt x).

#[global] Instance Fractional_float : Fractional float :=
  {| of_int := float_of_int;
     ndiv := truediv;
     nsquare := square;
     nsqrt := pysqrt |}.

(** neither infinite nor [nan] *)
Definition finite (x : float) : bool := is_finite x.

(** the zero with the sign bit set, [-0.0] *)
Definition negative_zero (x : float) : bool := is_zero x && get_sign x.

Definition minus_infinity : float := neg_infinity.

(** [2.0 ** 1023], about 9e307, and [2.0 ** 1020], about 1.1e307: finite
    numbers whose double, or hundredfold, is not *)
Definition huge : float := 0x1p+1023%float.
Definition large : float := 0x1p+1020%float.

(** [2.0 ** 600], whose square is too large for a float, and
    [2.0 ** -600], whose square is too small *)
Definition wide : float := 0x1p+600%float.
Definition tiny : float := 0x1p-600%float.

Definition half : float := 0.5%float.

End Binary64.

(** ** utils.py *)

Module Utils.

Section Comparisons.

Context {num : Type} `{Ordered num}.

(** [inf if x < inf else sup if x > sup else x] *)
Definition clamp (x inf sup : num) : num :=
  if nltb x inf then inf
  else if nltb sup x then sup
  else x.

End Comparisons.

Section Interpolation.

Context {num : Type} `{Fractional num}.

(** [(x - x_min) * (y_max - y_min) / (x_max - x_min) + y_min] *)
Definition lin_interp (x x_min x_max y_min y_max : num) : result num :=
  rbind (ndiv (nmul (nsub x x_min) (nsub y_max y_min)) (nsub x_max x_min))
        (fun t => Ok (nadd t y_min)).

End Interpolation.

End Utils.

(** ** colormaps.py *)

Module Colormaps.

(** Colors are tuples of 8-bit integers. *)
Record ColorMap : Type := {
  cm_start : list Z;
  cm_end : list Z
}.

Section Call.

Context {num : Type} `{Fractional num}.

(** One channel of [ColorMap.__call__]:
    [clamp(lin_interp(x, start, end, self.start[i], self.end[i])
           / 255 * max_out, 0, max_out)].
    The channels are integers that the interpolation mixes with [x],
    [start] and [end]: they are converted where they come in.  For the
    8-bit channels that the class is documented for, the conversion is
    exact, and so is their difference, which Python takes on the
    integers ([byte_differences_exact]). *)
Definition channel (self : ColorMap) (x start end_ max_out : num) (i : nat)
  : result num :=
  rbind (getitem (cm_start self) i) (fun s =>
  rbind (getitem (cm_end self) i) (fun e =>
  rbind (Utils.lin_interp x start end_ (of_int s) (of_int e)) (fun y =>
  rbind (ndiv y (of_int 255)) (fun t =>
  Ok (Utils.clamp (nmul t max_out) (of_int 0) max_out))))).

(** [ColorMap.__call__(self, x, start, end, max_out)] *)
Definition call (self : ColorMap) (x start end_ max_out : num)
  : result (list num) :=
  comprehension (channel self x start end_ max_out) (seq 0 3).

End Call.

(** an (r, g, b) tuple of integers in [0, 255] *)
Definition valid_color (c : list Z) : bool :=
  Nat.eqb (length c) 3 &&
  forallb (fun z => Z.leb 0 z && Z.leb z 255) c.

Definition black : ColorMap :=
  {| cm_start := [0; 0; 0]%Z; cm_end := [0; 0; 0]%Z |}.
Definition cyan_to_red : ColorMap :=
  {| cm_start := [0; 255; 255]%Z; cm_end := [255; 0; 0]%Z |}.
Definition orange_to_black : ColorMap :=
  {| cm_start := [255; 145; 0]%Z; cm_end := [0; 0; 0]%Z |}.

End Colormaps.

(** *** The 8-bit channels on floats *)

Module Bytes.

(** the integers from 0 to 255 *)
Definition bytes : list Z := map Z.of_nat (seq 0 256).

(** [clamp(s / 255 * 255, 0, 255)] is [s] again, computed on floats *)
Definition round_trip (s : Z) : bool :=
  match Binary64.truediv (Binary64.float_of_int s)
                         (Binary64.float_of_int 255) with
  | Ok t =>
      PrimFloat.Leibniz.eqb
        (Utils.clamp (PrimFloat.mul t (Binary64.float_of_int 255))
                     (Binary64.float_of_int 0) (Binary64.float_of_int 255))
        (Binary64.float_of_int s)
  | Raise _ => false
  end.

End Bytes.

(** ** walkers.py *)

Section Walkers.

Context {num : Type} `{Number num}.

(** *** class Walker *)

Record Walker : Type := {
  start_position : list num;   (* tuple(position): immutable *)
  position : list num          (* list(position): mutated in place *)
}.

(** [Walker.__init__(self, position)] *)
Definition Walker_init (pos : list num) : Walker :=
  {| start_position := pos; position := pos |}.

Definition with_position (w : Walker) (pos : list num) : Walker :=
  {| start_position := start_position w; position := pos |}.

(** Walkers are hashed by identity: a reference is an address in the
    heap, and the heap holds every walker object. *)
Definition wref : Type := nat.
Definition heap : Type := list Walker.

Fixpoint heap_set (w : wref) (k : Walker) (h : heap) : heap :=
  match h, w with
  | [], _ => []
  | _ :: h', O => k :: h'
  | k0 :: h', S w' => k0 :: heap_set w' k h'
  end.

Definition deref (w : wref) : M heap Walker :=
  fun h =>
    match nth_error h w with
    | Some k => (Ok k, h)
    | None => (Raise DanglingRef, h)
    end.

Definition put (w : wref) (k : Walker) : M heap unit :=
  fun h => (Ok tt, heap_set w k h).

(** [w.position] *)
Definition load_position (w : wref) : M heap (list num) :=
  k <- deref w ;; ret (position k).

(** [w.position[i]] *)
Definition load_coord (w : wref) (i : nat) : M heap num :=
  pos <- load_position w ;; lift (getitem pos i).

(** [w.position[i] = v] *)
Definition store_coord (w : wref) (i : nat) (v : num) : M heap unit :=
  k <- deref w ;;
  pos <- lift (setitem (position k) i v) ;;
  put w (with_position k pos).

(** *** class WalkingSystem *)

(** The [walkers] dict maps a walker to the dict of its relations; both
    are iterated in insertion order. *)
Definition relations : Type := list (wref * num).
Definition walkers_dict : Type := list (wref * relations).

(** A state is the tuple of the walkers' [position] lists themselves (no
    copy is made): each list is named by the walker that owns it. *)
Definition state : Type := list wref.

Definition curvesT : Type := list (list (list num)).
Definition ringT : Type := list (list num).
Definition ringsT : Type := list ringT.

Record WalkingSystem : Type := {
  walkers : walkers_dict;
  iterations : Z;
  cmap : Colormaps.ColorMap;
  priv_curves : option curvesT;   (* self.__curves, None at first *)
  priv_rings : option ringsT      (* self.__rings, None at first *)
}.

(** the [curves] and [rings] setters *)
Definition set_curves (self : WalkingSystem) (crvs : option curvesT)
  : WalkingSystem :=
  {| walkers := walkers self; iterations := iterations self;
     cmap := cmap self; priv_curves := crvs;
     priv_rings := priv_rings self |}.

Definition set_rings (self : WalkingSystem) (rngs : option ringsT)
  : WalkingSystem :=
  {| walkers := walkers self; iterations := iterations self;
     cmap := cmap self; priv_curves := priv_curves self;
     priv_rings := rngs |}.

(** [WalkingSystem.__init__(self, walkers, iterations, cmap)] *)
Definition WalkingSystem_init (wlkrs : walkers_dict) (iters : Z)
           (cm : Colormaps.ColorMap) : WalkingSystem :=
  set_rings
    (set_curves
       {| walkers := wlkrs; iterations := iters; cmap := cm;
          priv_curves := None; priv_rings := None |}
       None)
    None.

(** the [curves] and [rings] properties *)
Definition curves (self : WalkingSystem) : result curvesT :=
  match priv_curves self with
  | None => Raise ValueError
  | Some crvs => Ok crvs
  end.

Definition rings (self : WalkingSystem) : result ringsT :=
  match priv_rings self with
  | None => Raise ValueError
  | Some rngs => Ok rngs
  end.

(** [tuple([wlkr.position for wlkr in self.walkers])] *)
Definition get_current_state (self : WalkingSystem) : M heap state :=
  fold_each (walkers self)
    (fun st entry => _ <- load_position (fst entry) ;; ret (st ++ [fst entry]))
    [].

(** The contents of a state at the moment it is looked at. *)
Definition snapshot (st : state) : M heap (list (list num)) :=
  fold_each st (fun acc w => pos <- load_position w ;; ret (acc ++ [pos])) [].

(** [pos[i] += (related_wlkr.position[i] - pos[i]) * (relation)]
    where [pos] is [wlkr.position] *)
Definition axis_step (wlkr related_wlkr : wref) (relation : num) (i : nat)
  : M heap unit :=
  old <- load_coord wlkr i ;;
  q <- load_coord related_wlkr i ;;
  p <- load_coord wlkr i ;;
  store_coord wlkr i (nadd old (nmul (nsub q p) relation)).

(** [for i in range(len(pos)): ...] for one entry of [relations] *)
Definition relation_step (wlkr : wref) (rel : wref * num) : M heap unit :=
  pos <- load_position wlkr ;;
  for_each (seq 0 (length pos)) (axis_step wlkr (fst rel) (snd rel)).

(** the body of the loop over [self.walkers.items()]; the closing
    [wlkr.position = pos] stores the list object it was read from *)
Definition walker_step (entry : wref * relations) : M heap unit :=
  _ <- load_position (fst entry) ;;
  for_each (snd entry) (relation_step (fst entry)).

(** [WalkingSystem.next_state(self)] *)
Definition next_state (self : WalkingSystem) : M heap state :=
  for_each (walkers self) walker_step ;;;
  get_current_state self.

(** [n] successive calls of [next_state] *)
Fixpoint next_states (n : nat) (self : WalkingSystem) : M heap unit :=
  match n with
  | O => ret tt
  | S n' => next_state self ;;; next_states n' self
  end.

(** *** The [states] generator

    A generator object is either not started, suspended at its [yield]
    with the rest of [range(self.iterations)] still to run, or finished. *)
Inductive generator : Type :=
| Created
| Suspended (rest : list nat)
| Finished.

(** the head of [for iteration in range(self.iterations)]: leave the loop
    or run the body up to the [yield] *)
Definition loop_head (self : WalkingSystem) (rest : list nat)
  : M heap (option state * generator) :=
  match rest with
  | [] => ret (None, Finished)
  | _ :: rest' =>
      st <- get_current_state self ;;
      ret (Some st, Suspended rest')
  end.

(** [next(g)]: [Some st] for a yielded state, [None] for StopIteration *)
Definition gen_next (self : WalkingSystem) (g : generator)
  : M heap (option state * generator) :=
  match g with
  | Created => loop_head self (range (iterations self))
  | Suspended rest => next_state self ;;; loop_head self rest
  | Finished => ret (None, Finished)
  end.

(** [WalkingSystem.states(self)]: calling the generator function makes a
    generator object and runs nothing yet. *)
Definition states (self : WalkingSystem) : generator := Created.

(** [for state in g: acc = body(acc, state)] *)
Fixpoint for_states {B} (fuel : nat) (self : WalkingSystem) (g : generator)
         (body : B -> state -> M heap B) (acc : B) : M heap B :=
  match fuel with
  | O => raise OutOfFuel
  | S fuel' =>
      r <- gen_next self g ;;
      match r with
      | (None, _) => ret acc
      | (Some st, g') =>
          acc' <- body acc st ;;
          for_states fuel' self g' body acc'
      end
  end.

(** [list(self.states())], each state copied when it is yielded *)
Definition collect_states (self : WalkingSystem)
  : M heap (list (list (list num))) :=
  for_states (S (length (range (iterations self)))) self (states self)
    (fun acc st => snap <- snapshot st ;; ret (acc ++ [snap])) [].

(** *** compute_3d_vectrices *)

(** [axes[j].append(coord)] *)
Definition append_to (j : nat) (coord : num) (axes : list (list num))
  : result (list (list num)) :=
  modify_nth j (fun axis => Ok (axis ++ [coord])) axes.

(** [curves[i % len(self.walkers)][j % 3].append(coord)]
    [ring[j % 3].append(coord)] *)
Definition record_coord (nw i : nat) (acc : curvesT * ringT)
           (jc : nat * num) : result (curvesT * ringT) :=
  rbind (pymod i nw) (fun i' =>
  rbind (pymod (fst jc) 3) (fun j' =>
  rbind (modify_nth i' (append_to j' (snd jc)) (fst acc)) (fun crvs =>
  rbind (append_to j' (snd jc) (snd acc)) (fun ring =>
  Ok (crvs, ring))))).

(** [for j, coord in enumerate(position): ...] *)
Definition record_walker (nw : nat) (acc : curvesT * ringT)
           (iw : nat * wref) : M heap (curvesT * ringT) :=
  pos <- load_position (snd iw) ;;
  lift (rfold (record_coord nw (fst iw)) (enumerate pos) acc).

(** [for i in range(len(ring)): ring[i].append(ring[i][0])] *)
Definition close_ring (ring : ringT) : result ringT :=
  rfold
    (fun rg i =>
       modify_nth i
         (fun axis => rbind (getitem axis 0) (fun c => Ok (axis ++ [c])))
         rg)
    (seq 0 (length ring)) ring.

(** the body of [for state in self.states()] *)
Definition record_state (self : WalkingSystem) (acc : curvesT * ringsT)
           (st : state) : M heap (curvesT * ringsT) :=
  cr <- fold_each (enumerate st)
          (record_walker (length (walkers self)))
          (fst acc, repeat [] 3) ;;
  ring <- lift (close_ring (snd cr)) ;;
  ret (fst cr, snd acc ++ [ring]).

(** [WalkingSystem.compute_3d_vectrices(self)]: the result is the updated
    system object together with the returned pair. *)
Definition compute_3d_vectrices (self : WalkingSystem)
  : M heap (WalkingSystem * (curvesT * ringsT)) :=
  cr <- for_states (S (length (range (iterations self)))) self
          (states self) (record_state self)
          (repeat (repeat [] 3) (length (walkers self)), []) ;;
  ret (set_rings (set_curves self (Some (fst cr))) (Some (snd cr)), cr).

End Walkers.

(** *** Walker.distance_from *)

Section Distance.

Context {num : Type} `{Fractional num}.

(** [sum(xs)]: the items are added to the integer 0, from the left *)
Definition pysum (xs : list num) : num := fold_left nadd xs (of_int 0).

(** [sqrt(sum([(other.position[i] - self.position[i]) ** 2
               for i in range(len(self.position))]))] *)
Definition distance_from (self other : wref) : M (@heap num) num :=
  pos <- load_position self ;;
  squares <- map_each
               (fun i =>
                  q <- load_coord other i ;;
                  p <- load_coord self i ;;
                  lift (nsquare (nsub q p)))
               (seq 0 (length pos)) ;;
  lift (nsqrt (pysum squares)).

(** the distance between two walkers after [k] calls of [next_state] *)
Definition distance_after (k : nat) (sys : @WalkingSystem num) (a b : wref)
  : M (@heap num) num :=
  next_states k sys ;;; distance_from a b.

End Distance.

Arguments Walker num : clear implicits.
Arguments heap num : clear implicits.
Arguments relations num : clear implicits.
Arguments walkers_dict num : clear implicits.
Arguments curvesT num : clear implicits.
Arguments ringT num : clear implicits.
Arguments ringsT num : clear implicits.
Arguments WalkingSystem num : clear implicits.

(** ** Vocabulary of the statements *)

(** [c] leaves the observation [P] of the heap as it found it, whether it
    returns or raises. *)
Definition preserves {H A X} (P : H -> X) (c : M H A) : Prop :=
  forall h, P (snd (c h)) = P h.

(** [c] returns (does not raise) from [h]. *)
Definition returns {H A} (c : M H A) (h : H) : Prop :=
  exists a, fst (c h) = Ok a.

Section Observations.

Context {num : Type} `{Number num}.

(** the [start_position] of every walker object *)
Definition starts (h : heap num) : list (list num) :=
  map (@start_position num) h.

(** the number of coordinates of every walker object *)
Definition shape (h : heap num) : list nat :=
  map (fun k : Walker num => length (position k)) h.

(** A relation is usable by a walker with [n] coordinates when the
    related walker exists and has at least [n] coordinates. *)
Definition relation_ok (sh : list nat) (n : nat) (rel : wref * num) : bool :=
  match nth_error sh (fst rel) with
  | Some m => n <=? m
  | None => false
  end.

Definition entry_ok (sh : list nat) (entry : wref * relations num) : bool :=
  match nth_error sh (fst entry) with
  | Some n => forallb (relation_ok sh n) (snd entry)
  | None => false
  end.

(** Every walker of the system is an object of the heap, and so is every
    related walker, with no fewer coordinates than the walker it
    attracts. *)
Definition well_formed (self : WalkingSystem num) (h : heap num) : bool :=
  forallb (entry_ok (shape h)) (walkers self).

(** Every walker of the system has exactly three coordinates. *)
Definition three_dimensional (self : WalkingSystem num) (h : heap num) : bool :=
  forallb
    (fun entry : wref * relations num =>
       match nth_error (shape h) (fst entry) with
       | Some n => n =? 3
       | None => false
       end)
    (walkers self).

(** The positions of the walkers of the system, in the order of the
    [walkers] dict. *)
Definition positions (self : WalkingSystem num) (h : heap num) : list (list num) :=
  map
    (fun entry : wref * relations num =>
       match nth_error h (fst entry) with
       | Some k => position k
       | None => []
       end)
    (walkers self).

(** The loop body of [next_state] preserves the observation [P] of the
    heap for every relation of the system. *)
Definition quiet {X} (P : heap num -> X) (self : WalkingSystem num) : Prop :=
  forall entry rel i,
    In entry (walkers self) -> In rel (snd entry) ->
    preserves P (axis_step (fst entry) (fst rel) (snd rel) i).

(** the value written by one [pos[i] += (q - pos[i]) * relation] *)
Definition blend (relation p q : num) : num :=
  nadd p (nmul (nsub q p) relation).

(** the list written over [ps] by a whole relation with a walker at [qs] *)
Definition move (relation : num) (ps qs : list num) : list num :=
  map (fun pq => blend relation (fst pq) (snd pq)) (combine ps qs).

(** A ring over [nw] walkers: three axes, each with [nw + 1] coordinates,
    the last one equal to the first. *)
Definition closed_axis (nw : nat) (axis : list num) : Prop :=
  length axis = nw + 1 /\
  exists c, getitem axis 0 = Ok c /\ getlast axis = Ok c.

Definition closed_ring (nw : nat) (ring : ringT num) : Prop :=
  length ring = 3 /\ Forall (closed_axis nw) ring.

End Observations.

Section Loops.

Context {num : Type} `{Number num}.

(** The loop [for state in self.states()] seen from the head of the loop
    of the generator, [rest] being what is left of its range. *)
Definition from_head {B} (fuel : nat) (self : WalkingSystem num)
           (rest : list nat) (body : B -> state -> M (heap num) B) (acc : B)
  : M (heap num) B :=
  r <- loop_head self rest ;;
  match r with
  | (None, _) => ret acc
  | (Some st, g') =>
      acc' <- body acc st ;;
      for_states fuel self g' body acc'
  end.

(** The same loop with the generator inlined: read the state, run the
    body, advance, for each item left in the range. *)
Fixpoint loop_from {B} (self : WalkingSystem num) (rest : list nat)
         (body : B -> state -> M (heap num) B) (acc : B) : M (heap num) B :=
  match rest with
  | [] => ret acc
  | _ :: rest' =>
      st <- get_current_state self ;;
      acc' <- body acc st ;;
      next_state self ;;;
      loop_from self rest' body acc'
  end.

(** the body of the loop of [collect_states] *)
Definition copy_state (acc : list (list (list num))) (st : state)
  : M (heap num) (list (list (list num))) :=
  snap <- snapshot st ;; ret (acc ++ [snap]).

(** Curves for [nw] walkers: [nw] entries of three axes each. *)
Definition curves_ok (nw : nat) (crvs : curvesT num) : Prop :=
  length crvs = nw /\ Forall (fun c => length c = 3) crvs.

End Loops.

(** What [distance_from] computes from two positions once their
    coordinates are read: the squares one by one, their sum, its root. *)
Definition distance {num : Type} `{Fractional num} (ps qs : list num)
  : result num :=
  rbind (comprehension (fun pq => nsquare (nsub (snd pq) (fst pq)))
                       (combine ps qs))
        (fun squares => nsqrt (pysum squares)).

(** On exact reals: the sum of the squared coordinate differences of two
    positions, and its square root. *)
Definition sum_squares (ps qs : list R) : R :=
  pysum (map (fun pq => (snd pq - fst pq) ^ 2)%R (combine ps qs)).

Definition dist (ps qs : list R) : R := sqrt (sum_squares ps qs).

(** ** Sample systems *)

Module Samples.

Definition half : R := (1 / 2)%R.

(** two walkers A at (0,0,0) and B at (10,0,0) attracting each other with
    coefficient 0.5; A comes first in the dict, or B does *)
Definition halfway_heap : heap R :=
  [Walker_init [0; 0; 0]%R; Walker_init [10; 0; 0]%R].

Definition halfway_A_first : WalkingSystem R :=
  WalkingSystem_init [(0, [(1, half)]); (1, [(0, half)])] 1
                     Colormaps.black.

Definition halfway_B_first : WalkingSystem R :=
  WalkingSystem_init [(1, [(0, half)]); (0, [(1, half)])] 1
                     Colormaps.black.

(** three walkers with integer coordinates *)
Definition triangle_heap : heap Z :=
  [Walker_init [-10; 50; -70]%Z; Walker_init [-20; 70; -50]%Z;
   Walker_init [0; 50; -40]%Z].

Definition triangle : WalkingSystem Z :=
  WalkingSystem_init
    [(0, [(1, 2%Z); (2, (-1)%Z)]); (1, [(0, 1%Z); (2, 1%Z)]);
     (2, [(0, (-1)%Z)])]
    4 Colormaps.cyan_to_red.

(** the same walkers with no interaction at all *)
Definition still : WalkingSystem Z :=
  WalkingSystem_init [(0, [(1, 0%Z); (2, 0%Z)]); (1, [(0, 0%Z)]); (2, [])]
                     4 Colormaps.black.

(** the triangle, the first walker also related to itself *)
Definition triangle_self : WalkingSystem Z :=
  WalkingSystem_init
    [(0, [(1, 2%Z); (0, 7%Z); (2, (-1)%Z)]); (1, [(0, 1%Z); (2, 1%Z)]);
     (2, [(0, (-1)%Z)])]
    4 Colormaps.cyan_to_red.

(** a system without walkers, asked for two iterations *)
Definition nobody : WalkingSystem Z :=
  WalkingSystem_init [] 2 Colormaps.black.

End Samples.

(** Every relation coefficient of the system is zero. *)
Definition no_interaction {num : Type} `{Number num}
           (self : WalkingSystem num) : Prop :=
  forall entry rel,
    In entry (walkers self) -> In rel (snd entry) -> snd rel = nzero.

Section Neutrality.

Context {num : Type} `{Number num}.

(** The pairs [(p, q)] that the loops of [next_state] read from the heap
    [h]: [p] a coordinate of a walker, [q] the coordinate on the same axis
    of a walker it is related to. *)
Definition facing (self : WalkingSystem num) (h : heap num)
  : list (num * num) :=
  flat_map
    (fun entry : wref * relations num =>
       flat_map
         (fun rel : wref * num =>
            match nth_error h (fst entry), nth_error h (fst rel) with
            | Some kw, Some kr => combine (position kw) (position kr)
            | _, _ => []
            end)
         (snd entry))
    (walkers self).

(** [p + (q - p) * 0] is [p] again for every such pair: so it is in exact
    arithmetic, whatever [p] and [q]; on floats it fails where [q - p] is
    infinite or [nan]. *)
Definition unmoved_by_zero (self : WalkingSystem num) (h : heap num) : Prop :=
  Forall (fun pq => blend nzero (fst pq) (snd pq) = fst pq) (facing self h).

(** The heap as [next_state] finds it when, the entries [ws1] of the
    [walkers] dict being done, it has gone through the relations [rels1]
    of the next walker, [w]. *)
Definition heap_reached (ws1 : walkers_dict num) (w : wref)
           (rels1 : relations num) (h : heap num) : heap num :=
  snd (for_each rels1 (relation_step w) (snd (for_each ws1 walker_step h))).

(** [p + (p - p) * c] is [p] again for every coordinate [p] of the walker
    [w]: so it is in exact arithmetic; on floats it fails where [p] or
    [c] is infinite or [nan]. *)
Definition unmoved_by_self (c : num) (w : wref) (h : heap num) : Prop :=
  match nth_error h w with
  | Some k => Forall (fun p => blend c p p = p) (position k)
  | None => True
  end.

End Neutrality.

(** ** utils.py, continued *)

Module Search.

Section ApproxIndex.

Context {num : Type} `{Ordered num}.

(** [rev_enumerate(iterable)]: the pairs [(i, iterable[i])] for [i] in
    [reversed(range(len(iterable)))], in the order they are yielded *)
Definition rev_enumerate {A} (iterable : list A) : result (list (nat * A)) :=
  comprehension
    (fun i => rbind (getitem iterable i) (fun x => Ok (i, x)))
    (rev (seq 0 (length iterable))).

(** [abs(iterableItem - item) < threshold] *)
Definition within (item threshold iterableItem : num) : bool :=
  nltb (nabs (nsub iterableItem item)) threshold.

(** the loop of [approxIndex]: return at the first pair that passes the
    test, [None] when the pairs are used up *)
Fixpoint first_within (pairs : list (nat * num)) (item threshold : num)
  : option nat :=
  match pairs with
  | [] => None
  | (i, iterableItem) :: pairs' =>
      if within item threshold iterableItem then Some i
      else first_within pairs' item threshold
  end.

(** [approxIndex(iterable, item, threshold)] *)
Definition approxIndex (iterable : list num) (item threshold : num)
  : result (option nat) :=
  rbind (rev_enumerate iterable)
        (fun pairs => Ok (first_within pairs item threshold)).

End ApproxIndex.

End Search.

Module Interp.

Open Scope R_scope.

(** [math.log(x)]: a ValueError outside the domain *)
Definition pylog (x : R) : result R :=
  if Rle_dec x 0 then Raise ValueError else Ok (ln x).

(** [lin_interp(log(lin_interp(x, x_min, x_max) + 1), 0, log(2),
                y_min, y_max)] *)
Definition log_interp (x x_min x_max y_min y_max : R) : result R :=
  rbind (Utils.lin_interp x x_min x_max 0 1) (fun t =>
  rbind (pylog (t + 1)) (fun l =>
  rbind (pylog 2) (fun l2 =>
  Utils.lin_interp l 0 l2 y_min y_max))).

Section Power.

(** Python's [**] on floats, which the sources use and do not define. *)
Variable pypow : R -> R -> result R.

(** [lin_interp(lin_interp(x, x_min, x_max)**power, 0, 1, y_min, y_max)] *)
Definition pow_interp (x power x_min x_max y_min y_max : R) : result R :=
  rbind (Utils.lin_interp x x_min x_max 0 1) (fun t =>
  rbind (pypow t power) (fun u =>
  Utils.lin_interp u 0 1 y_min y_max)).

End Power.

(** a power function that is Python's on bases that are not negative:
    [0 ** p] is 0, 1 or a ZeroDivisionError according to the sign of [p],
    and [b ** p] is the real power for [b > 0] *)
Definition real_pow (b p : R) : result R :=
  if Req_dec_T b 0 then
    if Rlt_dec 0 p then Ok 0
    else if Req_dec_T p 0 then Ok 1
    else Raise ZeroDivisionError
  else Ok (Rpower b p).

End Interp.

(** ** walkers.py, continued *)

Section WalkersMore.

Context {num : Type} `{Number num}.

(** [list(self.states())]: the yielded tuples are kept as they are, no
    copy of the lists they hold is made *)
Definition list_states (self : WalkingSystem num) : M (heap num) (list state) :=
  for_states (S (length (range (iterations self)))) self (states self)
    (fun acc st => ret (acc ++ [st])) [].

End WalkersMore.

(** the point reached from [ps] towards [qs] when the fraction [t] of the
    way is left *)
Definition approach (t : R) (ps qs : list R) : list R :=
  map (fun pq => (snd pq + t * (fst pq - snd pq))%R) (combine ps qs).

(** ** What compute_3d_vectrices is expected to hold *)

Section Vectorized.

Context {num : Type} `{Number num}.

(** coordinate [j] of a position, when it has one *)
Definition coord (j : nat) (p : list num) : list num :=
  match nth_error p j with
  | Some v => [v]
  | None => []
  end.

(** coordinate [j] of every position of a state, in walker order *)
Definition column (j : nat) (ps : list (list num)) : list num :=
  flat_map (coord j) ps.

(** the ring of a state: each axis lists that coordinate of every walker
    and ends with the one of the first walker again *)
Definition ring_of (ps : list (list num)) : ringT num :=
  map (fun j => column j ps ++ firstn 1 (column j ps)) [0; 1; 2].

(** coordinate [j] of walker number [i] along a sequence of states *)
Definition history (i j : nat) (snaps : list (list (list num))) : list num :=
  flat_map
    (fun ps => match nth_error ps i with
               | Some p => coord j p
               | None => []
               end)
    snaps.

(** the curves of a sequence of states: for each walker, the history of
    each of its three coordinates *)
Definition curves_of (nw : nat) (snaps : list (list (list num)))
  : curvesT num :=
  map (fun i => map (fun j => history i j snaps) [0; 1; 2]) (seq 0 nw).

(** one more state at the end of the curves *)
Definition extend_curve (c : list (list num)) (p : list num)
  : list (list num) :=
  map (fun aj => fst aj ++ coord (snd aj) p) (combine c [0; 1; 2]).

Definition extend (crvs : curvesT num) (ps : list (list num)) : curvesT num :=
  map (fun cp => extend_curve (fst cp) (snd cp)) (combine crvs ps).

(** the positions before each of the first [n] calls of [next_state] *)
Definition trajectory (self : WalkingSystem num) (h : heap num) (n : nat)
  : list (list (list num)) :=
  map (fun k => positions self (snd (next_states k self h))) (seq 0 n).

(** the positions of some entries of the [walkers] dict *)
Definition system_positions (ws : walkers_dict num) (h : heap num)
  : list (list num) :=
  map (fun entry : wref * relations num =>
         match nth_error h (fst entry) with
         | Some k => position k
         | None => []
         end) ws.

End Vectorized.

(** ** WalkingSystem.plot

    The two render engines are outside the sources: what [plot] asks of
    them is kept as the list of its [plot] calls, in order, and whether an
    engine can be imported is a parameter.  Opening and showing the
    window is not modelled, and neither is what an engine does of a call:
    [Finished] says that every call was made, which is the end of [plot]
    when the engine took them all.  Both engines take a call with three
    coordinate lists, as the rings and the whole curves are; a call with
    fewer, which [curve[:iterations]] makes for [iterations] under 3, is
    for the engine to accept or to refuse.  The colors are computed in
    exact arithmetic. *)

Module Plot.

Import Stdlib.Strings.String.StringSyntax.

(** [str.lower()], characters being Latin-1 code points *)
Definition lower_char (c : Ascii.ascii) : Ascii.ascii :=
  let n := Ascii.nat_of_ascii c in
  if ((65 <=? n) && (n <=? 90))
     || ((192 <=? n) && (n <=? 222) && negb (n =? 215))
  then Ascii.ascii_of_nat (n + 32)
  else c.

Fixpoint lower (s : String.string) : String.string :=
  match s with
  | String.EmptyString => String.EmptyString
  | String.String c s' => String.String (lower_char c) (lower s')
  end.

(** [xs[:k]]: a negative [k] counts from the end *)
Definition slice_to {A} (k : Z) (xs : list A) : list A :=
  if (0 <=? k)%Z then firstn (Z.to_nat k) xs
  else firstn (length xs - Z.to_nat (- k)) xs.

Inductive backend : Type := Visvis | Pyplot.

(** the chain [if engine == 'visvis' ... elif engine == 'pyplot' ... else] *)
Definition select_backend (engine : String.string) : option backend :=
  if String.eqb engine "visvis" then Some Visvis
  else if String.eqb engine "pyplot" then Some Pyplot
  else None.

Inductive status : Type :=
| Finished
| Raised (e : exn)
| ImportFailed.      (* the ImportError of a missing engine *)

Section Plotting.

Context {num : Type}.

(** the calls of [plot] on the axes of a ring, with the color given,
    and on the axes of a curve *)
Inductive call : Type :=
| PlotRing (axes : list (list num)) (color : list R)
| PlotCurve (axes : list (list num)).

(** the color as the engine gets it: [lc=color] for visvis,
    [c=color+(.4,)] for pyplot *)
Definition paint (b : backend) (color : list R) : list R :=
  match b with
  | Visvis => color
  | Pyplot => color ++ [(4 / 10)%R]
  end.

(** the argument [iterations] of [plot]: [self.iterations] when it is
    None, a ValueError when it is greater than [self.iterations] *)
Definition check_limit (self : WalkingSystem num) (limit : option Z)
  : result Z :=
  match limit with
  | None => Ok (iterations self)
  | Some it =>
      if (it >? iterations self)%Z then Raise ValueError
      else Ok it
  end.

(** [for i, ring in enumerate(rings)]: the calls made, and the exception
    that stopped the loop if one did *)
Fixpoint plot_rings (self : WalkingSystem num) (b : backend)
         (pairs : list (nat * list (list num))) : list call * option exn :=
  match pairs with
  | [] => ([], None)
  | (i, ring) :: pairs' =>
      match rbind (rings self) (fun all_rings =>
              Colormaps.call (cmap self) (INR i) 0%R
                             (INR (length all_rings) / 2)%R 1%R) with
      | Raise e => ([], Some e)
      | Ok color =>
          let (calls, stop) := plot_rings self b pairs' in
          (PlotRing ring (paint b color) :: calls, stop)
      end
  end.

(** [WalkingSystem.plot(self, engine, iterations)], the argument
    [iterations] being [limit_arg] here *)
Definition plot (self : WalkingSystem num) (importable : backend -> bool)
           (engine : String.string) (limit_arg : option Z)
  : list call * status :=
  let engine := lower engine in
  match check_limit self limit_arg with
  | Raise e => ([], Raised e)
  | Ok limit =>
      match select_backend engine with
      | None => ([], Raised ValueError)
      | Some b =>
          if negb (importable b) then ([], ImportFailed)
          else
            match rings self with
            | Raise e => ([], Raised e)
            | Ok all_rings =>
                match plot_rings self b
                        (enumerate (slice_to limit all_rings)) with
                | (calls, Some e) => (calls, Raised e)
                | (calls, None) =>
                    match curves self with
                    | Raise e => (calls, Raised e)
                    | Ok all_curves =>
                        (calls
                         ++ map (fun curve => PlotCurve (slice_to limit curve))
                                all_curves,
                         Finished)
                    end
                end
            end
      end
  end.

(** the coordinate lists a call hands to the engine, [*ring] or
    [*curve[:iterations]] *)
Definition axes_of (c : call) : list (list num) :=
  match c with
  | PlotRing axes _ => axes
  | PlotCurve axes => axes
  end.

(** a ring drawn as it is, in a color whose three components lie
    between 0 and 1 *)
Definition ring_drawn (b : backend) (ring : list (list num)) (c : call)
  : Prop :=
  exists r g bl,
    c = PlotRing ring (paint b [r; g; bl]) /\
    (0 <= r <= 1)%R /\ (0 <= g <= 1)%R /\ (0 <= bl <= 1)%R.

End Plotting.

End Plot.

(** ** More sample systems *)

Module MoreSamples.

(** a walker drawn by a walker with one coordinate less *)
Definition lopsided_heap : heap Z :=
  [Walker_init [1; 2; 3]%Z; Walker_init [5; 7]%Z].

Definition lopsided : WalkingSystem Z :=
  WalkingSystem_init [(0, [(1, 1%Z)])] 1 Colormaps.black.

(** two walkers running after a third one that stays where it is *)
Definition chased : WalkingSystem Z :=
  WalkingSystem_init [(0, [(2, 1%Z)]); (1, [(2, 2%Z)]); (2, [])] 3
                     Colormaps.cyan_to_red.

(** A at (0,0,0) going half the way to B at (10,0,0) at each step *)
Definition follower : WalkingSystem R :=
  WalkingSystem_init [(0, [(1, Samples.half)])] 3 Colormaps.black.

(** a system of two walkers with two iterations already computed *)
Definition computed_rings : ringsT Z :=
  [[[0; 4; 0]; [1; 5; 1]; [2; 6; 2]]; [[4; 0; 4]; [5; 1; 5]; [6; 2; 6]]]%Z.

Definition computed_curves : curvesT Z :=
  [[[0; 4]; [1; 5]; [2; 6]]; [[4; 0]; [5; 1]; [6; 2]]]%Z.

Definition computed : WalkingSystem Z :=
  set_rings
    (set_curves
       (WalkingSystem_init [(0, [(1, 1%Z)]); (1, [(0, 1%Z)])] 2
                           Colormaps.cyan_to_red)
       (Some computed_curves))
    (Some computed_rings).

(** the same data, said to stand for five iterations *)
Definition computed_five : WalkingSystem Z :=
  set_rings
    (set_curves
       (WalkingSystem_init [(0, [(1, 1%Z)]); (1, [(0, 1%Z)])] 5
                           Colormaps.cyan_to_red)
       (Some computed_curves))
    (Some computed_rings).

Definition everything_importable (b : Plot.backend) : bool := true.

End MoreSamples.

(** ** Sample systems on floats *)

Module FloatSamples.

Import Stdlib.Floats.PrimFloat.

Local Open Scope float_scope.

(** the two walkers of the concrete scenario, as floats: A at (0,0,0) and
    B at (10,0,0) attracting each other with coefficient 0.5 *)
Definition halfway_heap : heap float :=
  [Walker_init [0; 0; 0]; Walker_init [10; 0; 0]].

Definition halfway : WalkingSystem float :=
  WalkingSystem_init [(0%nat, [(1%nat, 0.5)]); (1%nat, [(0%nat, 0.5)])] 1
                     Colormaps.black.

(** the same, A also related to itself *)
Definition halfway_self : WalkingSystem float :=
  WalkingSystem_init
    [(0%nat, [(1%nat, 0.5); (0%nat, 0.5)]); (1%nat, [(0%nat, 0.5)])] 1
    Colormaps.black.

(** the same walkers repelling each other with coefficient -0.5 *)
Definition halfway_apart : WalkingSystem float :=
  WalkingSystem_init [(0%nat, [(1%nat, -0.5)]); (1%nat, [(0%nat, -0.5)])] 1
                     Colormaps.black.

(** the same walkers with every coefficient 0 *)
Definition halfway_still : WalkingSystem float :=
  WalkingSystem_init [(0%nat, [(1%nat, 0)]); (1%nat, [(0%nat, 0)])] 1
                     Colormaps.black.

(** two walkers far apart: A at (2^1023, 0, 0) and B at (-2^1023, 0, 0),
    finite positions whose difference is not *)
Definition far_heap : heap float :=
  [Walker_init [Binary64.huge; 0; 0]; Walker_init [- Binary64.huge; 0; 0]].

(** with every coefficient 0 *)
Definition far_still : WalkingSystem float :=
  WalkingSystem_init [(0%nat, [(1%nat, 0)]); (1%nat, [(0%nat, 0)])] 1
                     Colormaps.black.

(** A drawn halfway to B, and the same with A also related to itself *)
Definition far_pull : WalkingSystem float :=
  WalkingSystem_init [(0%nat, [(1%nat, 0.5)]); (1%nat, [])] 1
                     Colormaps.black.

Definition far_pull_self : WalkingSystem float :=
  WalkingSystem_init [(0%nat, [(1%nat, 0.5); (0%nat, 0.5)]); (1%nat, [])] 1
                     Colormaps.black.

(** a walker with one coordinate less than the other, and two walkers
    whose first coordinates are too far apart for the square of their
    difference *)
Definition lopsided_heap : heap float :=
  [Walker_init [1; 2; 3]; Walker_init [5; 7]].

Definition wide_heap : heap float :=
  [Walker_init [0; 0; 0]; Walker_init [Binary64.wide; 0]].

(** two walkers at different places, closer than floats can square *)
Definition close_heap : heap float :=
  [Walker_init [0; 0; 0]; Walker_init [Binary64.tiny; 0; 0]].

(** a color map from black to a dark gray *)
Definition gray : Colormaps.ColorMap :=
  {| Colormaps.cm_start := [0; 0; 0]%Z; Colormaps.cm_end := [100; 100; 100]%Z |}.

(** [0.9] and the float next to 47 *)
Definition nine_tenths : float := 0x1.ccccccccccccdp-1.
Definition above_47 : float := 0x1.7800000000001p+5.

Definition full : float := 255.
Definition hundred : float := 100.
Definition five : float := 5.
Definition seven_and_a_half : float := 7.5.

End FloatSamples.

(** engine names as a caller may write them *)
Module EngineNames.

Import Stdlib.Strings.String.StringSyntax.
Local Open Scope string_scope.

Definition pyplot : String.string := "pyplot".
Definition visvis : String.string := "visvis".
Definition mixed_case : String.string := "PyPlot".

End EngineNames.

(** * Properties *)

Unset Implicit Arguments.

(** ** The model at work *)

Section Examples.

Import Samples.

(** One call of [next_state] on the triangle: the first walker moves
    towards the second and away from the third, the second one lands on
    the first and then on the third, the third flees the first. *)
Example next_state_triangle :
  next_state triangle triangle_heap
  = (Ok [0; 1; 2],
     [{| start_position := [-10; 50; -70]%Z;
         position := [-60; 130; -20]%Z |};
      {| start_position := [-20; 70; -50]%Z;
         position := [0; 50; -40]%Z |};
      {| start_position := [0; 50; -40]%Z;
         position := [60; -30; -60]%Z |}]).
Proof. reflexivity. Qed.

(** Two iterations of the triangle, as rings and curves. *)
Example compute_3d_vectrices_triangle :
  fst (compute_3d_vectrices
         (WalkingSystem_init (walkers triangle) 2 (cmap triangle))
         triangle_heap)
  = Ok (set_rings
          (set_curves
             (WalkingSystem_init (walkers triangle) 2 (cmap triangle))
             (Some [[[-10; -60]; [50; 130]; [-70; -20]];
                    [[-20; 0]; [70; 50]; [-50; -40]];
                    [[0; 60]; [50; -30]; [-40; -60]]]%Z))
          (Some [[[-10; -20; 0; -10]; [50; 70; 50; 50]; [-70; -50; -40; -70]];
                 [[-60; 0; 60; -60]; [130; 50; -30; 130];
                  [-20; -40; -60; -20]]]%Z),
        ([[[-10; -60]; [50; 130]; [-70; -20]];
          [[-20; 0]; [70; 50]; [-50; -40]];
          [[0; 60]; [50; -30]; [-40; -60]]]%Z,
         [[[-10; -20; 0; -10]; [50; 70; 50; 50]; [-70; -50; -40; -70]];
          [[-60; 0; 60; -60]; [130; 50; -30; 130]; [-20; -40; -60; -20]]]%Z)).
Proof. reflexivity. Qed.

(** A related walker with fewer coordinates: [related_wlkr.position[i]]
    raises IndexError after the first two coordinates have been written. *)
Example next_state_index_error :
  next_state (WalkingSystem_init [(0, [(1, 1%Z)])] 1 Colormaps.black)
             [Walker_init [1; 2; 3]%Z; Walker_init [5; 7]%Z]
  = (Raise IndexError,
     [{| start_position := [1; 2; 3]%Z; position := [5; 7; 3]%Z |};
      Walker_init [5; 7]%Z]).
Proof. reflexivity. Qed.

(** A system whose only walker has two coordinates: the third axis of the
    ring stays empty and cannot be closed. *)
Example compute_3d_vectrices_flat :
  fst (compute_3d_vectrices
         (WalkingSystem_init [(0, [])] 1 Colormaps.black)
         [Walker_init [5; 7]%Z])
  = Raise IndexError.
Proof. reflexivity. Qed.

End Examples.

(** ** The functions of utils.py on exact reals *)

Section ExactUtils.

Open Scope R_scope.

Lemma clamp_R (x inf sup : R) :
  Utils.clamp x inf sup
  = if Rlt_dec x inf then inf else if Rlt_dec sup x then sup else x.
Proof.
  unfold Utils.clamp. cbn [nltb Ordered_R].
  destruct (Rlt_dec x inf); [reflexivity |].
  destruct (Rlt_dec sup x); reflexivity.
Qed.

Lemma lin_interp_R (x x_min x_max y_min y_max : R) :
  Utils.lin_interp x x_min x_max y_min y_max
  = if Req_dec_T (x_max - x_min) 0 then Raise ZeroDivisionError
    else Ok ((x - x_min) * (y_max - y_min) / (x_max - x_min) + y_min).
Proof.
  unfold Utils.lin_interp.
  cbn [ndiv Fractional_R nadd nsub nmul Number_R].
  destruct (Req_dec_T (x_max - x_min) 0); reflexivity.
Qed.

(** [lin_interp(5, 0, 10, 0, 100) == 50] and [clamp(150, 0, 100) == 100] *)
Example lin_interp_midway : Utils.lin_interp 5 0 10 0 100 = Ok 50.
Proof.
  rewrite lin_interp_R.
  destruct (Req_dec_T (10 - 0) 0) as [E | _]; [exfalso; lra |].
  f_equal. lra.
Qed.

Example clamp_above : Utils.clamp 150 0 100 = 100.
Proof.
  rewrite clamp_R.
  destruct (Rlt_dec 150 0) as [E | _]; [exfalso; lra |].
  destruct (Rlt_dec 100 150) as [_ | E]; [reflexivity | exfalso; lra].
Qed.

End ExactUtils.

(** ** The monad: frames and successful runs *)

Lemma preserves_ret {H A X} (P : H -> X) (a : A) : preserves P (ret a).
Proof. intro h. reflexivity. Qed.

Lemma preserves_raise {H A X} (P : H -> X) (e : exn) :
  preserves P (@raise H A e).
Proof. intro h. reflexivity. Qed.

Lemma preserves_lift {H A X} (P : H -> X) (r : result A) :
  preserves P (lift r).
Proof. intro h. reflexivity. Qed.

Lemma preserves_bind {H A B X} (P : H -> X) (c : M H A) (k : A -> M H B) :
  preserves P c -> (forall a, preserves P (k a)) -> preserves P (bind c k).
Proof.
  intros Hc Hk h. unfold bind.
  specialize (Hc h). destruct (c h) as [[a | e] h1]; simpl in *.
  - rewrite Hk. exact Hc.
  - exact Hc.
Qed.

Lemma preserves_for_each {H A X} (P : H -> X) (xs : list A)
      (body : A -> M H unit) :
  (forall x, preserves P (body x)) -> preserves P (for_each xs body).
Proof.
  intro Hb. induction xs as [| x xs IH]; simpl.
  - apply preserves_ret.
  - apply preserves_bind; [apply Hb | intros _; exact IH].
Qed.

Lemma preserves_fold_each {H A B X} (P : H -> X) (xs : list A)
      (body : B -> A -> M H B) (acc : B) :
  (forall b x, preserves P (body b x)) -> preserves P (fold_each xs body acc).
Proof.
  intro Hb. revert acc. induction xs as [| x xs IH]; intro acc; simpl.
  - apply preserves_ret.
  - apply preserves_bind; [apply Hb | intro b; apply IH].
Qed.

Lemma bind_Ok {H A B} {c : M H A} (k : A -> M H B) {h a h1} :
  c h = (Ok a, h1) -> bind c k h = k a h1.
Proof. intro E. unfold bind. rewrite E. reflexivity. Qed.

Lemma bind_Raise {H A B} {c : M H A} (k : A -> M H B) {h e h1} :
  c h = (Raise e, h1) -> bind c k h = (Raise e, h1).
Proof. intro E. unfold bind. rewrite E. reflexivity. Qed.

Lemma bind_ext {H A B} (c : M H A) (k k' : A -> M H B) h :
  (forall a h1, k a h1 = k' a h1) -> bind c k h = bind c k' h.
Proof.
  intro E. unfold bind. destruct (c h) as [[a | e] h1]; [apply E | reflexivity].
Qed.

Lemma bind_cong {H A B} (c c' : M H A) (k k' : A -> M H B) h :
  c h = c' h -> (forall a h1, k a h1 = k' a h1) -> bind c k h = bind c' k' h.
Proof.
  intros Ec E. unfold bind. rewrite Ec.
  destruct (c' h) as [[a | e] h1]; [apply E | reflexivity].
Qed.

Lemma bind_assoc {H A B C} (c : M H A) (k : A -> M H B) (k' : B -> M H C) h :
  bind (bind c k) k' h = bind c (fun a => bind (k a) k') h.
Proof. unfold bind. destruct (c h) as [[a | e] h1]; reflexivity. Qed.

(** A loop returns when its body returns from every heap that looks like
    the initial one under an observation the body preserves. *)
Lemma for_each_returns {H A X} (P : H -> X) (xs : list A)
      (body : A -> M H unit) (h : H) :
  (forall x, preserves P (body x)) ->
  (forall x h', In x xs -> P h' = P h -> returns (body x) h') ->
  returns (for_each xs body) h.
Proof.
  intros Hp. revert h. induction xs as [| x xs IH]; intros h Hr; simpl.
  - exists tt. reflexivity.
  - destruct (Hr x h (or_introl eq_refl) eq_refl) as [u Hu].
    pose proof (Hp x h) as Hx.
    destruct (body x h) as [r h1] eqn:E. simpl in Hu, Hx. subst r.
    unfold returns. rewrite (bind_Ok _ E).
    apply IH. intros y h' Hy Hh'. apply Hr; [right; exact Hy | congruence].
Qed.

(** ** Python lists *)

Lemma modify_nth_length {A} (f : A -> result A) (xs : list A) :
  forall i ys, modify_nth i f xs = Ok ys -> length ys = length xs.
Proof.
  induction xs as [| x xs IH]; intros [| i] ys; simpl; try discriminate.
  - destruct (f x); simpl; [| discriminate].
    intros [= <-]. reflexivity.
  - destruct (modify_nth i f xs) as [zs |] eqn:E; simpl; [| discriminate].
    intros [= <-]. simpl. f_equal. eapply IH; eassumption.
Qed.

Lemma modify_nth_same {A} (f : A -> result A) (xs : list A) :
  forall i x, nth_error xs i = Some x -> f x = Ok x -> modify_nth i f xs = Ok xs.
Proof.
  induction xs as [| y xs IH]; intros [| i] x; simpl; try discriminate.
  - intros [= ->] ->. reflexivity.
  - intros Hn Hf. rewrite (IH _ _ Hn Hf). reflexivity.
Qed.

Lemma modify_nth_Ok {A} (f : A -> result A) (xs : list A) :
  forall i x y, nth_error xs i = Some x -> f x = Ok y ->
    exists ys, modify_nth i f xs = Ok ys.
Proof.
  induction xs as [| z xs IH]; intros [| i] x y; simpl; try discriminate.
  - intros [= ->] ->. simpl. eauto.
  - intros Hn Hf. destruct (IH _ _ _ Hn Hf) as [ys ->]. simpl. eauto.
Qed.

Lemma modify_nth_app {A} (f : A -> result A) (pre : list A) x y post :
  f x = Ok y ->
  modify_nth (length pre) f (pre ++ x :: post) = Ok (pre ++ y :: post).
Proof.
  intro Hf. induction pre as [| z pre IH]; simpl.
  - rewrite Hf. reflexivity.
  - rewrite IH. reflexivity.
Qed.

Lemma nth_error_middle {A} (pre : list A) x post :
  nth_error (pre ++ x :: post) (length pre) = Some x.
Proof. induction pre; simpl; auto. Qed.

(** ** The heap *)

Section HeapFacts.

Context {num : Type} `{Number num}.

Lemma heap_set_same (h : heap num) :
  forall w k, nth_error h w = Some k -> heap_set w k h = h.
Proof.
  induction h as [| k0 h IH]; intros [| w] k; simpl; try discriminate.
  - intros [= ->]. reflexivity.
  - intro E. rewrite (IH _ _ E). reflexivity.
Qed.

Lemma heap_set_lookup (h : heap num) :
  forall w k k0, nth_error h w = Some k0 ->
    nth_error (heap_set w k h) w = Some k.
Proof.
  induction h as [| k1 h IH]; intros [| w] k k0; simpl; try discriminate.
  - reflexivity.
  - apply IH.
Qed.

Lemma heap_set_other (h : heap num) :
  forall w w' k, w <> w' ->
    nth_error (heap_set w k h) w' = nth_error h w'.
Proof.
  induction h as [| k1 h IH]; intros [| w] [| w'] k Hne; simpl;
    try reflexivity; try congruence.
  apply IH. congruence.
Qed.

Lemma heap_set_twice (h : heap num) :
  forall w k1 k2, heap_set w k2 (heap_set w k1 h) = heap_set w k2 h.
Proof.
  induction h as [| k0 h IH]; intros [| w] k1 k2; simpl; try reflexivity.
  rewrite IH. reflexivity.
Qed.

Lemma heap_set_starts (h : heap num) :
  forall w k k0, nth_error h w = Some k0 ->
    start_position k = start_position k0 ->
    starts (heap_set w k h) = starts h.
Proof.
  unfold starts.
  induction h as [| k1 h IH]; intros [| w] k k0; simpl; try discriminate.
  - intros [= ->] ->. reflexivity.
  - intros E Hs. rewrite (IH _ _ _ E Hs). reflexivity.
Qed.

Lemma heap_set_shape (h : heap num) :
  forall w k k0, nth_error h w = Some k0 ->
    length (position k) = length (position k0) ->
    shape (heap_set w k h) = shape h.
Proof.
  unfold shape.
  induction h as [| k1 h IH]; intros [| w] k k0; simpl; try discriminate.
  - intros [= ->] ->. reflexivity.
  - intros E Hs. rewrite (IH _ _ _ E Hs). reflexivity.
Qed.

Lemma shape_lookup (h : heap num) w :
  nth_error (shape h) w =
  option_map (fun k : Walker num => length (position k)) (nth_error h w).
Proof. unfold shape. apply nth_error_map. Qed.

Lemma with_position_same (k : Walker num) : with_position k (position k) = k.
Proof. destruct k. reflexivity. Qed.

(** *** Reads and writes *)

Lemma deref_run (w : wref) (h : heap num) k :
  nth_error h w = Some k -> deref w h = (Ok k, h).
Proof. intro E. unfold deref. rewrite E. reflexivity. Qed.

Lemma load_position_run (w : wref) (h : heap num) k :
  nth_error h w = Some k -> load_position w h = (Ok (position k), h).
Proof.
  intro E. unfold load_position. rewrite (bind_Ok _ (deref_run _ _ _ E)).
  reflexivity.
Qed.

Lemma load_coord_run (w : wref) (i : nat) (h : heap num) k v :
  nth_error h w = Some k -> nth_error (position k) i = Some v ->
  load_coord w i h = (Ok v, h).
Proof.
  intros E Ei. unfold load_coord.
  rewrite (bind_Ok _ (load_position_run _ _ _ E)).
  unfold lift, getitem. rewrite Ei. reflexivity.
Qed.

(** A read that returns leaves the heap alone and returns what is there. *)
Lemma load_coord_inv (w : wref) (i : nat) (h h' : heap num) v :
  load_coord w i h = (Ok v, h') ->
  h' = h /\ exists k, nth_error h w = Some k /\
                      nth_error (position k) i = Some v.
Proof.
  unfold load_coord, load_position, bind, deref, ret, lift, getitem.
  destruct (nth_error h w) as [k |] eqn:E; [| discriminate].
  destruct (nth_error (position k) i) as [x |] eqn:Ei; [| discriminate].
  intros [= <- <-]. eauto.
Qed.

Lemma store_coord_run (w : wref) (i : nat) (v : num) (h : heap num) k pos :
  nth_error h w = Some k -> setitem (position k) i v = Ok pos ->
  store_coord w i v h = (Ok tt, heap_set w (with_position k pos) h).
Proof.
  intros E Es. unfold store_coord.
  rewrite (bind_Ok _ (deref_run _ _ _ E)).
  unfold bind, lift. rewrite Es. reflexivity.
Qed.

(** Writing the value that is already there changes nothing. *)
Lemma store_coord_same (w : wref) (i : nat) (v : num) (h : heap num) k :
  nth_error h w = Some k -> nth_error (position k) i = Some v ->
  store_coord w i v h = (Ok tt, h).
Proof.
  intros E Ei.
  assert (Es : setitem (position k) i v = Ok (position k))
    by (apply modify_nth_same with (x := v); auto).
  rewrite (store_coord_run _ _ _ _ _ _ E Es).
  rewrite with_position_same, (heap_set_same _ _ _ E). reflexivity.
Qed.

Lemma preserves_deref {X} (P : heap num -> X) w : preserves P (deref w).
Proof. intro h. unfold deref. destruct (nth_error h w); reflexivity. Qed.

Lemma preserves_load_position {X} (P : heap num -> X) w :
  preserves P (load_position w).
Proof.
  unfold load_position.
  apply preserves_bind; [apply preserves_deref | intro; apply preserves_ret].
Qed.

Lemma preserves_load_coord {X} (P : heap num -> X) w i :
  preserves P (load_coord w i).
Proof.
  unfold load_coord. apply preserves_bind;
    [apply preserves_load_position | intro; apply preserves_lift].
Qed.

Lemma store_coord_starts w i (v : num) :
  preserves starts (store_coord w i v).
Proof.
  intro h. unfold store_coord, bind, deref, lift, put.
  destruct (nth_error h w) as [k |] eqn:E; simpl; [| reflexivity].
  destruct (setitem (position k) i v) as [pos |]; simpl; [| reflexivity].
  apply heap_set_starts with (k0 := k); auto.
Qed.

Lemma store_coord_shape w i (v : num) :
  preserves shape (store_coord w i v).
Proof.
  intro h. unfold store_coord, bind, deref, lift, put.
  destruct (nth_error h w) as [k |] eqn:E; simpl; [| reflexivity].
  destruct (setitem (position k) i v) as [pos |] eqn:Es; simpl;
    [| reflexivity].
  apply heap_set_shape with (k0 := k); auto.
  simpl. eapply modify_nth_length. exact Es.
Qed.

End HeapFacts.

(** ** What the simulation leaves alone *)

Lemma preserves_for_each_in {H A X} (P : H -> X) (xs : list A)
      (body : A -> M H unit) :
  (forall x, In x xs -> preserves P (body x)) -> preserves P (for_each xs body).
Proof.
  induction xs as [| x xs IH]; intro Hb; simpl.
  - apply preserves_ret.
  - apply preserves_bind.
    + apply Hb. left. reflexivity.
    + intros _. apply IH. intros y Hy. apply Hb. right. exact Hy.
Qed.

Section SimulationFrame.

Context {num : Type} `{Number num} {X : Type} (P : heap num -> X).

Lemma preserves_axis_step w r (c : num) i :
  (forall v, preserves P (store_coord w i v)) ->
  preserves P (axis_step w r c i).
Proof.
  intro Hs. unfold axis_step.
  repeat (apply preserves_bind; [apply preserves_load_coord | intro]).
  apply Hs.
Qed.

Lemma preserves_relation_step w (rel : wref * num) :
  (forall i, preserves P (axis_step w (fst rel) (snd rel) i)) ->
  preserves P (relation_step w rel).
Proof.
  intro Ha. unfold relation_step.
  apply preserves_bind; [apply preserves_load_position | intro pos].
  apply preserves_for_each. exact Ha.
Qed.

Lemma preserves_walker_step (entry : wref * relations num) :
  (forall rel i, In rel (snd entry) ->
     preserves P (axis_step (fst entry) (fst rel) (snd rel) i)) ->
  preserves P (walker_step entry).
Proof.
  intro Ha. unfold walker_step.
  apply preserves_bind; [apply preserves_load_position | intros _].
  apply preserves_for_each_in. intros rel Hrel.
  apply preserves_relation_step. intro i. apply Ha. exact Hrel.
Qed.

Lemma preserves_get_current_state (self : WalkingSystem num) :
  preserves P (get_current_state self).
Proof.
  unfold get_current_state. apply preserves_fold_each. intros st entry.
  apply preserves_bind; [apply preserves_load_position | intro].
  apply preserves_ret.
Qed.

Lemma preserves_snapshot (st : state) : preserves P (snapshot (num := num) st).
Proof.
  unfold snapshot. apply preserves_fold_each. intros acc w.
  apply preserves_bind; [apply preserves_load_position | intro].
  apply preserves_ret.
Qed.

Lemma preserves_next_state (self : WalkingSystem num) :
  quiet P self -> preserves P (next_state self).
Proof.
  intro Hq. unfold next_state. apply preserves_bind.
  - apply preserves_for_each_in. intros entry He.
    apply preserves_walker_step. intros rel i Hrel. apply Hq; assumption.
  - intros _. apply preserves_get_current_state.
Qed.

Lemma preserves_next_states (self : WalkingSystem num) n :
  quiet P self -> preserves P (next_states n self).
Proof.
  intro Hq. induction n as [| n IH]; simpl.
  - apply preserves_ret.
  - apply preserves_bind; [apply preserves_next_state; exact Hq |].
    intros _. exact IH.
Qed.

Lemma preserves_loop_head (self : WalkingSystem num) rest :
  preserves P (loop_head self rest).
Proof.
  destruct rest as [| x rest]; simpl.
  - apply preserves_ret.
  - apply preserves_bind; [apply preserves_get_current_state | intro].
    apply preserves_ret.
Qed.

Lemma preserves_gen_next (self : WalkingSystem num) g :
  quiet P self -> preserves P (gen_next self g).
Proof.
  intro Hq. destruct g as [| rest |]; simpl.
  - apply preserves_loop_head.
  - apply preserves_bind; [apply preserves_next_state; exact Hq |].
    intros _. apply preserves_loop_head.
  - apply preserves_ret.
Qed.

Lemma preserves_for_states {B} (self : WalkingSystem num)
      (body : B -> state -> M (heap num) B) :
  quiet P self -> (forall b st, preserves P (body b st)) ->
  forall fuel g acc, preserves P (for_states fuel self g body acc).
Proof.
  intros Hq Hb. induction fuel as [| fuel IH]; intros g acc; simpl.
  - apply preserves_raise.
  - apply preserves_bind; [apply preserves_gen_next; exact Hq |].
    intros [[st |] g'].
    + apply preserves_bind; [apply Hb | intro b; apply IH].
    + apply preserves_ret.
Qed.

Lemma preserves_collect_states (self : WalkingSystem num) :
  quiet P self -> preserves P (collect_states self).
Proof.
  intro Hq. unfold collect_states. apply preserves_for_states; [exact Hq |].
  intros acc st.
  apply preserves_bind; [apply preserves_snapshot | intro].
  apply preserves_ret.
Qed.

Lemma preserves_record_state (self : WalkingSystem num) acc st :
  preserves P (record_state self acc st).
Proof.
  unfold record_state. apply preserves_bind.
  - apply preserves_fold_each. intros b iw. unfold record_walker.
    apply preserves_bind; [apply preserves_load_position | intro].
    apply preserves_lift.
  - intro cr. apply preserves_bind; [apply preserves_lift | intro].
    apply preserves_ret.
Qed.

Lemma preserves_compute_3d_vectrices (self : WalkingSystem num) :
  quiet P self -> preserves P (compute_3d_vectrices self).
Proof.
  intro Hq. unfold compute_3d_vectrices. apply preserves_bind.
  - apply preserves_for_states; [exact Hq |].
    intros acc st. apply preserves_record_state.
  - intro cr. apply preserves_ret.
Qed.

End SimulationFrame.

Section StartPositions.

Context {num : Type} `{Number num}.

Lemma quiet_starts (self : WalkingSystem num) : quiet starts self.
Proof.
  intros entry rel i _ _. apply preserves_axis_step.
  intro v. apply store_coord_starts.
Qed.

Lemma quiet_shape (self : WalkingSystem num) : quiet shape self.
Proof.
  intros entry rel i _ _. apply preserves_axis_step.
  intro v. apply store_coord_shape.
Qed.

(** C10. No call of [next_state] (once or [n] times in a row), no
    resumption of the [states] generator in whatever state it is, no full
    run of it and no call of [compute_3d_vectrices] changes the
    [start_position] of any walker object, whether the call returns or
    raises: the simulation only ever writes to [position]. *)
Theorem start_position_never_written (self : WalkingSystem num)
        (h : heap num) :
  (forall n, starts (snd (next_states n self h)) = starts h) /\
  (forall g, starts (snd (gen_next self g h)) = starts h) /\
  starts (snd (collect_states self h)) = starts h /\
  starts (snd (compute_3d_vectrices self h)) = starts h.
Proof.
  pose proof (quiet_starts self) as Hq.
  repeat split.
  - intro n. apply preserves_next_states. exact Hq.
  - intro g. apply preserves_gen_next. exact Hq.
  - apply preserves_collect_states. exact Hq.
  - apply preserves_compute_3d_vectrices. exact Hq.
Qed.

End StartPositions.

(** ** Runs of [next_state] that return *)

Lemma returns_run {H A} (c : M H A) h :
  returns c h -> exists a, c h = (Ok a, snd (c h)).
Proof.
  intros [a Ha]. exists a. destruct (c h) as [r h1]. simpl in *. congruence.
Qed.

Lemma nth_error_lt {A} (l : list A) i :
  i < length l -> exists x, nth_error l i = Some x.
Proof.
  intro Hi. destruct (nth_error l i) as [x |] eqn:E; [eauto |].
  apply nth_error_None in E. lia.
Qed.

Section Runs.

Context {num : Type} `{Number num}.

Lemma lookup_of_shape (h : heap num) w n :
  nth_error (shape h) w = Some n ->
  exists k, nth_error h w = Some k /\ length (position k) = n.
Proof.
  rewrite shape_lookup.
  destruct (nth_error h w) as [k |]; simpl; [| discriminate].
  intros [= <-]. eauto.
Qed.

(** Once its three reads are done, the body of the innermost loop is one
    write. *)
Lemma axis_step_run w r (c : num) i (h : heap num) kw kr p q :
  nth_error h w = Some kw -> nth_error (position kw) i = Some p ->
  nth_error h r = Some kr -> nth_error (position kr) i = Some q ->
  axis_step w r c i h = store_coord w i (blend c p q) h.
Proof.
  intros Ew Ep Er Eq. unfold axis_step.
  rewrite (bind_Ok _ (load_coord_run _ _ _ _ _ Ew Ep)).
  rewrite (bind_Ok _ (load_coord_run _ _ _ _ _ Er Eq)).
  rewrite (bind_Ok _ (load_coord_run _ _ _ _ _ Ew Ep)).
  reflexivity.
Qed.

(** Either a read raises, and nothing was written, or both coordinates
    are there. *)
Lemma axis_step_reads w r (c : num) i (h : heap num) :
  (exists e, axis_step w r c i h = (Raise e, h)) \/
  (exists kw kr p q,
      nth_error h w = Some kw /\ nth_error (position kw) i = Some p /\
      nth_error h r = Some kr /\ nth_error (position kr) i = Some q).
Proof.
  destruct (load_coord w i h) as [[p | e] h1] eqn:E1.
  - destruct (load_coord_inv _ _ _ _ _ E1) as [-> (kw & Ew & Ep)].
    destruct (load_coord r i h) as [[q | e] h2] eqn:E2.
    + destruct (load_coord_inv _ _ _ _ _ E2) as [-> (kr & Er & Eq)].
      right. exists kw, kr, p, q. auto.
    + left. exists e. unfold axis_step.
      rewrite (bind_Ok _ E1), (bind_Raise _ E2).
      pose proof (preserves_load_coord (fun x => x) r i h) as Hp.
      rewrite E2 in Hp. simpl in Hp. subst h2. reflexivity.
  - left. exists e. unfold axis_step. rewrite (bind_Raise _ E1).
    pose proof (preserves_load_coord (fun x => x) w i h) as Hp.
    rewrite E1 in Hp. simpl in Hp. subst h1. reflexivity.
Qed.

Lemma axis_step_returns w r (c : num) i (h : heap num) n m :
  nth_error (shape h) w = Some n -> nth_error (shape h) r = Some m ->
  i < n -> i < m -> returns (axis_step w r c i) h.
Proof.
  intros Hw Hr Hn Hm.
  destruct (lookup_of_shape _ _ _ Hw) as (kw & Ew & Lw).
  destruct (lookup_of_shape _ _ _ Hr) as (kr & Er & Lr).
  destruct (nth_error_lt (position kw) i) as [p Ep]; [lia |].
  destruct (nth_error_lt (position kr) i) as [q Eq]; [lia |].
  unfold returns. rewrite (axis_step_run _ _ _ _ _ _ _ _ _ Ew Ep Er Eq).
  destruct (modify_nth_Ok (fun _ => Ok (blend c p q)) (position kw) i p
              (blend c p q) Ep eq_refl) as [pos Es].
  rewrite (store_coord_run _ _ _ _ _ _ Ew Es). simpl. eauto.
Qed.

Lemma preserves_shape_axis_step w r (c : num) i :
  preserves shape (axis_step w r c i).
Proof. apply preserves_axis_step. intro v. apply store_coord_shape. Qed.

Lemma relation_step_returns w (rel : wref * num) (h : heap num) n :
  nth_error (shape h) w = Some n -> relation_ok (shape h) n rel = true ->
  returns (relation_step w rel) h.
Proof.
  intros Hw Hrel. unfold relation_ok in Hrel.
  destruct (nth_error (shape h) (fst rel)) as [m |] eqn:Hr; [| discriminate].
  apply Nat.leb_le in Hrel.
  destruct (lookup_of_shape _ _ _ Hw) as (kw & Ew & Lw).
  unfold relation_step, returns.
  rewrite (bind_Ok _ (load_position_run _ _ _ Ew)).
  apply for_each_returns with (P := shape).
  - intro i. apply preserves_shape_axis_step.
  - intros i h' Hi Hsh. apply in_seq in Hi.
    apply axis_step_returns with (n := n) (m := m);
      try (rewrite Hsh; assumption); lia.
Qed.

Lemma walker_step_returns (entry : wref * relations num) (h : heap num) :
  entry_ok (shape h) entry = true -> returns (walker_step entry) h.
Proof.
  unfold entry_ok. intro He.
  destruct (nth_error (shape h) (fst entry)) as [n |] eqn:Hw;
    [| discriminate].
  destruct (lookup_of_shape _ _ _ Hw) as (kw & Ew & Lw).
  unfold walker_step, returns.
  rewrite (bind_Ok _ (load_position_run _ _ _ Ew)).
  apply for_each_returns with (P := shape).
  - intro rel. apply preserves_relation_step. intro i.
    apply preserves_shape_axis_step.
  - intros rel h' Hin Hsh.
    apply relation_step_returns with (n := n); rewrite Hsh; [exact Hw |].
    rewrite forallb_forall in He. apply He. exact Hin.
Qed.

Lemma preserves_shape_walker_step (entry : wref * relations num) :
  preserves shape (walker_step entry).
Proof.
  apply preserves_walker_step. intros rel i _.
  apply preserves_shape_axis_step.
Qed.

Lemma well_formed_shape (self : WalkingSystem num) (h h' : heap num) :
  shape h' = shape h -> well_formed self h' = well_formed self h.
Proof. intro E. unfold well_formed. rewrite E. reflexivity. Qed.

Lemma three_dimensional_shape (self : WalkingSystem num) (h h' : heap num) :
  shape h' = shape h ->
  three_dimensional self h' = three_dimensional self h.
Proof. intro E. unfold three_dimensional. rewrite E. reflexivity. Qed.

Lemma current_state_from (ws : walkers_dict num) (h : heap num) :
  forallb (entry_ok (shape h)) ws = true ->
  forall acc,
    fold_each ws
      (fun (st : state) (entry : wref * relations num) =>
         _ <- load_position (fst entry) ;; ret (st ++ [fst entry]))
      acc h
    = (Ok (acc ++ map fst ws), h).
Proof.
  induction ws as [| entry ws IH]; intros Hwf acc; simpl.
  - rewrite app_nil_r. reflexivity.
  - simpl in Hwf. apply andb_prop in Hwf as [He Hws].
    unfold entry_ok in He.
    destruct (nth_error (shape h) (fst entry)) as [n |] eqn:Hw;
      [| discriminate].
    destruct (lookup_of_shape _ _ _ Hw) as (kw & Ew & _).
    rewrite (bind_Ok _ (bind_Ok _ (load_position_run _ _ _ Ew))).
    unfold ret at 1. rewrite (IH Hws), <- app_assoc. reflexivity.
Qed.

(** [get_current_state] names the position list of every walker. *)
Lemma get_current_state_run (self : WalkingSystem num) (h : heap num) :
  well_formed self h = true ->
  get_current_state self h = (Ok (map fst (walkers self)), h).
Proof.
  intro Hwf. unfold get_current_state.
  rewrite (current_state_from _ _ Hwf). reflexivity.
Qed.

Lemma next_state_run (self : WalkingSystem num) (h : heap num) :
  well_formed self h = true ->
  next_state self h =
  (Ok (map fst (walkers self)), snd (next_state self h)).
Proof.
  intro Hwf.
  assert (Hloop : returns (for_each (walkers self) walker_step) h).
  { apply for_each_returns with (P := shape).
    - apply preserves_shape_walker_step.
    - intros entry h' Hin Hsh. apply walker_step_returns. rewrite Hsh.
      unfold well_formed in Hwf. rewrite forallb_forall in Hwf.
      apply Hwf. exact Hin. }
  destruct (returns_run _ _ Hloop) as [[] E].
  pose proof (preserves_for_each shape (walkers self) walker_step
                preserves_shape_walker_step h) as Hsh.
  set (h1 := snd (for_each (walkers self) walker_step h)) in *.
  unfold next_state. rewrite (bind_Ok _ E).
  rewrite get_current_state_run;
    [reflexivity | rewrite (well_formed_shape _ _ _ Hsh); exact Hwf].
Qed.

Lemma next_state_shape (self : WalkingSystem num) (h : heap num) :
  shape (snd (next_state self h)) = shape h.
Proof. apply preserves_next_state. apply quiet_shape. Qed.

Lemma next_state_well_formed (self : WalkingSystem num) (h : heap num) :
  well_formed self (snd (next_state self h)) = well_formed self h.
Proof. apply well_formed_shape, next_state_shape. Qed.

Lemma next_states_succ (self : WalkingSystem num) (h : heap num) n :
  well_formed self h = true ->
  next_states (S n) self h = next_states n self (snd (next_state self h)).
Proof.
  intro Hwf. simpl. rewrite (bind_Ok _ (next_state_run _ _ Hwf)).
  reflexivity.
Qed.

Lemma next_states_run (self : WalkingSystem num) n :
  forall h, well_formed self h = true ->
    next_states n self h = (Ok tt, snd (next_states n self h)).
Proof.
  induction n as [| n IH]; intros h Hwf.
  - reflexivity.
  - rewrite (next_states_succ _ _ _ Hwf). apply IH.
    rewrite next_state_well_formed. exact Hwf.
Qed.

End Runs.

(** ** Relations that do not move anything *)

Lemma for_each_app {H A} (xs ys : list A) (body : A -> M H unit) h :
  for_each (xs ++ ys) body h =
  bind (for_each xs body) (fun _ => for_each ys body) h.
Proof.
  revert h. induction xs as [| x xs IH]; intro h; simpl.
  - reflexivity.
  - rewrite bind_assoc. apply bind_ext. intros _ h1. apply IH.
Qed.

Lemma for_each_idle {H A} (xs : list A) (body : A -> M H unit) h :
  (forall x, In x xs -> body x h = (Ok tt, h)) ->
  for_each xs body h = (Ok tt, h).
Proof.
  induction xs as [| x xs IH]; intro Hb; simpl.
  - reflexivity.
  - rewrite (bind_Ok _ (Hb x (or_introl eq_refl))).
    apply IH. intros y Hy. apply Hb. right. exact Hy.
Qed.

(** A computation that leaves the heap [h] as it is, and a loop of such
    computations. *)
Lemma fixed_bind {H A B} (c : M H A) (k : A -> M H B) (h : H) :
  snd (c h) = h -> (forall a, snd (k a h) = h) -> snd (bind c k h) = h.
Proof.
  intros Hc Hk. unfold bind.
  destruct (c h) as [[a | e] h1]; simpl in Hc; subst h1; [apply Hk |].
  reflexivity.
Qed.

Lemma fixed_for_each {H A} (xs : list A) (body : A -> M H unit) (h : H) :
  (forall x, In x xs -> snd (body x h) = h) -> snd (for_each xs body h) = h.
Proof.
  induction xs as [| x xs IH]; intro Hb; simpl.
  - reflexivity.
  - apply fixed_bind; [apply Hb; left; reflexivity |].
    intros _. apply IH. intros y Hy. apply Hb. right. exact Hy.
Qed.

Lemma in_combine_nth {A B} (xs : list A) :
  forall (ys : list B) i x y,
    nth_error xs i = Some x -> nth_error ys i = Some y ->
    In (x, y) (combine xs ys).
Proof.
  induction xs as [| x0 xs IH]; intros [| y0 ys] [| i] x y; simpl;
    try discriminate.
  - intros [= ->] [= ->]. left. reflexivity.
  - intros Ex Ey. right. eapply IH; eassumption.
Qed.

Section Neutral.

Context {num : Type} `{Number num}.

Lemma in_facing (self : WalkingSystem num) (h : heap num)
      entry rel kw kr i p q :
  In entry (walkers self) -> In rel (snd entry) ->
  nth_error h (fst entry) = Some kw -> nth_error (position kw) i = Some p ->
  nth_error h (fst rel) = Some kr -> nth_error (position kr) i = Some q ->
  In (p, q) (facing self h).
Proof.
  intros He Hrel Ew Ep Er Eq. unfold facing.
  apply in_flat_map. exists entry. split; [exact He |].
  apply in_flat_map. exists rel. split; [exact Hrel |].
  rewrite Ew, Er. eapply in_combine_nth; eassumption.
Qed.

Lemma axis_step_unmoved (self : WalkingSystem num) (h : heap num)
      entry rel i :
  unmoved_by_zero self h ->
  In entry (walkers self) -> In rel (snd entry) ->
  snd (axis_step (fst entry) (fst rel) nzero i h) = h.
Proof.
  intros Hu He Hrel.
  destruct (axis_step_reads (fst entry) (fst rel) nzero i h)
    as [[e E] | (kw & kr & p & q & Ew & Ep & Er & Eq)].
  - rewrite E. reflexivity.
  - rewrite (axis_step_run _ _ _ _ _ _ _ _ _ Ew Ep Er Eq).
    unfold unmoved_by_zero in Hu. rewrite Forall_forall in Hu.
    pose proof (Hu (p, q) (in_facing self h entry rel kw kr i p q
                             He Hrel Ew Ep Er Eq)) as Hpq.
    simpl in Hpq. rewrite Hpq.
    rewrite (store_coord_same _ _ _ _ _ Ew Ep). reflexivity.
Qed.

Lemma next_state_unmoved (self : WalkingSystem num) (h : heap num) :
  no_interaction self -> unmoved_by_zero self h ->
  snd (next_state self h) = h.
Proof.
  intros Hz Hu. unfold next_state. apply fixed_bind.
  - apply fixed_for_each. intros entry He. unfold walker_step.
    apply fixed_bind; [apply (preserves_load_position (fun x => x)) |].
    intros _. apply fixed_for_each. intros rel Hrel. unfold relation_step.
    apply fixed_bind; [apply (preserves_load_position (fun x => x)) |].
    intro pos. apply fixed_for_each. intros i _.
    rewrite (Hz entry rel He Hrel).
    apply (axis_step_unmoved self h entry rel i Hu He Hrel).
  - intros _. apply (preserves_get_current_state (fun x => x)).
Qed.

(** C5. When every relation coefficient of the system is zero and adding
    [(q - p) * 0] to [p] gives [p] back for the coordinates [p] and [q]
    that face each other in the heap, any number of calls of [next_state]
    leaves the heap, hence the position of every walker, exactly as it
    was; and on a well-formed system each of these calls returns.  The
    proviso holds of every heap in exact arithmetic
    ([unmoved_by_zero_exact]) and of floats whose differences [q - p] are
    finite ([unmoved_by_zero_binary64]). *)
Theorem zero_relations_no_op (self : WalkingSystem num) (h : heap num)
        (n : nat) :
  no_interaction self -> unmoved_by_zero self h ->
  snd (next_states n self h) = h /\
  (well_formed self h = true -> fst (next_states n self h) = Ok tt).
Proof.
  intros Hz Hu. split.
  - induction n as [| n IH]; [reflexivity |]. simpl.
    apply fixed_bind; [apply next_state_unmoved; assumption |].
    intros _. exact IH.
  - intro Hwf. rewrite (next_states_run self n h Hwf). reflexivity.
Qed.

(** A relation of a walker with itself reads and writes the same list:
    every coordinate is written back unchanged when [p + (p - p) * c]
    is [p]. *)
Lemma relation_step_self w (c : num) (h : heap num) :
  unmoved_by_self c w h ->
  forall k, nth_error h w = Some k -> relation_step w (w, c) h = (Ok tt, h).
Proof.
  intros Hu k Ew. unfold unmoved_by_self in Hu. rewrite Ew in Hu.
  rewrite Forall_forall in Hu. unfold relation_step.
  rewrite (bind_Ok _ (load_position_run _ _ _ Ew)). simpl.
  apply for_each_idle. intros i Hi. apply in_seq in Hi.
  destruct (nth_error_lt (position k) i) as [p Ep]; [lia |].
  rewrite (axis_step_run _ _ _ _ _ _ _ _ _ Ew Ep Ew Ep).
  rewrite (Hu p (nth_error_In _ _ Ep)).
  apply (store_coord_same _ _ _ _ _ Ew Ep).
Qed.

Lemma walker_step_self w (c : num) rels1 rels2 (h : heap num) :
  unmoved_by_self c w (snd (for_each rels1 (relation_step w) h)) ->
  walker_step (w, rels1 ++ (w, c) :: rels2) h =
  walker_step (w, rels1 ++ rels2) h.
Proof.
  intro Hu. unfold walker_step. simpl fst. simpl snd.
  destruct (load_position w h) as [[pos | e] h0] eqn:E;
    [| rewrite !(bind_Raise _ E); reflexivity].
  rewrite !(bind_Ok _ E).
  assert (Hh0 : h0 = h).
  { pose proof (preserves_load_position (fun x => x) w h) as Hp.
    rewrite E in Hp. exact Hp. }
  subst h0.
  assert (Hk : exists n, nth_error (shape h) w = Some n).
  { rewrite shape_lookup. revert E. unfold load_position, bind, deref.
    destruct (nth_error h w); simpl; [eauto | discriminate]. }
  destruct Hk as [n Hn].
  rewrite !for_each_app.
  pose proof (preserves_for_each shape rels1 (relation_step w)
                (fun rel => preserves_relation_step shape w rel
                   (fun i => preserves_shape_axis_step w (fst rel)
                                                       (snd rel) i)) h)
    as Hsh.
  destruct (for_each rels1 (relation_step w) h) as [[[] | e] h1] eqn:E1;
    [| rewrite !(bind_Raise _ E1); reflexivity].
  rewrite !(bind_Ok _ E1).
  simpl in Hsh, Hu. rewrite <- Hsh in Hn.
  destruct (lookup_of_shape _ _ _ Hn) as (k & Ek & _).
  simpl for_each at 1.
  rewrite (bind_Ok _ (relation_step_self w c h1 Hu k Ek)). reflexivity.
Qed.

Lemma current_state_keys (ws1 : walkers_dict num) :
  forall (ws2 : walkers_dict num) (acc : state) (h : heap num),
    map fst ws1 = map fst ws2 ->
    fold_each ws1
      (fun (st : state) (entry : wref * relations num) =>
         _ <- load_position (fst entry) ;; ret (st ++ [fst entry]))
      acc h
    = fold_each ws2
        (fun (st : state) (entry : wref * relations num) =>
           _ <- load_position (fst entry) ;; ret (st ++ [fst entry]))
        acc h.
Proof.
  induction ws1 as [| e1 ws1 IH]; intros [| e2 ws2] acc h; simpl;
    try discriminate; [reflexivity |].
  intros [= E1 E2]. rewrite E1. apply bind_ext. intros st h1.
  apply IH. exact E2.
Qed.

(** C8. A relation of a walker with itself, whatever its coefficient [c]
    and wherever it stands among the relations of that walker, does not
    change what [next_state] does, as long as [p + (p - p) * c] is [p] for
    the coordinates [p] the walker has when that relation is reached: the
    call returns (or raises) the same and leaves the same heap as without
    it.  The proviso holds of every heap in exact arithmetic
    ([unmoved_by_self_exact]) and of floats when [c] and the coordinates
    are finite ([unmoved_by_self_binary64]). *)
Theorem self_relation_is_neutral (self self' : WalkingSystem num)
        (w : wref) (c : num) ws1 ws2 rels1 rels2 (h : heap num) :
  walkers self = ws1 ++ (w, rels1 ++ rels2) :: ws2 ->
  walkers self' = ws1 ++ (w, rels1 ++ (w, c) :: rels2) :: ws2 ->
  unmoved_by_self c w (heap_reached ws1 w rels1 h) ->
  next_state self' h = next_state self h.
Proof.
  intros E E' Hu. unfold next_state, get_current_state. rewrite E, E'.
  assert (Hloop :
            for_each (ws1 ++ (w, rels1 ++ (w, c) :: rels2) :: ws2)
                     walker_step h
            = for_each (ws1 ++ (w, rels1 ++ rels2) :: ws2) walker_step h).
  { rewrite !for_each_app.
    destruct (for_each ws1 walker_step h) as [[[] | e] h1] eqn:E1;
      [| rewrite !(bind_Raise _ E1); reflexivity].
    rewrite !(bind_Ok _ E1).
    assert (Hu1 : unmoved_by_self c w
                    (snd (for_each rels1 (relation_step w) h1))).
    { replace h1 with (snd (for_each ws1 walker_step h))
        by (rewrite E1; reflexivity).
      exact Hu. }
    simpl for_each. unfold bind.
    rewrite (walker_step_self w c rels1 rels2 h1 Hu1). reflexivity. }
  apply bind_cong; [exact Hloop |].
  intros _ h1. apply current_state_keys. rewrite !map_app. reflexivity.
Qed.

End Neutral.

(** In exact arithmetic both provisos hold of every heap. *)
Section ExactNeutral.

Context {num : Type} `{ExactNumber num}.

Lemma blend_zero (p q : num) : blend nzero p q = p.
Proof. unfold blend. rewrite nmul_0_r, nadd_0_r. reflexivity. Qed.

Lemma blend_self (c p : num) : blend c p p = p.
Proof. unfold blend. rewrite nsub_diag, nmul_0_l, nadd_0_r. reflexivity. Qed.

Lemma unmoved_by_zero_exact (self : WalkingSystem num) (h : heap num) :
  unmoved_by_zero self h.
Proof.
  unfold unmoved_by_zero. apply Forall_forall. intros [p q] _.
  apply blend_zero.
Qed.

Lemma unmoved_by_self_exact (c : num) (w : wref) (h : heap num) :
  unmoved_by_self c w h.
Proof.
  unfold unmoved_by_self. destruct (nth_error h w) as [k |]; [| exact I].
  apply Forall_forall. intros p _. apply blend_self.
Qed.

End ExactNeutral.

(** ** Binary64: where floats behave as exact numbers do *)

Section Binary64Facts.

Import Stdlib.Floats.PrimFloat Stdlib.Floats.FloatOps.
Import Stdlib.Floats.SpecFloat Stdlib.Floats.FloatAxioms.

Local Open Scope float_scope.

Lemma binary64_ltb_irrefl (x : float) : (x <? x) = false.
Proof.
  rewrite ltb_spec. unfold SFltb.
  destruct (Prim2SF x) as [s | s | | s m e]; simpl.
  - reflexivity.
  - destruct s; reflexivity.
  - reflexivity.
  - rewrite Z.compare_refl, Pos.compare_refl. destruct s; reflexivity.
Qed.

(** A finite float is a zero or a mantissa with an exponent. *)
Lemma finite_cases (x : float) :
  Binary64.finite x = true ->
  (exists s, Prim2SF x = S754_zero s) \/
  (exists s m e, Prim2SF x = S754_finite s m e).
Proof.
  unfold Binary64.finite, is_finite, Prim2SF.
  destruct (is_nan x); [discriminate |].
  destruct (is_zero x); [intros _; left; eauto |].
  destruct (is_infinity x); [discriminate |]. intros _.
  destruct (Z.frexp x) as [r ex].
  destruct (shr_fexp prec emax (Uint63Axioms.to_Z (normfr_mantissa r))
                     (ex - prec) loc_Exact) as [shr e'].
  destruct (shr_m shr); [left | right | left]; eauto.
Qed.

Lemma zero_sign (p : float) s :
  Prim2SF p = S754_zero s -> Binary64.negative_zero p = false -> s = false.
Proof.
  unfold Binary64.negative_zero, Prim2SF.
  destruct (is_nan p); [discriminate |].
  destruct (is_zero p).
  - intros [= <-]. simpl. auto.
  - destruct (is_infinity p); [discriminate |].
    destruct (Z.frexp p) as [r ex].
    destruct (shr_fexp _ _ _ _ _) as [shr e'].
    destruct (shr_m shr); try discriminate; intros [= <-]; reflexivity.
Qed.

(** [p + (q - p) * 0.0] is [p] when the difference is finite, the
    negative zero apart, which comes back as the positive one. *)
Lemma blend_zero_finite (p q : float) :
  Binary64.finite (q - p) = true -> Binary64.negative_zero p = false ->
  blend nzero p q = p.
Proof.
  intros Hf Hz. change (p + (q - p) * 0 = p). apply Prim2SF_inj.
  rewrite add_spec, mul_spec.
  change (Prim2SF 0) with (S754_zero false).
  assert (Hm : exists s,
             SF64mul (Prim2SF (q - p)) (S754_zero false) = S754_zero s).
  { destruct (finite_cases _ Hf) as [(s & ->) | (s & m & e & ->)];
      simpl; eauto. }
  destruct Hm as [s ->].
  unfold SF64add, SFadd.
  destruct (Prim2SF p) as [sp | sp | | sp mp ep] eqn:Ep; try reflexivity.
  rewrite (zero_sign p sp Ep Hz). destruct s; reflexivity.
Qed.

(** [p + (p - p) * c] is [p] when [p] and [c] are finite, the negative
    zero apart. *)
Lemma blend_self_finite (c p : float) :
  Binary64.finite p = true -> Binary64.finite c = true ->
  Binary64.negative_zero p = false ->
  blend c p p = p.
Proof.
  intros Hp Hc Hz. change (p + (p - p) * c = p). apply Prim2SF_inj.
  rewrite add_spec, mul_spec, sub_spec.
  assert (Hs : SF64sub (Prim2SF p) (Prim2SF p) = S754_zero false).
  { destruct (finite_cases _ Hp) as [(s & E) | (s & m & e & E)];
      rewrite E; unfold SF64sub, SFsub.
    - destruct s; reflexivity.
    - rewrite Z.sub_diag. reflexivity. }
  rewrite Hs.
  assert (Hm : exists s,
             SF64mul (S754_zero false) (Prim2SF c) = S754_zero s).
  { destruct (finite_cases _ Hc) as [(s & ->) | (s & m & e & ->)];
      simpl; eauto. }
  destruct Hm as [s ->].
  unfold SF64add, SFadd.
  destruct (Prim2SF p) as [sp | sp | | sp mp ep] eqn:Ep; try reflexivity.
  rewrite (zero_sign p sp Ep Hz). destruct s; reflexivity.
Qed.

Lemma unmoved_by_zero_binary64 (self : WalkingSystem float)
      (h : heap float) :
  Forall (fun pq => Binary64.finite (snd pq - fst pq) = true /\
                    Binary64.negative_zero (fst pq) = false)
         (facing self h) ->
  unmoved_by_zero self h.
Proof.
  unfold unmoved_by_zero. apply Forall_impl. intros [p q] [Hf Hz].
  apply blend_zero_finite; assumption.
Qed.

Lemma unmoved_by_self_binary64 (c : float) (w : wref) (h : heap float) :
  Binary64.finite c = true ->
  (forall k, nth_error h w = Some k ->
     Forall (fun p => Binary64.finite p = true /\
                      Binary64.negative_zero p = false) (position k)) ->
  unmoved_by_self c w h.
Proof.
  intros Hc Hk. unfold unmoved_by_self.
  destruct (nth_error h w) as [k |]; [| exact I].
  specialize (Hk k eq_refl). revert Hk. apply Forall_impl.
  intros p [Hp Hz]. apply blend_self_finite; assumption.
Qed.

(** The difference of two 8-bit channels is the same taken on the
    integers and converted, as Python does, or taken on their
    conversions, as [Colormaps.channel] has it. *)
Lemma byte_differences_exact :
  forallb
    (fun s =>
       forallb
         (fun e =>
            Leibniz.eqb
              (Binary64.float_of_int (Z.of_nat e)
               - Binary64.float_of_int (Z.of_nat s))
              (Binary64.float_of_int (Z.of_nat e - Z.of_nat s)))
         (seq 0 256))
    (seq 0 256)
  = true.
Proof. vm_compute. reflexivity. Qed.

(** Floats round: [lin_interp(0.9, 0, 0.9, 10, 47)] is not 47 but the
    float next to it. *)
Example binary64_interpolation_rounds :
  Utils.lin_interp FloatSamples.nine_tenths 0 FloatSamples.nine_tenths 10 47
  = Ok FloatSamples.above_47.
Proof. vm_compute. reflexivity. Qed.

End Binary64Facts.

#[export] Instance StrictlyOrdered_float : StrictlyOrdered PrimFloat.float :=
  @Build_StrictlyOrdered PrimFloat.float Binary64.Number_float
                         Binary64.Ordered_float binary64_ltb_irrefl.

(** ** The [states] generator *)

Section Generator.

Context {num : Type} `{Number num}.

Lemma for_states_created {B} fuel (self : WalkingSystem num)
      (body : B -> state -> M (heap num) B) acc h :
  for_states (S fuel) self Created body acc h =
  from_head fuel self (range (iterations self)) body acc h.
Proof. reflexivity. Qed.

Lemma for_states_suspended {B} fuel (self : WalkingSystem num) rest
      (body : B -> state -> M (heap num) B) acc h :
  for_states (S fuel) self (Suspended rest) body acc h =
  bind (next_state self) (fun _ => from_head fuel self rest body acc) h.
Proof. simpl. rewrite bind_assoc. reflexivity. Qed.

Lemma from_head_done {B} fuel (self : WalkingSystem num)
      (body : B -> state -> M (heap num) B) acc h :
  from_head fuel self [] body acc h = (Ok acc, h).
Proof. reflexivity. Qed.

(** At a yield the loop body runs on the state just read. *)
Lemma from_head_yield {B} fuel (self : WalkingSystem num) x rest
      (body : B -> state -> M (heap num) B) acc h :
  well_formed self h = true ->
  from_head fuel self (x :: rest) body acc h =
  bind (body acc (map fst (walkers self)))
       (fun acc' => for_states fuel self (Suspended rest) body acc') h.
Proof.
  intro Hwf. unfold from_head. simpl loop_head. rewrite bind_assoc.
  rewrite (bind_Ok _ (get_current_state_run _ _ Hwf)). reflexivity.
Qed.

Lemma snapshot_from (ws : walkers_dict num) (h : heap num) :
  forallb (entry_ok (shape h)) ws = true ->
  forall acc,
    fold_each (map fst ws)
      (fun acc w => pos <- load_position w ;; ret (acc ++ [pos])) acc h
    = (Ok (acc ++
           map (fun entry : wref * relations num =>
                  match nth_error h (fst entry) with
                  | Some k => position k
                  | None => []
                  end) ws), h).
Proof.
  induction ws as [| entry ws IH]; intros Hwf acc; simpl.
  - rewrite app_nil_r. reflexivity.
  - simpl in Hwf. apply andb_prop in Hwf as [He Hws].
    unfold entry_ok in He.
    destruct (nth_error (shape h) (fst entry)) as [n |] eqn:Hw;
      [| discriminate].
    destruct (lookup_of_shape _ _ _ Hw) as (kw & Ew & _).
    rewrite (bind_Ok _ (bind_Ok _ (load_position_run _ _ _ Ew))).
    unfold ret at 1. rewrite (IH Hws), <- app_assoc, Ew. reflexivity.
Qed.

Lemma snapshot_run (self : WalkingSystem num) (h : heap num) :
  well_formed self h = true ->
  snapshot (map fst (walkers self)) h = (Ok (positions self h), h).
Proof.
  intro Hwf. unfold snapshot. rewrite (snapshot_from _ _ Hwf). reflexivity.
Qed.

Lemma collect_from_head (self : WalkingSystem num) :
  forall rest fuel acc h,
    length rest <= fuel -> well_formed self h = true ->
    exists snaps,
      from_head fuel self rest copy_state acc h
      = (Ok (acc ++ snaps), snd (next_states (length rest) self h)) /\
      length snaps = length rest /\
      forall k, k < length rest ->
        nth_error snaps k
        = Some (positions self (snd (next_states k self h))).
Proof.
  induction rest as [| x rest IH]; intros fuel acc h Hf Hwf.
  - exists []. rewrite from_head_done, app_nil_r. simpl.
    repeat split. intros k Hk. lia.
  - destruct fuel as [| fuel]; [simpl in Hf; lia |].
    simpl in Hf. apply le_S_n in Hf.
    rewrite (from_head_yield _ _ _ _ _ _ _ Hwf).
    unfold copy_state at 1. rewrite bind_assoc.
    rewrite (bind_Ok _ (snapshot_run _ _ Hwf)).
    unfold bind at 1, ret at 1.
    rewrite for_states_suspended.
    rewrite (bind_Ok _ (next_state_run _ _ Hwf)).
    destruct (IH fuel (acc ++ [positions self h])
                (snd (next_state self h)) Hf) as (snaps & E & L & N).
    { rewrite next_state_well_formed. exact Hwf. }
    exists (positions self h :: snaps).
    rewrite E, <- app_assoc. simpl length.
    rewrite (next_states_succ _ _ _ Hwf).
    repeat split; [congruence |].
    intros [| k] Hk; [reflexivity |].
    rewrite (next_states_succ _ _ _ Hwf). simpl. apply N. lia.
Qed.

(** C2. Run to its end on a well-formed system, the [states] generator
    yields [iterations] states (none when [iterations] is negative), the
    contents of the [k]-th yielded state being, when it is yielded, the
    positions after exactly [k] calls of [next_state]: the first one shows
    the initial positions, one advancing step separates two consecutive
    yields, and one more follows the last yield, so that the system ends
    [iterations] steps away from where it started. *)
Theorem states_yields_each_iteration (self : WalkingSystem num)
        (h : heap num) :
  well_formed self h = true ->
  exists snaps,
    collect_states self h
    = (Ok snaps, snd (next_states (Z.to_nat (iterations self)) self h)) /\
    length snaps = Z.to_nat (iterations self) /\
    (0 <= iterations self -> Z.of_nat (length snaps) = iterations self)%Z /\
    (1 <= iterations self -> hd_error snaps = Some (positions self h))%Z /\
    forall k, k < length snaps ->
      nth_error snaps k = Some (positions self (snd (next_states k self h))).
Proof.
  intro Hwf. unfold collect_states. rewrite for_states_created.
  destruct (collect_from_head self (range (iterations self))
              (length (range (iterations self))) [] h (le_n _) Hwf)
    as (snaps & E & L & N).
  unfold range in *. rewrite length_seq in *.
  exists snaps. change ([] ++ snaps) with snaps in E.
  repeat split.
  - exact E.
  - exact L.
  - intro H0. rewrite L. apply Z2Nat.id. exact H0.
  - intro H1. specialize (N 0).
    destruct snaps as [| s0 snaps]; simpl in *; [lia |].
    apply N. lia.
  - intros k Hk. apply N. lia.
Qed.

End Generator.

(** ** compute_3d_vectrices *)

Lemma modify_nth_Forall {A} (P : A -> Prop) (f : A -> result A) (xs : list A) :
  (forall x y, P x -> f x = Ok y -> P y) ->
  forall i ys, Forall P xs -> modify_nth i f xs = Ok ys -> Forall P ys.
Proof.
  intro Hf. induction xs as [| x xs IH]; intros [| i] ys HP; simpl;
    try discriminate.
  - destruct (f x) as [y |] eqn:E; simpl; [| discriminate].
    intros [= <-]. inversion HP; subst. constructor; eauto.
  - destruct (modify_nth i f xs) as [zs |] eqn:E; simpl; [| discriminate].
    intros [= <-]. inversion HP; subst. constructor; eauto.
Qed.

Lemma pymod_small a b : a < b -> pymod a b = Ok a.
Proof.
  intro Hab. unfold pymod.
  destruct (Nat.eqb_spec b 0) as [-> | _]; [lia |].
  rewrite (Nat.mod_small a b Hab). reflexivity.
Qed.

Section Vectrices.

Context {num : Type} `{Number num}.

Lemma append_to_three j (coord : num) axes :
  j < 3 -> length axes = 3 ->
  exists axes', append_to j coord axes = Ok axes' /\ length axes' = 3.
Proof.
  intros Hj L. destruct (nth_error_lt axes j) as [axis E]; [lia |].
  destruct (modify_nth_Ok (fun axis => Ok (axis ++ [coord])) axes j axis
              (axis ++ [coord]) E eq_refl) as [axes' E'].
  exists axes'. split; [exact E' |].
  rewrite (modify_nth_length _ _ _ _ E'). exact L.
Qed.

Lemma record_coord_run nw i crvs ring j (coord : num) :
  i < nw -> j < 3 -> curves_ok nw crvs ->
  exists crvs',
    record_coord nw i (crvs, ring) (j, coord)
    = rbind (append_to j coord ring) (fun ring' => Ok (crvs', ring')) /\
    curves_ok nw crvs'.
Proof.
  intros Hi Hj [L F]. unfold record_coord. cbn [fst snd].
  rewrite (pymod_small i nw Hi), (pymod_small j 3 Hj). cbn [rbind].
  destruct (nth_error_lt crvs i) as [c0 E0]; [lia |].
  assert (L0 : length c0 = 3).
  { rewrite Forall_forall in F. apply F. eapply nth_error_In. exact E0. }
  destruct (append_to_three j coord c0 Hj L0) as (c1 & E1 & L1).
  destruct (modify_nth_Ok (append_to j coord) crvs i c0 c1 E0 E1)
    as [crvs' E'].
  exists crvs'. rewrite E'. split; [reflexivity |]. split.
  - rewrite (modify_nth_length _ _ _ _ E'). exact L.
  - apply (modify_nth_Forall (fun c => length c = 3) (append_to j coord) crvs)
      with (i := i); auto.
    intros x y Lx Ex. unfold append_to in Ex.
    rewrite (modify_nth_length _ _ _ _ Ex). exact Lx.
Qed.

(** One walker with three coordinates adds one coordinate to each axis
    of the ring. *)
Lemma record_position nw i crvs a b c (x y z : num) :
  i < nw -> curves_ok nw crvs ->
  exists crvs',
    rfold (record_coord nw i) (enumerate [x; y; z]) (crvs, [a; b; c])
    = Ok (crvs', [a ++ [x]; b ++ [y]; c ++ [z]]) /\
    curves_ok nw crvs'.
Proof.
  intros Hi Hc. unfold enumerate. simpl combine. simpl rfold.
  destruct (record_coord_run nw i crvs [a; b; c] 0 x Hi ltac:(lia) Hc)
    as (c1 & E1 & Hc1).
  destruct (record_coord_run nw i c1 [a ++ [x]; b; c] 1 y Hi ltac:(lia) Hc1)
    as (c2 & E2 & Hc2).
  destruct (record_coord_run nw i c2 [a ++ [x]; b ++ [y]; c] 2 z Hi
              ltac:(lia) Hc2)
    as (c3 & E3 & Hc3).
  unfold curvesT, ringT in *.
  exists c3. split; [| exact Hc3].
  rewrite E1. cbn [rbind append_to modify_nth].
  rewrite E2. cbn [rbind append_to modify_nth].
  rewrite E3. reflexivity.
Qed.

Lemma record_walkers nw (h : heap num) :
  forall (ws : walkers_dict num) i0 crvs a b c,
    forallb
      (fun entry : wref * relations num =>
         match nth_error (shape h) (fst entry) with
         | Some n => n =? 3
         | None => false
         end) ws = true ->
    i0 + length ws <= nw -> curves_ok nw crvs ->
    exists crvs' a' b' c',
      fold_each (combine (seq i0 (length ws)) (map fst ws))
                (record_walker nw) (crvs, [a; b; c]) h
      = (Ok (crvs', [a'; b'; c']), h) /\
      curves_ok nw crvs' /\
      length a' = length a + length ws /\
      length b' = length b + length ws /\
      length c' = length c + length ws.
Proof.
  induction ws as [| entry ws IH]; intros i0 crvs a b c H3 Hi Hc.
  - exists crvs, a, b, c. simpl.
    split; [reflexivity |]. split; [exact Hc |]. lia.
  - simpl in H3. apply andb_prop in H3 as [He Hws].
    destruct (nth_error (shape h) (fst entry)) as [n |] eqn:Hw;
      [| discriminate].
    apply Nat.eqb_eq in He. subst n.
    destruct (lookup_of_shape _ _ _ Hw) as (k & Ek & Lk).
    destruct (position k) as [| x [| y [| z [| ? ?]]]] eqn:Epos;
      try discriminate Lk.
    simpl length in *. simpl map. simpl seq. simpl combine.
    simpl fold_each. unfold record_walker at 1. simpl fst. simpl snd.
    rewrite bind_assoc, (bind_Ok _ (load_position_run _ _ _ Ek)), Epos.
    destruct (record_position nw i0 crvs a b c x y z ltac:(lia) Hc)
      as (c1 & E1 & Hc1).
    unfold lift, bind at 1. rewrite E1.
    destruct (IH (S i0) c1 (a ++ [x]) (b ++ [y]) (c ++ [z]) Hws
                ltac:(lia) Hc1) as (c2 & a' & b' & c' & E & Hc2 & La & Lb & Lc).
    exists c2, a', b', c'. rewrite E. rewrite length_app in La, Lb, Lc.
    simpl in La, Lb, Lc.
    split; [reflexivity |]. split; [exact Hc2 |]. lia.
Qed.

Lemma closed_axis_intro nw (x : num) axis :
  length (x :: axis) = nw -> closed_axis nw ((x :: axis) ++ [x]).
Proof.
  intro L. split.
  - rewrite length_app, L. reflexivity.
  - exists x. split; [reflexivity |].
    unfold getlast. rewrite rev_app_distr. reflexivity.
Qed.

Lemma close_ring_run nw (a b c : list num) :
  1 <= nw -> length a = nw -> length b = nw -> length c = nw ->
  exists ring, close_ring [a; b; c] = Ok ring /\ closed_ring nw ring.
Proof.
  intros Hnw La Lb Lc.
  destruct a as [| x a]; [simpl in La; lia |].
  destruct b as [| y b]; [simpl in Lb; lia |].
  destruct c as [| z c]; [simpl in Lc; lia |].
  exists [(x :: a) ++ [x]; (y :: b) ++ [y]; (z :: c) ++ [z]].
  split; [reflexivity |]. split; [reflexivity |].
  repeat (apply Forall_cons; [apply closed_axis_intro; assumption |]).
  apply Forall_nil.
Qed.

Lemma record_state_run (self : WalkingSystem num) (h : heap num) crvs rngs :
  walkers self <> [] ->
  three_dimensional self h = true ->
  curves_ok (length (walkers self)) crvs ->
  exists crvs' ring,
    record_state self (crvs, rngs) (map fst (walkers self)) h
    = (Ok (crvs', rngs ++ [ring]), h) /\
    curves_ok (length (walkers self)) crvs' /\
    closed_ring (length (walkers self)) ring.
Proof.
  intros Hne H3 Hc. unfold record_state, enumerate. simpl fst. simpl snd.
  rewrite length_map. change (repeat [] 3) with [@nil num; []; []].
  destruct (record_walkers (length (walkers self)) h (walkers self) 0 crvs
              [] [] [] H3 ltac:(lia) Hc)
    as (c1 & a & b & c & E & Hc1 & La & Lb & Lc).
  rewrite (bind_Ok _ E). simpl fst. simpl snd.
  destruct (close_ring_run (length (walkers self)) a b c) as (ring & Er & Hr);
    auto.
  { destruct (walkers self); [congruence | simpl; lia]. }
  exists c1, ring. unfold lift, bind, ret. rewrite Er. auto.
Qed.

Lemma compute_from_head (self : WalkingSystem num) :
  walkers self <> [] ->
  forall rest fuel crvs rngs h,
    length rest <= fuel ->
    well_formed self h = true -> three_dimensional self h = true ->
    curves_ok (length (walkers self)) crvs ->
    Forall (closed_ring (length (walkers self))) rngs ->
    exists crvs' rngs',
      from_head fuel self rest (record_state self) (crvs, rngs) h
      = (Ok (crvs', rngs'), snd (next_states (length rest) self h)) /\
      curves_ok (length (walkers self)) crvs' /\
      Forall (closed_ring (length (walkers self))) rngs' /\
      length rngs' = length rngs + length rest.
Proof.
  intro Hne.
  induction rest as [| x rest IH]; intros fuel crvs rngs h Hf Hwf H3 Hc Hr.
  - exists crvs, rngs. rewrite from_head_done. simpl. auto.
  - destruct fuel as [| fuel]; [simpl in Hf; lia |].
    simpl in Hf. apply le_S_n in Hf.
    rewrite (from_head_yield _ _ _ _ _ _ _ Hwf).
    destruct (record_state_run self h crvs rngs Hne H3 Hc)
      as (c1 & ring & E1 & Hc1 & Hring).
    rewrite (bind_Ok _ E1), for_states_suspended.
    rewrite (bind_Ok _ (next_state_run _ _ Hwf)).
    destruct (IH fuel c1 (rngs ++ [ring]) (snd (next_state self h)) Hf)
      as (c2 & rngs' & E & Hc2 & Hr2 & L); auto.
    { rewrite next_state_well_formed. exact Hwf. }
    { rewrite (three_dimensional_shape _ _ _ (next_state_shape self h)).
      exact H3. }
    { apply Forall_app. split; [exact Hr | constructor; auto]. }
    exists c2, rngs'. rewrite E. simpl length.
    rewrite (next_states_succ _ _ _ Hwf).
    rewrite length_app in L. simpl in *.
    split; [reflexivity |]. split; [exact Hc2 |]. split; [exact Hr2 | lia].
Qed.

Lemma initial_curves_ok nw : curves_ok nw (repeat (repeat (@nil num) 3) nw).
Proof.
  split; [apply repeat_length |].
  apply Forall_forall. intros c Hc. apply repeat_spec in Hc. subst c.
  reflexivity.
Qed.

(** On a well-formed system of at least one walker, all of them with
    three coordinates, [compute_3d_vectrices] returns, stores what it
    returns, and every ring is closed. *)
Lemma compute_3d_vectrices_run (self : WalkingSystem num) (h : heap num) :
  walkers self <> [] ->
  well_formed self h = true -> three_dimensional self h = true ->
  exists crvs rngs,
    compute_3d_vectrices self h
    = (Ok (set_rings (set_curves self (Some crvs)) (Some rngs),
           (crvs, rngs)),
       snd (next_states (Z.to_nat (iterations self)) self h)) /\
    curves_ok (length (walkers self)) crvs /\
    Forall (closed_ring (length (walkers self))) rngs /\
    length rngs = Z.to_nat (iterations self).
Proof.
  intros Hne Hwf H3. unfold compute_3d_vectrices.
  destruct (compute_from_head self Hne (range (iterations self))
              (length (range (iterations self)))
              (repeat (repeat [] 3) (length (walkers self))) [] h
              (le_n _) Hwf H3 (initial_curves_ok _) (Forall_nil _))
    as (crvs & rngs & E & Hc & Hr & L).
  rewrite <- for_states_created in E.
  exists crvs, rngs. rewrite (bind_Ok _ E).
  unfold range in *. rewrite length_seq in *. simpl in L. auto.
Qed.

End Vectrices.

Section VectricesTheorems.

Context {num : Type} `{Number num}.

(** C3. On a system of at least one walker, all walkers having three
    coordinates, and whatever the iteration count,
    [compute_3d_vectrices] returns one ring per iteration, and every ring
    has three axes, each of [len(self.walkers) + 1] coordinates whose
    last one equals the first. *)
Theorem rings_are_closed (self : WalkingSystem num) (h : heap num) :
  walkers self <> [] ->
  well_formed self h = true -> three_dimensional self h = true ->
  exists self' crvs rngs h',
    compute_3d_vectrices self h = (Ok (self', (crvs, rngs)), h') /\
    length rngs = Z.to_nat (iterations self) /\
    forall ring, In ring rngs ->
      length ring = 3 /\
      forall axis, In axis ring ->
        length axis = length (walkers self) + 1 /\
        exists c, getitem axis 0 = Ok c /\ getlast axis = Ok c.
Proof.
  intros Hne Hwf H3.
  destruct (compute_3d_vectrices_run self h Hne Hwf H3)
    as (crvs & rngs & E & _ & Hr & L).
  exists (set_rings (set_curves self (Some crvs)) (Some rngs)), crvs, rngs,
    (snd (next_states (Z.to_nat (iterations self)) self h)).
  split; [exact E |]. split; [exact L |].
  intros ring Hring. rewrite Forall_forall in Hr.
  destruct (Hr ring Hring) as [L3 Hax]. split; [exact L3 |].
  intros axis Haxis. rewrite Forall_forall in Hax. apply Hax. exact Haxis.
Qed.

Lemma range_positive n : (1 <= n)%Z -> exists rest, range n = 0 :: rest.
Proof.
  intro Hn. unfold range.
  destruct (Z.to_nat n) as [| m] eqn:E; [lia |].
  simpl. eauto.
Qed.

(** C9. With at least one iteration to run, [compute_3d_vectrices] on a
    system without walkers raises IndexError at [ring[i][0]] and leaves
    the heap alone; on a well-formed system of three-dimensional walkers
    it returns as soon as there is one walker. *)
Theorem ring_closing_needs_a_walker (self : WalkingSystem num)
        (h : heap num) :
  (1 <= iterations self)%Z ->
  (walkers self = [] ->
   compute_3d_vectrices self h = (Raise IndexError, h)) /\
  (walkers self <> [] ->
   well_formed self h = true -> three_dimensional self h = true ->
   returns (compute_3d_vectrices self) h).
Proof.
  intro Hit. split.
  - intro Hws. unfold compute_3d_vectrices.
    destruct (range_positive _ Hit) as [rest Hrest].
    assert (Hwf : well_formed self h = true)
      by (unfold well_formed; rewrite Hws; reflexivity).
    assert (E : for_states (S (length (range (iterations self)))) self
                  Created (record_state self)
                  (repeat (repeat [] 3) (length (walkers self)), []) h
                = (Raise IndexError, h)).
    { rewrite for_states_created, Hrest.
      rewrite (from_head_yield _ _ _ _ _ _ _ Hwf), Hws. reflexivity. }
    rewrite (bind_Raise _ E). reflexivity.
  - intros Hne Hwf H3.
    destruct (compute_3d_vectrices_run self h Hne Hwf H3)
      as (crvs & rngs & E & _).
    unfold returns. rewrite E. simpl. eauto.
Qed.

(** C6. Read on a system that has just been created, [curves] and
    [rings] raise ValueError; once [compute_3d_vectrices] has returned,
    they return what it returned. *)
Theorem curves_and_rings_need_compute
        (wlkrs : walkers_dict num) (iters : Z) (cm : Colormaps.ColorMap)
        (self : WalkingSystem num) (h : heap num) :
  (curves (WalkingSystem_init wlkrs iters cm) = Raise ValueError /\
   rings (WalkingSystem_init wlkrs iters cm) = Raise ValueError) /\
  (forall self' crvs rngs h',
      compute_3d_vectrices self h = (Ok (self', (crvs, rngs)), h') ->
      curves self' = Ok crvs /\ rings self' = Ok rngs).
Proof.
  split; [split; reflexivity |].
  intros self' crvs rngs h'. unfold compute_3d_vectrices, bind, ret.
  destruct (for_states _ self (states self) (record_state self) _ h)
    as [[[c r] | e] h1]; [| discriminate].
  intros [= <- <- <- _]. split; reflexivity.
Qed.

End VectricesTheorems.

(** ** What a relation writes *)

Lemma skipn_cons_nth {A} (l : list A) :
  forall k x, nth_error l k = Some x -> skipn k l = x :: skipn (S k) l.
Proof.
  induction l as [| y l IH]; intros [| k] x; simpl; try discriminate.
  - intros [= ->]. reflexivity.
  - intro E. rewrite (IH _ _ E). reflexivity.
Qed.

Section Moves.

Context {num : Type} `{Number num}.

Lemma with_position_twice (k : Walker num) p1 p2 :
  with_position (with_position k p1) p2 = with_position k p2.
Proof. reflexivity. Qed.

(** The loop over the axes, from index [length done] on: the coordinates
    still to do are blended one by one with those of the related
    walker, which is another object and does not move meanwhile. *)
Lemma axis_loop w r (c : num) kr :
  w <> r ->
  forall todo done (h : heap num) kw,
    nth_error h w = Some kw -> nth_error h r = Some kr ->
    position kw = done ++ todo ->
    length done + length todo <= length (position kr) ->
    for_each (seq (length done) (length todo)) (axis_step w r c) h
    = (Ok tt,
       heap_set w
         (with_position kw
            (done ++ move c todo (skipn (length done) (position kr)))) h).
Proof.
  intro Hne. induction todo as [| p todo IH]; intros done h kw Ew Er Epos L.
  - simpl. unfold move. simpl. rewrite <- Epos, with_position_same.
    rewrite (heap_set_same _ _ _ Ew). reflexivity.
  - simpl length in *. simpl seq. simpl for_each.
    destruct (nth_error_lt (position kr) (length done)) as [q Eq]; [lia |].
    assert (Ep : nth_error (position kw) (length done) = Some p)
      by (rewrite Epos; apply nth_error_middle).
    assert (Es : setitem (position kw) (length done) (blend c p q)
                 = Ok (done ++ blend c p q :: todo)).
    { rewrite Epos. unfold setitem. apply modify_nth_app. reflexivity. }
    set (kw1 := with_position kw (done ++ blend c p q :: todo)).
    assert (Estep : axis_step w r c (length done) h
                    = (Ok tt, heap_set w kw1 h)).
    { rewrite (axis_step_run _ _ _ _ _ _ _ _ _ Ew Ep Er Eq).
      apply (store_coord_run _ _ _ _ _ _ Ew Es). }
    rewrite (bind_Ok _ Estep).
    specialize (IH (done ++ [blend c p q]) (heap_set w kw1 h) kw1).
    rewrite length_app in IH. simpl length in IH.
    replace (length done + 1) with (S (length done)) in IH by lia.
    rewrite IH.
    + rewrite heap_set_twice. unfold kw1. rewrite with_position_twice.
      rewrite (skipn_cons_nth _ _ _ Eq). unfold move. simpl.
      rewrite <- app_assoc. reflexivity.
    + apply heap_set_lookup with (k0 := kw). exact Ew.
    + rewrite heap_set_other; [exact Er | exact Hne].
    + unfold kw1. simpl. rewrite <- app_assoc. reflexivity.
    + lia.
Qed.

Lemma relation_step_exact w r (c : num) (h : heap num) kw kr :
  w <> r -> nth_error h w = Some kw -> nth_error h r = Some kr ->
  length (position kw) <= length (position kr) ->
  relation_step w (r, c) h
  = (Ok tt,
     heap_set w (with_position kw (move c (position kw) (position kr))) h).
Proof.
  intros Hne Ew Er L. unfold relation_step.
  rewrite (bind_Ok _ (load_position_run _ _ _ Ew)). simpl fst. simpl snd.
  apply (axis_loop w r c kr Hne (position kw) [] h kw Ew Er eq_refl L).
Qed.

Lemma move_length (c : num) ps qs :
  length ps <= length qs -> length (move c ps qs) = length ps.
Proof.
  intro L. unfold move. rewrite length_map, length_combine. lia.
Qed.

(** One call of [next_state] on two walkers related to each other only:
    the first one moves towards the second, then the second one moves
    towards the place the first one has just reached. *)
Lemma next_state_pair (self : WalkingSystem num) (ra rb : num)
      (ka kb : Walker num) :
  walkers self = [(0, [(1, ra)]); (1, [(0, rb)])] ->
  length (position ka) = length (position kb) ->
  next_state self [ka; kb]
  = (Ok [0; 1],
     [with_position ka (move ra (position ka) (position kb));
      with_position kb
        (move rb (position kb) (move ra (position ka) (position kb)))]).
Proof.
  intros Ews L.
  set (ka1 := with_position ka (move ra (position ka) (position kb))).
  set (kb1 := with_position kb (move rb (position kb) (position ka1))).
  assert (W1 : walker_step (0, [(1, ra)]) [ka; kb] = (Ok tt, [ka1; kb])).
  { unfold walker_step. simpl fst. simpl snd.
    rewrite (bind_Ok _ (load_position_run 0 [ka; kb] ka eq_refl)).
    simpl for_each.
    rewrite (bind_Ok _ (relation_step_exact 0 1 ra [ka; kb] ka kb
                          ltac:(lia) eq_refl eq_refl ltac:(lia))).
    reflexivity. }
  assert (W2 : walker_step (1, [(0, rb)]) [ka1; kb] = (Ok tt, [ka1; kb1])).
  { unfold walker_step. simpl fst. simpl snd.
    rewrite (bind_Ok _ (load_position_run 1 [ka1; kb] kb eq_refl)).
    simpl for_each.
    assert (L1 : length (position kb) <= length (position ka1))
      by (unfold ka1; simpl; rewrite move_length; lia).
    rewrite (bind_Ok _ (relation_step_exact 1 0 rb [ka1; kb] kb ka1
                          ltac:(lia) eq_refl eq_refl L1)).
    reflexivity. }
  assert (Eloop : for_each (walkers self) walker_step [ka; kb]
                  = (Ok tt, [ka1; kb1])).
  { rewrite Ews. simpl for_each.
    rewrite (bind_Ok _ W1), (bind_Ok _ W2). reflexivity. }
  unfold next_state. rewrite (bind_Ok _ Eloop).
  unfold get_current_state. rewrite Ews. reflexivity.
Qed.

End Moves.

(** ** The two walkers of the concrete scenario *)

Section Halfway.

Import Samples.
Open Scope R_scope.

Lemma halfway_A_first_run :
  next_state halfway_A_first halfway_heap
  = (Ok [0%nat; 1%nat],
     [{| start_position := [0; 0; 0];
         position := [0 + (10 - 0) * half; 0 + (0 - 0) * half;
                      0 + (0 - 0) * half] |};
      {| start_position := [10; 0; 0];
         position := [10 + (0 + (10 - 0) * half - 10) * half;
                      0 + (0 + (0 - 0) * half - 0) * half;
                      0 + (0 + (0 - 0) * half - 0) * half] |}]).
Proof. reflexivity. Qed.

Lemma halfway_B_first_run :
  next_state halfway_B_first halfway_heap
  = (Ok [1%nat; 0%nat],
     [{| start_position := [0; 0; 0];
         position := [0 + (10 + (0 - 10) * half - 0) * half;
                      0 + (0 + (0 - 0) * half - 0) * half;
                      0 + (0 + (0 - 0) * half - 0) * half] |};
      {| start_position := [10; 0; 0];
         position := [10 + (0 - 10) * half; 0 + (0 - 0) * half;
                      0 + (0 - 0) * half] |}]).
Proof. reflexivity. Qed.

(** C1, as the specification has it, fails: after one call of
    [next_state] on A at (0,0,0) and B at (10,0,0) with both coefficients
    0.5, A coming first, the positions are not (5,0,0) and (5,0,0). *)
Lemma halfway_is_not_simultaneous :
  map (@position R) (snd (next_state halfway_A_first halfway_heap))
  <> [[5; 0; 0]; [5; 0; 0]].
Proof.
  rewrite halfway_A_first_run. simpl. unfold half. intro E.
  injection E as _ _ _ E _ _. lra.
Qed.

(** C1, amended. One call of [next_state] on A at (0,0,0) and B at
    (10,0,0) with both coefficients 0.5 moves the walker that comes first
    in the dict to (5,0,0) and then the other one halfway towards that new
    place: A ends at (5,0,0) and B at (7.5,0,0) when A comes first, A at
    (2.5,0,0) and B at (5,0,0) when B does. *)
Theorem halfway_is_sequential :
  map (@position R) (snd (next_state halfway_A_first halfway_heap))
  = [[5; 0; 0]; [15 / 2; 0; 0]] /\
  map (@position R) (snd (next_state halfway_B_first halfway_heap))
  = [[5 / 2; 0; 0]; [5; 0; 0]].
Proof.
  rewrite halfway_A_first_run, halfway_B_first_run. simpl. unfold half.
  split; repeat (apply (f_equal2 (@cons _))); try reflexivity; lra.
Qed.

End Halfway.

(** ** Distances between two walkers *)

Section Distances.

Open Scope R_scope.

Lemma pysum_R (xs : list R) : pysum xs = fold_left Rplus xs 0.
Proof. reflexivity. Qed.

Lemma pysum_acc (xs : list R) :
  forall a, fold_left Rplus xs a = a + pysum xs.
Proof.
  rewrite pysum_R. induction xs as [| x xs IH]; intro a; simpl.
  - lra.
  - rewrite (IH (a + x)), (IH (0 + x)). lra.
Qed.

Lemma sum_squares_cons p ps q qs :
  sum_squares (p :: ps) (q :: qs) = (q - p) ^ 2 + sum_squares ps qs.
Proof.
  unfold sum_squares. rewrite !pysum_R. simpl.
  rewrite pysum_acc, pysum_R. lra.
Qed.

Lemma sum_squares_nonneg ps : forall qs, 0 <= sum_squares ps qs.
Proof.
  induction ps as [| p ps IH]; intros [| q qs];
    try (unfold sum_squares; rewrite pysum_R; simpl; lra).
  rewrite sum_squares_cons. specialize (IH qs).
  pose proof (pow2_ge_0 (q - p)). lra.
Qed.

(** Two positions with as many coordinates are equal when their squared
    coordinate differences sum up to zero. *)
Lemma sum_squares_zero ps :
  forall qs, length ps = length qs -> sum_squares ps qs = 0 -> ps = qs.
Proof.
  induction ps as [| p ps IH]; intros [| q qs] L E; try discriminate L.
  - reflexivity.
  - rewrite sum_squares_cons in E. simpl in L.
    pose proof (sum_squares_nonneg ps qs) as Hs.
    pose proof (pow2_ge_0 (q - p)) as Hq.
    assert (Eq : (q - p) ^ 2 = 0) by lra.
    assert (Es : sum_squares ps qs = 0) by lra.
    rewrite (IH qs) by (auto; lia).
    replace p with q; [reflexivity |].
    assert (q - p = 0) by (destruct (Req_dec (q - p) 0); [assumption | nra]).
    lra.
Qed.

Lemma move_cons (r p q : R) ps qs :
  move r (p :: ps) (q :: qs) = (p + (q - p) * r) :: move r ps qs.
Proof. reflexivity. Qed.

(** After the first walker has moved towards the second and the second
    towards the first, every coordinate difference has been multiplied
    by [(1 - r)^2]. *)
Lemma sum_squares_move r ps :
  forall qs, length ps = length qs ->
    sum_squares (move r ps qs) (move r qs (move r ps qs))
    = ((1 - r) ^ 2) ^ 2 * sum_squares ps qs.
Proof.
  induction ps as [| p ps IH]; intros [| q qs] L; try discriminate L.
  - unfold sum_squares. rewrite !pysum_R. simpl. lra.
  - rewrite !move_cons, !sum_squares_cons, IH by (simpl in L; lia). ring.
Qed.

Lemma dist_move r ps qs :
  length ps = length qs ->
  dist (move r ps qs) (move r qs (move r ps qs))
  = (1 - r) ^ 2 * dist ps qs.
Proof.
  intro L. unfold dist. rewrite (sum_squares_move r ps qs L).
  rewrite sqrt_mult_alt by apply pow2_ge_0.
  rewrite sqrt_pow2 by apply pow2_ge_0. reflexivity.
Qed.

Lemma dist_pos ps qs : length ps = length qs -> ps <> qs -> 0 < dist ps qs.
Proof.
  intros L Hne. unfold dist. apply sqrt_lt_R0.
  destruct (sum_squares_nonneg ps qs) as [Hlt | Heq]; [exact Hlt |].
  exfalso. apply Hne. apply sum_squares_zero; auto.
Qed.

(** The comprehension of [distance_from], from index [length done] on. *)
Lemma squares_loop a b (h : heap R) ka kb :
  nth_error h a = Some ka -> nth_error h b = Some kb ->
  forall todo done,
    position ka = done ++ todo ->
    (length done + length todo <= length (position kb))%nat ->
    map_each
      (fun i => q <- load_coord b i ;; p <- load_coord a i ;;
                ret ((q - p) ^ 2))
      (seq (length done) (length todo)) h
    = (Ok (map (fun pq => (snd pq - fst pq) ^ 2)
               (combine todo (skipn (length done) (position kb)))), h).
Proof.
  intros Ea Eb. induction todo as [| p todo IH]; intros done Epos L.
  - reflexivity.
  - simpl length in *. simpl seq. simpl map_each.
    destruct (nth_error_lt (position kb) (length done)) as [q Eq]; [lia |].
    assert (Ep : nth_error (position ka) (length done) = Some p)
      by (rewrite Epos; apply nth_error_middle).
    rewrite bind_assoc, (bind_Ok _ (load_coord_run _ _ _ _ _ Eb Eq)).
    rewrite bind_assoc, (bind_Ok _ (load_coord_run _ _ _ _ _ Ea Ep)).
    unfold ret at 1, bind at 1.
    specialize (IH (done ++ [p])). rewrite length_app in IH.
    simpl length in IH.
    replace (length done + 1)%nat with (S (length done)) in IH by lia.
    rewrite (bind_Ok _ (IH ltac:(rewrite <- app_assoc; exact Epos)
                           ltac:(lia))).
    rewrite (skipn_cons_nth _ _ _ Eq). reflexivity.
Qed.

Lemma distance_from_run a b (h : heap R) ka kb :
  nth_error h a = Some ka -> nth_error h b = Some kb ->
  (length (position ka) <= length (position kb))%nat ->
  distance_from a b h = (Ok (dist (position ka) (position kb)), h).
Proof.
  intros Ea Eb L. unfold distance_from.
  rewrite (bind_Ok _ (load_position_run _ _ _ Ea)).
  rewrite (bind_Ok _ (squares_loop a b h ka kb Ea Eb (position ka) []
                        eq_refl L)).
  unfold lift. cbn [nsqrt Fractional_R length skipn].
  fold (sum_squares (position ka) (position kb)).
  destruct (Rlt_dec (sum_squares (position ka) (position kb)) 0)
    as [E | _]; [| reflexivity].
  pose proof (sum_squares_nonneg (position ka) (position kb)). lra.
Qed.

(** [k] calls of [next_state] on two walkers related to each other by
    the same coefficient [r] multiply their distance by [(1 - r)^2],
    [k] times. *)
Lemma next_states_pair (self : WalkingSystem R) (r : R) :
  walkers self = [(0%nat, [(1%nat, r)]); (1%nat, [(0%nat, r)])] ->
  forall k ka kb,
    length (position ka) = length (position kb) ->
    exists ka' kb',
      next_states k self [ka; kb] = (Ok tt, [ka'; kb']) /\
      length (position ka') = length (position kb') /\
      dist (position ka') (position kb')
      = ((1 - r) ^ 2) ^ k * dist (position ka) (position kb).
Proof.
  intro Ews. induction k as [| k IH]; intros ka kb L.
  - exists ka, kb. simpl. repeat split; auto. lra.
  - simpl next_states.
    rewrite (bind_Ok _ (next_state_pair self r r ka kb Ews L)).
    set (pa := move r (position ka) (position kb)).
    set (pb := move r (position kb) pa).
    assert (La : length pa = length (position ka))
      by (apply move_length; lia).
    assert (Lb : length pb = length (position kb))
      by (apply move_length; lia).
    destruct (IH (with_position ka pa) (with_position kb pb))
      as (ka' & kb' & E & L' & D); [simpl; lia |].
    exists ka', kb'. split; [exact E |]. split; [exact L' |].
    rewrite D. simpl position. unfold pb, pa.
    rewrite (dist_move r _ _ L). simpl pow. ring.
Qed.

Lemma distance_after_pair (self : WalkingSystem R) (r : R)
      (ka kb : Walker R) (k : nat) :
  walkers self = [(0%nat, [(1%nat, r)]); (1%nat, [(0%nat, r)])] ->
  length (position ka) = length (position kb) ->
  fst (distance_after k self 0%nat 1%nat [ka; kb])
  = Ok (((1 - r) ^ 2) ^ k * dist (position ka) (position kb)).
Proof.
  intros Ews L.
  destruct (next_states_pair self r Ews k ka kb L)
    as (ka' & kb' & E & L' & D).
  unfold distance_after. rewrite (bind_Ok _ E).
  rewrite (distance_from_run 0%nat 1%nat [ka'; kb'] ka' kb' eq_refl eq_refl)
    by lia.
  simpl. rewrite D. reflexivity.
Qed.

(** C4. Two walkers at distinct positions, each related to the other
    only, with the same coefficient [r]: the distance between them after
    [k] calls of [next_state] is a number [d k] such that, when
    [0 < r < 1], [d] is strictly decreasing and falls under every positive
    bound, and when [-1 < r < 0], [d] is strictly increasing. *)
Theorem pair_distance_monotone (self : WalkingSystem R) (r : R)
        (ka kb : Walker R) :
  walkers self = [(0%nat, [(1%nat, r)]); (1%nat, [(0%nat, r)])] ->
  length (position ka) = length (position kb) ->
  position ka <> position kb ->
  exists d : nat -> R,
    (forall k, fst (distance_after k self 0%nat 1%nat [ka; kb]) = Ok (d k)) /\
    (0 < r < 1 ->
     (forall k, d (S k) < d k) /\
     (forall eps, 0 < eps -> exists N, forall k, (N <= k)%nat -> d k < eps)) /\
    (-1 < r < 0 -> forall k, d k < d (S k)).
Proof.
  intros Ews L Hne.
  pose proof (dist_pos _ _ L Hne) as Hd.
  set (d0 := dist (position ka) (position kb)) in *.
  set (c := (1 - r) ^ 2).
  exists (fun k => c ^ k * d0). split; [| split].
  - intro k. apply distance_after_pair; assumption.
  - intros [Hr0 Hr1].
    assert (Hc : 0 < c < 1) by (unfold c; nra).
    clearbody c d0. split.
    + intro k. simpl pow.
      assert (Hk : 0 < c ^ k * d0)
        by (apply Rmult_lt_0_compat; [apply pow_lt; lra | exact Hd]).
      rewrite Rmult_assoc. nra.
    + intros eps Heps.
      destruct (pow_lt_1_zero c) with (y := eps / d0) as [N HN].
      * rewrite Rabs_pos_eq; lra.
      * apply Rdiv_lt_0_compat; assumption.
      * exists N. intros k Hk. specialize (HN k Hk).
        rewrite Rabs_pos_eq in HN by (apply pow_le; lra).
        apply (Rmult_lt_compat_r d0) in HN; [| exact Hd].
        replace (eps / d0 * d0) with eps in HN by (field; lra).
        exact HN.
  - intros [Hr0 Hr1] k.
    assert (Hc : 1 < c) by (unfold c; nra).
    clearbody c d0. simpl pow.
    assert (Hk : 0 < c ^ k * d0)
      by (apply Rmult_lt_0_compat; [apply pow_lt; lra | exact Hd]).
    rewrite Rmult_assoc. nra.
Qed.

End Distances.

(** ** Color maps *)

Section ColorMaps.

Import Utils Colormaps.
Open Scope R_scope.


Lemma lin_interp_run x x_min x_max y_min y_max :
  x_min <> x_max ->
  lin_interp x x_min x_max y_min y_max
  = Ok ((x - x_min) * (y_max - y_min) / (x_max - x_min) + y_min).
Proof.
  intro Hne. rewrite lin_interp_R.
  destruct (Req_dec_T (x_max - x_min) 0) as [E | _]; [| reflexivity].
  exfalso. apply Hne. lra.
Qed.


(** One channel on exact reals, once both colors have it and the input
    range is not reduced to a point. *)
Lemma channel_run (self : ColorMap) x start end_ max_out i s e :
  getitem (cm_start self) i = Ok s -> getitem (cm_end self) i = Ok e ->
  start <> end_ ->
  channel self x start end_ max_out i
  = Ok (clamp (((x - start) * (IZR e - IZR s) / (end_ - start) + IZR s)
               / 255 * max_out) 0 max_out).
Proof.
  intros Es Ee Hne. unfold channel. rewrite Es, Ee. cbn [rbind].
  cbn [of_int Fractional_R].
  rewrite (lin_interp_run _ _ _ _ _ Hne). cbn [rbind ndiv Fractional_R].
  destruct (Req_dec_T 255 0) as [E | _]; [exfalso; lra |].
  reflexivity.
Qed.




End ColorMaps.

(** ** The loop over the generator never runs out of fuel *)

Section GeneratorLoop.

Context {num : Type} `{Number num}.

Lemma bind_ret_l {A B} (a : A) (k : A -> M (heap num) B) h :
  bind (ret a) k h = k a h.
Proof. reflexivity. Qed.

Lemma from_head_loop {B} (self : WalkingSystem num)
      (body : B -> state -> M (heap num) B) :
  forall rest fuel acc h,
    length rest <= fuel ->
    from_head fuel self rest body acc h = loop_from self rest body acc h.
Proof.
  induction rest as [| x rest IH]; intros fuel acc h Hf.
  - reflexivity.
  - destruct fuel as [| fuel]; [simpl in Hf; lia |].
    simpl in Hf. apply le_S_n in Hf.
    unfold from_head. simpl loop_head. rewrite bind_assoc. simpl loop_from.
    apply bind_ext. intros st h1. rewrite bind_ret_l.
    apply bind_ext. intros acc' h2. rewrite for_states_suspended.
    apply bind_ext. intros _ h3. apply IH. exact Hf.
Qed.

(** The fuel given by [collect_states] and [compute_3d_vectrices] is
    enough on every system and every heap: both are the plain loop. *)
Lemma collect_states_total (self : WalkingSystem num) h :
  collect_states self h
  = loop_from self (range (iterations self)) copy_state [] h.
Proof.
  unfold collect_states, states. rewrite for_states_created.
  apply from_head_loop. apply le_n.
Qed.

Lemma compute_3d_vectrices_total (self : WalkingSystem num) h :
  compute_3d_vectrices self h
  = bind (loop_from self (range (iterations self)) (record_state self)
            (repeat (repeat [] 3) (length (walkers self)), []))
         (fun cr =>
            ret (set_rings (set_curves self (Some (fst cr))) (Some (snd cr)),
                 cr)) h.
Proof.
  unfold compute_3d_vectrices, states. apply bind_cong.
  - rewrite for_states_created. apply from_head_loop. apply le_n.
  - reflexivity.
Qed.

(** Whatever the generator yields is the tuple of the position lists
    themselves: every yielded state names the same lists, and reads as
    the positions of the moment it is looked at. *)
Lemma yielded_state_is_current (self : WalkingSystem num) g h st g' h' :
  well_formed self h = true ->
  gen_next self g h = (Ok (Some st, g'), h') ->
  st = map fst (walkers self) /\
  snapshot st h' = (Ok (positions self h'), h').
Proof.
  intros Hwf E.
  assert (Hhead : forall rest h1,
             well_formed self h1 = true ->
             loop_head self rest h1 = (Ok (Some st, g'), h') ->
             st = map fst (walkers self) /\
             snapshot st h' = (Ok (positions self h'), h')).
  { intros [| x rest] h1 Hwf1; simpl; [discriminate |].
    rewrite (bind_Ok _ (get_current_state_run _ _ Hwf1)).
    intros [= <- _ <-]. split; [reflexivity |].
    apply snapshot_run. exact Hwf1. }
  destruct g as [| rest |]; simpl in E.
  - apply (Hhead _ _ Hwf E).
  - rewrite (bind_Ok _ (next_state_run _ _ Hwf)) in E.
    apply (Hhead _ _ (eq_trans (next_state_well_formed self h) Hwf) E).
  - discriminate E.
Qed.

End GeneratorLoop.

(** ** Floats against exact arithmetic *)

Section OnFloats.

Import FloatSamples.

(** One call of [next_state] on the two walkers of the concrete scenario
    gives on floats what it gives on exact reals: A at (5,0,0) and B at
    (7.5,0,0). *)
Example halfway_on_floats :
  map (@position PrimFloat.float) (snd (next_state halfway halfway_heap))
  = [[five; PrimFloat.zero; PrimFloat.zero];
     [seven_and_a_half; PrimFloat.zero; PrimFloat.zero]].
Proof. vm_compute. reflexivity. Qed.

(** On floats the two walkers of the concrete scenario do meet: from the
    28th call of [next_state] on they are at the same place. *)
Lemma halfway_floats_meet :
  fst (distance_after 28 halfway 0 1 halfway_heap) = Ok PrimFloat.zero /\
  fst (distance_after 29 halfway 0 1 halfway_heap) = Ok PrimFloat.zero.
Proof. split; vm_compute; reflexivity. Qed.

(** With the coefficient -0.5 the two walkers part until, after 435
    calls of [next_state], the square of their distance is too large for
    a float: [distance_from] raises OverflowError. *)
Example pair_distance_overflows_on_floats :
  (exists d, fst (distance_after 434 halfway_apart 0 1 halfway_heap) = Ok d) /\
  fst (distance_after 435 halfway_apart 0 1 halfway_heap)
  = Raise OverflowError.
Proof.
  split; [eexists |]; vm_compute; reflexivity.
Qed.

(** C4, as the specification has it, fails on floats: with A at (0,0,0),
    B at (10,0,0) and the coefficient 0.5, it is not so that each call of
    [next_state] strictly decreases the distance.  After 28 calls the
    distance is 0.0 and the next call leaves it there. *)
Lemma pair_distance_stalls_on_floats :
  ~ (forall k, exists d d',
        fst (distance_after k halfway 0 1 halfway_heap) = Ok d /\
        fst (distance_after (S k) halfway 0 1 halfway_heap) = Ok d' /\
        nltb d' d = true).
Proof.
  intro Hall. destruct (Hall 28) as (d & d' & E & E' & Hlt).
  destruct halfway_floats_meet as [E28 E29].
  rewrite E28 in E. rewrite E29 in E'.
  injection E as <-. injection E' as <-.
  vm_compute in Hlt. discriminate Hlt.
Qed.

(** On floats [distance_from] raises OverflowError where the square of a
    difference is too large, before it finds out that the other walker
    has a coordinate less; and it returns 0.0 for two walkers that are
    not at the same place, where the square underflows. *)
Example distance_from_overflow_first :
  distance_from 0 1 wide_heap = (Raise OverflowError, wide_heap) /\
  distance_from 0 1 lopsided_heap = (Raise IndexError, lopsided_heap).
Proof. split; vm_compute; reflexivity. Qed.

Example distance_from_underflow :
  distance_from 0 1 close_heap = (Ok PrimFloat.zero, close_heap) /\
  map (@position PrimFloat.float) close_heap
  = [[PrimFloat.zero; PrimFloat.zero; PrimFloat.zero];
     [Binary64.tiny; PrimFloat.zero; PrimFloat.zero]].
Proof. split; vm_compute; reflexivity. Qed.

(** C5, as the specification has it, fails on floats: with A at
    (2^1023, 0, 0), B at (-2^1023, 0, 0) and both coefficients 0, one call
    of [next_state] returns and leaves both walkers at (nan, 0, 0).  The
    difference of the first coordinates is infinite, and infinity times
    0 is [nan]. *)
Lemma zero_relations_spoil_far_floats :
  no_interaction far_still /\
  fst (next_states 1 far_still far_heap) = Ok tt /\
  map (@position PrimFloat.float) (snd (next_states 1 far_still far_heap))
  = [[PrimFloat.nan; PrimFloat.zero; PrimFloat.zero];
     [PrimFloat.nan; PrimFloat.zero; PrimFloat.zero]] /\
  snd (next_states 1 far_still far_heap) <> far_heap.
Proof.
  split; [| split; [| split]].
  - intros entry rel He Hrel. simpl in He.
    destruct He as [<- | [<- | []]]; simpl in Hrel;
      repeat (destruct Hrel as [<- | Hrel]; [reflexivity |]);
      destruct Hrel.
  - vm_compute. reflexivity.
  - vm_compute. reflexivity.
  - intro E.
    apply (f_equal
             (map (fun k : Walker PrimFloat.float =>
                     map PrimFloat.is_nan (position k)))) in E.
    vm_compute in E. discriminate E.
Qed.


(** C8, as the specification has it, fails on floats: with A at
    (2^1023, 0, 0) drawn halfway to B at (-2^1023, 0, 0), [next_state]
    leaves A at (-inf, 0, 0); with A also related to itself it leaves A
    at (nan, 0, 0), for [-inf - -inf] is [nan]. *)
Lemma self_relation_spoils_far_floats :
  (walkers far_pull
   = [] ++ (0, [(1, Binary64.half)] ++ []) :: [(1, [])] /\
   walkers far_pull_self
   = [] ++ (0, [(1, Binary64.half)] ++ (0, Binary64.half) :: [])
        :: [(1, [])]) /\
  map (@position PrimFloat.float) (snd (next_state far_pull far_heap))
  = [[Binary64.minus_infinity; PrimFloat.zero; PrimFloat.zero];
     [PrimFloat.opp Binary64.huge; PrimFloat.zero; PrimFloat.zero]] /\
  map (@position PrimFloat.float) (snd (next_state far_pull_self far_heap))
  = [[PrimFloat.nan; PrimFloat.zero; PrimFloat.zero];
     [PrimFloat.opp Binary64.huge; PrimFloat.zero; PrimFloat.zero]] /\
  next_state far_pull_self far_heap <> next_state far_pull far_heap.
Proof.
  split; [split; reflexivity |].
  split; [vm_compute; reflexivity |].
  split; [vm_compute; reflexivity |].
  intro E.
  apply (f_equal
           (fun r : result state * heap PrimFloat.float =>
              map (fun k : Walker PrimFloat.float =>
                     map PrimFloat.is_nan (position k)) (snd r))) in E.
  vm_compute in E. discriminate E.
Qed.

End OnFloats.

(** ** The theorems at work on the sample systems *)

Section Instances.

Import Samples.

Lemma states_yields_each_iteration_triangle :
  well_formed triangle triangle_heap = true /\
  exists snaps,
    collect_states triangle triangle_heap
    = (Ok snaps,
       snd (next_states (Z.to_nat (iterations triangle)) triangle
                        triangle_heap)) /\
    length snaps = Z.to_nat (iterations triangle) /\
    (0 <= iterations triangle ->
     Z.of_nat (length snaps) = iterations triangle)%Z /\
    (1 <= iterations triangle ->
     hd_error snaps = Some (positions triangle triangle_heap))%Z /\
    forall k, k < length snaps ->
      nth_error snaps k
      = Some (positions triangle
                        (snd (next_states k triangle triangle_heap))).
Proof.
  split; [reflexivity |].
  apply states_yields_each_iteration. reflexivity.
Defined.

Lemma rings_are_closed_triangle :
  (walkers triangle <> [] /\
   well_formed triangle triangle_heap = true /\
   three_dimensional triangle triangle_heap = true) /\
  exists self' crvs rngs h',
    compute_3d_vectrices triangle triangle_heap
    = (Ok (self', (crvs, rngs)), h') /\
    length rngs = Z.to_nat (iterations triangle) /\
    forall ring, In ring rngs ->
      length ring = 3 /\
      forall axis, In axis ring ->
        length axis = length (walkers triangle) + 1 /\
        exists c, getitem axis 0 = Ok c /\ getlast axis = Ok c.
Proof.
  split.
  - split; [discriminate | split; reflexivity].
  - apply rings_are_closed; [discriminate | reflexivity | reflexivity].
Defined.

Lemma pair_distance_monotone_halfway :
  (walkers halfway_A_first = [(0, [(1, half)]); (1, [(0, half)])] /\
   length [0; 0; 0]%R = length [10; 0; 0]%R /\
   [0; 0; 0]%R <> [10; 0; 0]%R) /\
  exists d : nat -> R,
    (forall k,
        fst (distance_after k halfway_A_first 0 1 halfway_heap)
        = Ok (d k)) /\
    ((0 < half < 1)%R ->
     (forall k, (d (S k) < d k)%R) /\
     (forall eps, (0 < eps)%R ->
                  exists N, forall k, N <= k -> (d k < eps)%R)) /\
    ((-1 < half < 0)%R -> forall k, (d k < d (S k))%R).
Proof.
  assert (Hne : [0; 0; 0]%R <> [10; 0; 0]%R).
  { intro E. injection E as E. lra. }
  split.
  - split; [reflexivity | split; [reflexivity | exact Hne]].
  - apply (pair_distance_monotone halfway_A_first half
             (Walker_init [0; 0; 0]%R) (Walker_init [10; 0; 0]%R)
             eq_refl eq_refl Hne).
Defined.

Lemma zero_relations_no_op_floats :
  (no_interaction FloatSamples.halfway_still /\
   unmoved_by_zero FloatSamples.halfway_still FloatSamples.halfway_heap) /\
  snd (next_states 3 FloatSamples.halfway_still FloatSamples.halfway_heap)
  = FloatSamples.halfway_heap /\
  (well_formed FloatSamples.halfway_still FloatSamples.halfway_heap = true ->
   fst (next_states 3 FloatSamples.halfway_still FloatSamples.halfway_heap)
   = Ok tt).
Proof.
  assert (Hz : no_interaction FloatSamples.halfway_still).
  { intros entry rel He Hrel. simpl in He.
    destruct He as [<- | [<- | []]]; simpl in Hrel;
      repeat (destruct Hrel as [<- | Hrel]; [reflexivity |]);
      destruct Hrel. }
  assert (Hu : unmoved_by_zero FloatSamples.halfway_still
                               FloatSamples.halfway_heap).
  { apply unmoved_by_zero_binary64. unfold facing. simpl.
    repeat (constructor; [split; vm_compute; reflexivity |]).
    constructor. }
  split; [split; assumption |].
  apply zero_relations_no_op; assumption.
Defined.

Lemma curves_and_rings_need_compute_triangle :
  exists self' crvs rngs h',
    compute_3d_vectrices triangle triangle_heap
    = (Ok (self', (crvs, rngs)), h') /\
    curves self' = Ok crvs /\ rings self' = Ok rngs.
Proof.
  do 4 eexists. split; [vm_compute; reflexivity |].
  eapply (proj2 (curves_and_rings_need_compute
                   [] 0%Z Colormaps.black triangle triangle_heap)).
  vm_compute. reflexivity.
Defined.


Lemma self_relation_is_neutral_floats :
  (walkers FloatSamples.halfway
   = [] ++ (0, [(1, Binary64.half)] ++ []) :: [(1, [(0, Binary64.half)])] /\
   walkers FloatSamples.halfway_self
   = [] ++ (0, [(1, Binary64.half)] ++ (0, Binary64.half) :: [])
        :: [(1, [(0, Binary64.half)])] /\
   unmoved_by_self Binary64.half 0
     (heap_reached [] 0 [(1, Binary64.half)] FloatSamples.halfway_heap)) /\
  next_state FloatSamples.halfway_self FloatSamples.halfway_heap
  = next_state FloatSamples.halfway FloatSamples.halfway_heap.
Proof.
  assert (Hu : unmoved_by_self Binary64.half 0
                 (heap_reached [] 0 [(1, Binary64.half)]
                               FloatSamples.halfway_heap)).
  { apply unmoved_by_self_binary64; [reflexivity |].
    intros k Ek. vm_compute in Ek. injection Ek as <-.
    repeat (constructor; [split; vm_compute; reflexivity |]).
    constructor. }
  split; [split; [reflexivity | split; [reflexivity | exact Hu]] |].
  apply (self_relation_is_neutral FloatSamples.halfway
           FloatSamples.halfway_self 0 Binary64.half []
           [(1, [(0, Binary64.half)])] [(1, Binary64.half)] []
           FloatSamples.halfway_heap eq_refl eq_refl Hu).
Defined.

Lemma ring_closing_needs_a_walker_nobody :
  (1 <= iterations nobody)%Z /\
  (walkers nobody = [] ->
   compute_3d_vectrices nobody triangle_heap
   = (Raise IndexError, triangle_heap)) /\
  (walkers nobody <> [] ->
   well_formed nobody triangle_heap = true ->
   three_dimensional nobody triangle_heap = true ->
   returns (compute_3d_vectrices nobody) triangle_heap).
Proof.
  assert (Hit : (1 <= iterations nobody)%Z) by (simpl; lia).
  split; [exact Hit |].
  apply ring_closing_needs_a_walker. exact Hit.
Defined.

End Instances.

(** * More of utils.py *)

Section ClampFacts.

Import Utils.

Context {num : Type} `{StrictlyOrdered num}.

Lemma clamp_within (x inf sup : num) :
  nltb sup inf = false ->
  nltb (clamp x inf sup) inf = false /\ nltb sup (clamp x inf sup) = false.
Proof.
  intro Hb. unfold clamp.
  destruct (nltb x inf) eqn:E1.
  - rewrite (nltb_irrefl inf), Hb. auto.
  - destruct (nltb sup x) eqn:E2.
    + rewrite Hb, (nltb_irrefl sup). auto.
    + rewrite E1, E2. auto.
Qed.

(** X1. Whatever the numbers, exact or floating, as long as the upper
    bound is not below the lower one: [clamp] never returns a value
    that is below the lower bound or above the upper bound, and clamping
    twice is clamping once.  (On floats [clamp(nan, inf, sup)] is [nan],
    which is neither below nor above anything.) *)
Theorem clamp_bounds (x inf sup : num) :
  nltb sup inf = false ->
  nltb (clamp x inf sup) inf = false /\
  nltb sup (clamp x inf sup) = false /\
  clamp (clamp x inf sup) inf sup = clamp x inf sup.
Proof.
  intro Hb. destruct (clamp_within x inf sup Hb) as [Hlo Hhi].
  split; [exact Hlo |]. split; [exact Hhi |].
  unfold clamp at 1. fold (clamp x inf sup). rewrite Hlo, Hhi. reflexivity.
Qed.

End ClampFacts.

Section UtilsFacts.

Import Utils Interp.
Open Scope R_scope.

(** X2. Interpolating from one range to another and back gives the value
    one started from, when neither range is reduced to a point. *)
Theorem lin_interp_round_trip (x x_min x_max y_min y_max : R) :
  x_min <> x_max -> y_min <> y_max ->
  exists y,
    lin_interp x x_min x_max y_min y_max = Ok y /\
    lin_interp y y_min y_max x_min x_max = Ok x.
Proof.
  intros Hx Hy.
  exists ((x - x_min) * (y_max - y_min) / (x_max - x_min) + y_min).
  split; [apply lin_interp_run; exact Hx |].
  rewrite (lin_interp_run _ _ _ _ _ Hy). f_equal. field. split; lra.
Qed.

(** X3. In exact arithmetic, [lin_interp] sends the bounds of the input
    range to the bounds of the output range, and is increasing when both
    ranges are.  (Binary64 rounds: [binary64_interpolation_rounds].) *)
Theorem lin_interp_endpoints_monotone (x_min x_max y_min y_max : R) :
  x_min < x_max -> y_min < y_max ->
  lin_interp x_min x_min x_max y_min y_max = Ok y_min /\
  lin_interp x_max x_min x_max y_min y_max = Ok y_max /\
  forall x x' y y',
    x < x' ->
    lin_interp x x_min x_max y_min y_max = Ok y ->
    lin_interp x' x_min x_max y_min y_max = Ok y' ->
    y < y'.
Proof.
  intros Hx Hy.
  assert (Hne : x_min <> x_max) by lra.
  rewrite !(lin_interp_run _ _ _ _ _ Hne).
  split; [f_equal; field; lra |]. split; [f_equal; field; lra |].
  intros x x' y y' Hlt E E'.
  rewrite (lin_interp_run _ _ _ _ _ Hne) in E.
  rewrite (lin_interp_run _ _ _ _ _ Hne) in E'.
  injection E as <-. injection E' as <-.
  apply Rplus_lt_compat_r. unfold Rdiv.
  apply Rmult_lt_compat_r; [apply Rinv_0_lt_compat; lra |].
  apply Rmult_lt_compat_r; lra.
Qed.

Lemma ln_2_pos : 0 < ln 2.
Proof. pose proof ln_lt_2. lra. Qed.

Lemma pylog_run x : 0 < x -> pylog x = Ok (ln x).
Proof.
  intro Hx. unfold pylog. destruct (Rle_dec x 0) as [E | _]; [lra | reflexivity].
Qed.

(** X4. [log_interp] sends the bounds of the input range to the bounds of
    the output range. *)
Theorem log_interp_endpoints (x_min x_max y_min y_max : R) :
  x_min <> x_max ->
  log_interp x_min x_min x_max y_min y_max = Ok y_min /\
  log_interp x_max x_min x_max y_min y_max = Ok y_max.
Proof.
  intro Hne. pose proof ln_2_pos as H2.
  assert (Hl2 : 0 <> ln 2) by lra.
  unfold log_interp. rewrite !(lin_interp_run _ _ _ _ _ Hne). cbn [rbind].
  replace ((x_min - x_min) * (1 - 0) / (x_max - x_min) + 0 + 1) with 1
    by (field; lra).
  replace ((x_max - x_min) * (1 - 0) / (x_max - x_min) + 0 + 1) with 2
    by (field; lra).
  rewrite (pylog_run 1), (pylog_run 2) by lra. cbn [rbind].
  rewrite ln_1, !(lin_interp_run _ _ _ _ _ Hl2).
  split; f_equal; field; lra.
Qed.

(** X5. [log_interp] raises a ValueError, from [math.log], for every [x]
    that lies as far from [x_min] as [x_max] does, or farther, on the
    other side. *)
Theorem log_interp_domain_error (x x_min x_max y_min y_max : R) :
  x_min <> x_max ->
  (x - x_min) / (x_max - x_min) <= -1 ->
  log_interp x x_min x_max y_min y_max = Raise ValueError.
Proof.
  intros Hne Hx. unfold log_interp.
  rewrite (lin_interp_run _ _ _ _ _ Hne). cbn [rbind].
  unfold pylog.
  destruct (Rle_dec ((x - x_min) * (1 - 0) / (x_max - x_min) + 0 + 1) 0)
    as [_ | Hgt]; [reflexivity |].
  exfalso. apply Hgt.
  replace ((x - x_min) * (1 - 0) / (x_max - x_min) + 0 + 1)
    with ((x - x_min) / (x_max - x_min) + 1) by (field; lra).
  lra.
Qed.

(** X6. In exact arithmetic, for any power function that gives
    [0 ** p = 0] for positive [p] and [1 ** p = 1], as Python's does,
    [pow_interp] with a positive power sends the bounds of the input
    range to the bounds of the output range. *)
Theorem pow_interp_endpoints (pypow : R -> R -> result R)
        (power x_min x_max y_min y_max : R) :
  (forall p, 0 < p -> pypow 0 p = Ok 0) ->
  (forall p, pypow 1 p = Ok 1) ->
  x_min <> x_max -> 0 < power ->
  pow_interp pypow x_min power x_min x_max y_min y_max = Ok y_min /\
  pow_interp pypow x_max power x_min x_max y_min y_max = Ok y_max.
Proof.
  intros H0 H1 Hne Hp.
  assert (H01 : 0 <> 1) by lra.
  unfold pow_interp. rewrite !(lin_interp_run _ _ _ _ _ Hne). cbn [rbind].
  replace ((x_min - x_min) * (1 - 0) / (x_max - x_min) + 0) with 0
    by (field; lra).
  replace ((x_max - x_min) * (1 - 0) / (x_max - x_min) + 0) with 1
    by (field; lra).
  rewrite (H0 power Hp), (H1 power). cbn [rbind].
  rewrite !(lin_interp_run _ _ _ _ _ H01).
  split; f_equal; field.
Qed.

Lemma real_pow_zero p : 0 < p -> real_pow 0 p = Ok 0.
Proof.
  intro Hp. unfold real_pow.
  destruct (Req_dec_T 0 0) as [_ | E]; [| exfalso; apply E; reflexivity].
  destruct (Rlt_dec 0 p) as [_ | E]; [reflexivity | exfalso; lra].
Qed.

Lemma real_pow_one p : real_pow 1 p = Ok 1.
Proof.
  unfold real_pow. destruct (Req_dec_T 1 0) as [E | _]; [exfalso; lra |].
  f_equal. unfold Rpower. rewrite ln_1, Rmult_0_r. apply exp_0.
Qed.

End UtilsFacts.

(** ** approxIndex *)

Lemma comprehension_ext {A B} (f g : A -> result B) (xs : list A) :
  (forall x, In x xs -> f x = g x) -> comprehension f xs = comprehension g xs.
Proof.
  induction xs as [| x xs IH]; intro E; simpl.
  - reflexivity.
  - rewrite (E x (or_introl eq_refl)), IH; [reflexivity |].
    intros y Hy. apply E. right. exact Hy.
Qed.

Lemma combine_snoc {A B} (xs : list A) (ys : list B) x y :
  length xs = length ys ->
  combine (xs ++ [x]) (ys ++ [y]) = combine xs ys ++ [(x, y)].
Proof.
  revert ys. induction xs as [| a xs IH]; intros [| b ys] L;
    try discriminate L.
  - reflexivity.
  - simpl. rewrite IH; [reflexivity | simpl in L; lia].
Qed.

Lemma enumerate_snoc {A} (xs : list A) x :
  enumerate (xs ++ [x]) = enumerate xs ++ [(length xs, x)].
Proof.
  unfold enumerate. rewrite length_app. simpl length.
  rewrite seq_app. simpl seq. rewrite combine_snoc; [reflexivity |].
  apply length_seq.
Qed.

Section ApproxIndexFacts.

Import Search.

Context {num : Type} `{Ordered num}.

(** The pairs come out last index first. *)
Lemma rev_enumerate_run {A} (xs : list A) :
  rev_enumerate xs = Ok (rev (enumerate xs)).
Proof.
  induction xs as [| x xs IH] using rev_ind.
  - reflexivity.
  - unfold rev_enumerate in *. rewrite enumerate_snoc, rev_unit.
    rewrite length_app. simpl length.
    replace (length xs + 1) with (S (length xs)) by lia.
    rewrite seq_S, rev_unit. simpl plus. simpl comprehension.
    unfold getitem at 1. rewrite nth_error_middle. cbn [rbind].
    rewrite (comprehension_ext _
               (fun i => rbind (getitem xs i) (fun x => Ok (i, x)))).
    + rewrite IH. reflexivity.
    + intros i Hi. apply in_rev, in_seq in Hi. unfold getitem.
      rewrite nth_error_app1 by lia. reflexivity.
Qed.

Lemma approxIndex_nil (item threshold : num) :
  approxIndex [] item threshold = Ok None.
Proof. reflexivity. Qed.

Lemma approxIndex_snoc (xs : list num) (x item threshold : num) :
  approxIndex (xs ++ [x]) item threshold
  = if within item threshold x then Ok (Some (length xs))
    else approxIndex xs item threshold.
Proof.
  unfold approxIndex. rewrite !rev_enumerate_run. cbn [rbind].
  rewrite enumerate_snoc, rev_unit. simpl first_within.
  destruct (within item threshold x); reflexivity.
Qed.

Lemma approxIndex_none (xs : list num) (item threshold : num) :
  approxIndex xs item threshold = Ok None <->
  forall x, In x xs -> within item threshold x = false.
Proof.
  induction xs as [| x xs IH] using rev_ind.
  - rewrite approxIndex_nil. split; [intros _ x [] | reflexivity].
  - rewrite approxIndex_snoc.
    destruct (within item threshold x) eqn:Ex.
    + split; [discriminate |].
      intro Hall. rewrite Hall in Ex; [discriminate |].
      apply in_or_app. right. left. reflexivity.
    + rewrite IH. split.
      * intros Hall y Hy. apply in_app_or in Hy as [Hy | [<- | []]]; auto.
      * intros Hall y Hy. apply Hall. apply in_or_app. left. exact Hy.
Qed.

(** X7. [approxIndex] returns [None] exactly when no element of the list
    is within the threshold of the item; it never raises. *)
Theorem approxIndex_none_iff (xs : list num) (item threshold : num) :
  (approxIndex xs item threshold = Ok None <->
   forall x, In x xs -> within item threshold x = false) /\
  exists r, approxIndex xs item threshold = Ok r.
Proof.
  split; [apply approxIndex_none |].
  unfold approxIndex. rewrite rev_enumerate_run. cbn [rbind]. eauto.
Qed.

(** X8. [approxIndex] returns the index [i] exactly when the element at
    [i] is within the threshold of the item and no element after it is:
    it finds the last match, where [list.index] finds the first. *)
Theorem approxIndex_last_match (xs : list num) (item threshold : num)
        (i : nat) :
  approxIndex xs item threshold = Ok (Some i) <->
  (exists x, nth_error xs i = Some x /\ within item threshold x = true) /\
  (forall j y, i < j -> nth_error xs j = Some y ->
               within item threshold y = false).
Proof.
  revert i. induction xs as [| x xs IH] using rev_ind; intro i.
  - rewrite approxIndex_nil. split; [discriminate |].
    intros [(x & E & _) _]. destruct i; discriminate E.
  - rewrite approxIndex_snoc.
    destruct (within item threshold x) eqn:Ex.
    + split.
      * intros [= <-]. split.
        -- exists x. rewrite nth_error_middle. auto.
        -- intros j y Hj E.
           assert (Hlen : j < length (xs ++ [x]))
             by (apply nth_error_Some; congruence).
           rewrite length_app in Hlen. simpl in Hlen. lia.
      * intros [(x0 & E0 & W0) Hlater].
        destruct (Nat.lt_trichotomy i (length xs)) as [Hlt | [-> | Hgt]].
        -- rewrite (Hlater (length xs) x Hlt (nth_error_middle xs x [])) in Ex.
           discriminate Ex.
        -- reflexivity.
        -- assert (Hlen : i < length (xs ++ [x]))
             by (apply nth_error_Some; congruence).
           rewrite length_app in Hlen. simpl in Hlen. lia.
    + rewrite IH. split.
      * intros [(x0 & E0 & W0) Hlater].
        assert (Hi : i < length xs) by (apply nth_error_Some; congruence).
        split.
        -- exists x0. rewrite nth_error_app1 by exact Hi. auto.
        -- intros j y Hj E.
           destruct (Nat.lt_trichotomy j (length xs)) as [Hlt | [-> | Hgt]].
           ++ rewrite nth_error_app1 in E by exact Hlt. eauto.
           ++ rewrite nth_error_middle in E. congruence.
           ++ assert (Hlen : j < length (xs ++ [x]))
                by (apply nth_error_Some; congruence).
              rewrite length_app in Hlen. simpl in Hlen. lia.
      * intros [(x0 & E0 & W0) Hlater].
        assert (Hlen : i < length (xs ++ [x]))
          by (apply nth_error_Some; congruence).
        rewrite length_app in Hlen. simpl in Hlen.
        assert (Hi : i < length xs).
        { destruct (Nat.eq_dec i (length xs)) as [-> | Hne]; [| lia].
          rewrite nth_error_middle in E0. congruence. }
        rewrite nth_error_app1 in E0 by exact Hi. split; [eauto |].
        intros j y Hj E. apply (Hlater j y Hj).
        rewrite nth_error_app1; [exact E |].
        apply nth_error_Some. congruence.
Qed.

End ApproxIndexFacts.

(** X9. On integers and on reals, a threshold that is not positive
    matches nothing: [approxIndex] returns [None] whatever the list. *)
Theorem approxIndex_no_threshold :
  (forall (xs : list Z) (item threshold : Z),
      (threshold <= 0)%Z -> Search.approxIndex xs item threshold = Ok None) /\
  (forall (xs : list R) (item threshold : R),
      (threshold <= 0)%R -> Search.approxIndex xs item threshold = Ok None).
Proof.
  split; intros xs item threshold Hth;
    apply (approxIndex_none xs item threshold);
    intros x _; unfold Search.within; simpl.
  - apply Z.ltb_ge. pose proof (Z.abs_nonneg (x - item)). lia.
  - destruct (Rlt_dec (Rabs (x - item)) threshold) as [E | _];
      [| reflexivity].
    pose proof (Rabs_pos (x - item)). lra.
Qed.

(** * More of colormaps.py *)

Section ColorMapBounds.

Import Utils Colormaps.

Context {num : Type} {HN : Number num} {HO : Ordered num}
        {HS : StrictlyOrdered num} {HF : Fractional num}.

Lemma channel_within (self : ColorMap) (x start end_ max_out : num) i v :
  nltb max_out (of_int 0) = false ->
  channel self x start end_ max_out i = Ok v ->
  nltb v (of_int 0) = false /\ nltb max_out v = false.
Proof.
  intros Hm. unfold channel.
  destruct (getitem (cm_start self) i) as [s |]; [| discriminate].
  destruct (getitem (cm_end self) i) as [e |]; [| discriminate].
  cbn [rbind].
  destruct (lin_interp x start end_ (of_int s) (of_int e)) as [y |];
    [| discriminate].
  cbn [rbind]. destruct (ndiv y (of_int 255)) as [t |]; [| discriminate].
  cbn [rbind]. intros [= <-]. apply clamp_within. exact Hm.
Qed.

(** X10. Whatever the numbers, exact or floating, for colors of 8-bit
    channels: when [max_out] is not below 0 and a color map returns, it
    returns three numbers, none of them below 0 or above [max_out].  (On
    floats a channel can be [nan], which is neither.  The colors are
    asked to be 8-bit ones because an integer beyond the range of the
    floats does not convert, which [of_int] leaves out.) *)
Theorem colormap_in_range (self : ColorMap) (x start end_ max_out : num)
        (cs : list num) :
  valid_color (cm_start self) = true -> valid_color (cm_end self) = true ->
  nltb max_out (of_int 0) = false ->
  call self x start end_ max_out = Ok cs ->
  length cs = 3 /\
  Forall (fun c => nltb c (of_int 0) = false /\ nltb max_out c = false) cs.
Proof.
  intros _ _ Hm. unfold call. simpl seq. cbn [comprehension].
  destruct (channel self x start end_ max_out 0) as [r |] eqn:Er;
    [| discriminate].
  destruct (channel self x start end_ max_out 1) as [g |] eqn:Eg;
    [| discriminate].
  destruct (channel self x start end_ max_out 2) as [b |] eqn:Eb;
    [| discriminate].
  cbn [rbind]. intros [= <-]. split; [reflexivity |].
  pose proof (channel_within _ _ _ _ _ _ _ Hm Er) as Hr.
  pose proof (channel_within _ _ _ _ _ _ _ Hm Eg) as Hg.
  pose proof (channel_within _ _ _ _ _ _ _ Hm Eb) as Hb.
  constructor; [exact Hr |]. constructor; [exact Hg |].
  constructor; [exact Hb | constructor].
Qed.

End ColorMapBounds.

(** ** The lower bound of an interpolation, on floats *)

Section FloatEndpoints.

Import Stdlib.Floats.PrimFloat Stdlib.Floats.FloatOps.
Import Stdlib.Floats.SpecFloat Stdlib.Floats.FloatAxioms.

Local Open Scope float_scope.

Lemma sub_self_finite (x : float) : Binary64.finite x = true -> x - x = 0.
Proof.
  intro Hx. apply Prim2SF_inj. rewrite sub_spec.
  change (Prim2SF 0) with (S754_zero false).
  destruct (finite_cases _ Hx) as [(s & E) | (s & m & e & E)];
    rewrite E; unfold SF64sub, SFsub.
  - destruct s; reflexivity.
  - rewrite Z.sub_diag. reflexivity.
Qed.

Lemma zero_mul_finite (d : float) :
  Binary64.finite d = true -> exists s, Prim2SF (0 * d) = S754_zero s.
Proof.
  intro Hd. rewrite mul_spec.
  change (Prim2SF 0) with (S754_zero false).
  destruct (finite_cases _ Hd) as [(s & ->) | (s & m & e & ->)]; simpl; eauto.
Qed.

(** A divisor that Python accepts and that is not [nan] is infinite or
    has a mantissa. *)
Lemma divisor_cases (w : float) :
  (w =? 0) = false -> is_nan w = false ->
  (exists s, Prim2SF w = S754_infinity s) \/
  (exists s m e, Prim2SF w = S754_finite s m e).
Proof.
  unfold is_nan. rewrite !eqb_spec.
  change (Prim2SF 0) with (S754_zero false).
  destruct (Prim2SF w) as [s | s | | s m e]; simpl; try discriminate; eauto.
Qed.

Lemma zero_div (z w : float) :
  (exists s, Prim2SF z = S754_zero s) ->
  (w =? 0) = false -> is_nan w = false ->
  exists s, Prim2SF (z / w) = S754_zero s.
Proof.
  intros [s Ez] H0 Hn. rewrite div_spec, Ez.
  destruct (divisor_cases w H0 Hn) as [(sw & ->) | (sw & m & e & ->)];
    simpl; eauto.
Qed.

Lemma zero_add (z y : float) :
  (exists s, Prim2SF z = S754_zero s) ->
  Binary64.negative_zero y = false -> z + y = y.
Proof.
  intros [s Ez] Hy. apply Prim2SF_inj. rewrite add_spec, Ez.
  unfold SF64add, SFadd.
  destruct (Prim2SF y) as [sy | sy | | sy my ey] eqn:Ey; try reflexivity.
  rewrite (zero_sign y sy Ey Hy). destruct s; reflexivity.
Qed.

Lemma lin_interp_start_binary64 (x_min x_max y_min y_max : float) :
  Binary64.finite x_min = true ->
  Binary64.finite (y_max - y_min) = true ->
  (x_max - x_min =? 0) = false -> is_nan (x_max - x_min) = false ->
  Binary64.negative_zero y_min = false ->
  Utils.lin_interp x_min x_min x_max y_min y_max = Ok y_min.
Proof.
  intros Hx Hd H0 Hn Hy. unfold Utils.lin_interp.
  cbn [ndiv nmul nsub nadd Binary64.Fractional_float Binary64.Number_float].
  unfold Binary64.truediv.
  change PrimFloat.zero with 0. rewrite H0. cbn [rbind].
  f_equal. apply zero_add; [| exact Hy].
  apply zero_div; [| exact H0 | exact Hn].
  rewrite (sub_self_finite x_min Hx).
  apply zero_mul_finite. exact Hd.
Qed.

(** X27. On floats, with no rounding in the way: [lin_interp] sends the
    lower bound [x_min] of the input range to [y_min] itself, whenever
    [x_min] and the difference [y_max - y_min] are finite, the width
    [x_max - x_min] is neither zero nor [nan] (it may be infinite) and
    [y_min] is not the negative zero; and it raises ZeroDivisionError,
    whatever [x], when the width is zero. *)
Theorem lin_interp_start_on_floats (x x_min x_max y_min y_max : float) :
  (Binary64.finite x_min = true ->
   Binary64.finite (y_max - y_min) = true ->
   (x_max - x_min =? 0) = false -> is_nan (x_max - x_min) = false ->
   Binary64.negative_zero y_min = false ->
   Utils.lin_interp x_min x_min x_max y_min y_max = Ok y_min) /\
  ((x_max - x_min =? 0) = true ->
   Utils.lin_interp x x_min x_max y_min y_max = Raise ZeroDivisionError).
Proof.
  split; [apply lin_interp_start_binary64 |].
  intro H0. unfold Utils.lin_interp.
  cbn [ndiv nmul nsub nadd Binary64.Fractional_float Binary64.Number_float].
  unfold Binary64.truediv.
  change PrimFloat.zero with 0. rewrite H0. reflexivity.
Qed.

Lemma byte_in z :
  (Z.leb 0 z && Z.leb z 255)%bool = true -> In z Bytes.bytes.
Proof.
  intro Hz. apply andb_prop in Hz as [H0 H255].
  apply Z.leb_le in H0, H255. unfold Bytes.bytes. apply in_map_iff.
  exists (Z.to_nat z). split; [lia | apply in_seq; lia].
Qed.

(** Every 8-bit channel converts to a float that is not the negative
    zero and that [/ 255 * 255] and the clamp give back, and the
    difference of two of them is finite. *)
Lemma bytes_table :
  forallb
    (fun s =>
       Bytes.round_trip s
       && negb (Binary64.negative_zero (Binary64.float_of_int s))
       && forallb
            (fun e =>
               Binary64.finite
                 (Binary64.float_of_int e - Binary64.float_of_int s))
            Bytes.bytes)
    Bytes.bytes
  = true.
Proof. vm_compute. reflexivity. Qed.

Lemma channel_start_binary64 (self : Colormaps.ColorMap)
      (start_x end_x : float) i s e :
  getitem (Colormaps.cm_start self) i = Ok s ->
  getitem (Colormaps.cm_end self) i = Ok e ->
  (Z.leb 0 s && Z.leb s 255)%bool = true ->
  (Z.leb 0 e && Z.leb e 255)%bool = true ->
  Binary64.finite start_x = true ->
  (end_x - start_x =? 0) = false -> is_nan (end_x - start_x) = false ->
  Colormaps.channel self start_x start_x end_x (of_int 255) i
  = Ok (of_int s).
Proof.
  intros Es Ee Hs He Hx H0 Hn.
  pose proof bytes_table as T. rewrite forallb_forall in T.
  specialize (T s (byte_in s Hs)).
  apply andb_prop in T as [T Tf]. apply andb_prop in T as [Tr Tz].
  rewrite forallb_forall in Tf. specialize (Tf e (byte_in e He)).
  apply negb_true_iff in Tz.
  unfold Colormaps.channel. rewrite Es, Ee. cbn [rbind].
  cbn [of_int Binary64.Fractional_float].
  rewrite (lin_interp_start_binary64 start_x end_x _ _ Hx Tf H0 Hn Tz).
  cbn [rbind ndiv nmul Binary64.Fractional_float Binary64.Number_float].
  unfold Bytes.round_trip in Tr.
  destruct (Binary64.truediv (Binary64.float_of_int s)
                             (Binary64.float_of_int 255)) as [t |];
    [| discriminate Tr].
  cbn [rbind]. f_equal. apply Leibniz.eqb_spec. exact Tr.
Qed.

(** X28. On floats, with no rounding in the way: a color map between two
    colors of 8-bit channels, called with [max_out = 255] at the lower
    bound of an input range whose lower bound is finite and whose width
    is neither zero nor [nan], returns the start color itself. *)
Theorem colormap_start_on_floats (self : Colormaps.ColorMap)
        (start_x end_x : float) :
  Colormaps.valid_color (Colormaps.cm_start self) = true ->
  Colormaps.valid_color (Colormaps.cm_end self) = true ->
  Binary64.finite start_x = true ->
  (end_x - start_x =? 0) = false -> is_nan (end_x - start_x) = false ->
  Colormaps.call self start_x start_x end_x (of_int 255)
  = Ok (map of_int (Colormaps.cm_start self)).
Proof.
  unfold Colormaps.valid_color. intros Hs He Hx H0 Hn.
  apply andb_prop in Hs as [Ls Hs]. apply andb_prop in He as [Le He].
  apply Nat.eqb_eq in Ls, Le.
  destruct self as [cs ce].
  cbn [Colormaps.cm_start Colormaps.cm_end] in *.
  destruct cs as [| sr [| sg [| sb [| ? ?]]]]; try discriminate Ls.
  destruct ce as [| er [| eg [| eb [| ? ?]]]]; try discriminate Le.
  simpl in Hs, He.
  apply andb_prop in Hs as [Hsr Hs]. apply andb_prop in Hs as [Hsg Hs].
  apply andb_prop in Hs as [Hsb _].
  apply andb_prop in He as [Her He]. apply andb_prop in He as [Heg He].
  apply andb_prop in He as [Heb _].
  set (cm := {| Colormaps.cm_start := [sr; sg; sb];
                Colormaps.cm_end := [er; eg; eb] |}).
  unfold Colormaps.call. simpl seq. cbn [comprehension].
  rewrite (channel_start_binary64 cm start_x end_x 0 sr er eq_refl eq_refl
             Hsr Her Hx H0 Hn).
  rewrite (channel_start_binary64 cm start_x end_x 1 sg eg eq_refl eq_refl
             Hsg Heg Hx H0 Hn).
  rewrite (channel_start_binary64 cm start_x end_x 2 sb eb eq_refl eq_refl
             Hsb Heb Hx H0 Hn).
  reflexivity.
Qed.

End FloatEndpoints.


Section ColorMapFacts.

Import Utils Colormaps.
Open Scope R_scope.

Lemma clamp_between x lo hi : lo <= hi -> lo <= clamp x lo hi <= hi.
Proof.
  intro Hb. rewrite clamp_R.
  destruct (Rlt_dec x lo) as [Hlt | Hge]; [lra |].
  destruct (Rlt_dec hi x) as [Hgt | Hle]; lra.
Qed.

Lemma channel_in_range (self : ColorMap) x start end_ max_out i s e :
  getitem (cm_start self) i = Ok s -> getitem (cm_end self) i = Ok e ->
  start <> end_ -> 0 <= max_out ->
  exists v, channel self x start end_ max_out i = Ok v /\ 0 <= v <= max_out.
Proof.
  intros Es Ee Hne Hm. rewrite (channel_run _ _ _ _ _ _ _ _ Es Ee Hne).
  eexists. split; [reflexivity |]. apply clamp_between. exact Hm.
Qed.

Lemma getitem_lt {A} (xs : list A) i :
  (i < length xs)%nat -> exists x, getitem xs i = Ok x.
Proof.
  intro Hi. unfold getitem.
  destruct (nth_error_lt xs i Hi) as [x ->]. eauto.
Qed.

(** On exact reals a color map with three channels, called on a proper
    range, returns three numbers between 0 and [max_out]. *)
Lemma call_in_range (self : ColorMap) (x start end_ max_out : R) :
  (3 <= length (cm_start self))%nat -> (3 <= length (cm_end self))%nat ->
  start <> end_ -> 0 <= max_out ->
  exists r g b,
    call self x start end_ max_out = Ok [r; g; b] /\
    0 <= r <= max_out /\ 0 <= g <= max_out /\ 0 <= b <= max_out.
Proof.
  intros Ls Le Hne Hm.
  destruct (getitem_lt (cm_start self) 0) as [s0 Es0]; [lia |].
  destruct (getitem_lt (cm_start self) 1) as [s1 Es1]; [lia |].
  destruct (getitem_lt (cm_start self) 2) as [s2 Es2]; [lia |].
  destruct (getitem_lt (cm_end self) 0) as [e0 Ee0]; [lia |].
  destruct (getitem_lt (cm_end self) 1) as [e1 Ee1]; [lia |].
  destruct (getitem_lt (cm_end self) 2) as [e2 Ee2]; [lia |].
  destruct (channel_in_range self x start end_ max_out 0 s0 e0 Es0 Ee0 Hne Hm)
    as (r & Er & Hr).
  destruct (channel_in_range self x start end_ max_out 1 s1 e1 Es1 Ee1 Hne Hm)
    as (g & Eg & Hg).
  destruct (channel_in_range self x start end_ max_out 2 s2 e2 Es2 Ee2 Hne Hm)
    as (b & Eb & Hb).
  exists r, g, b. unfold call. simpl seq. cbn [comprehension].
  rewrite Er, Eg, Eb. cbn [rbind]. auto.
Qed.

(** X11. A color map called on an input range reduced to a point raises
    ZeroDivisionError as soon as both colors have a first channel; on a
    proper range it raises IndexError when one of the colors has fewer
    than three channels. *)
Theorem colormap_errors (self : ColorMap) (x start end_ max_out : R) :
  (start = end_ ->
   (1 <= length (cm_start self))%nat -> (1 <= length (cm_end self))%nat ->
   call self x start end_ max_out = Raise ZeroDivisionError) /\
  (start <> end_ ->
   (length (cm_start self) < 3)%nat \/ (length (cm_end self) < 3)%nat ->
   call self x start end_ max_out = Raise IndexError).
Proof.
  destruct self as [cs ce]. unfold call, channel. simpl seq.
  cbn [comprehension cm_start cm_end]. split.
  - intros -> Ls Le.
    destruct cs as [| s0 cs]; [simpl in Ls; lia |].
    destruct ce as [| e0 ce]; [simpl in Le; lia |].
    cbn [getitem nth_error rbind]. rewrite lin_interp_R.
    destruct (Req_dec_T (end_ - end_) 0) as [_ | E]; [reflexivity |].
    exfalso. apply E. lra.
  - intros Hne Hlen.
    assert (Hrun : forall x0 y_min y_max,
               lin_interp x0 start end_ y_min y_max
               = Ok ((x0 - start) * (y_max - y_min) / (end_ - start) + y_min))
      by (intros; apply lin_interp_run; exact Hne).
    assert (Hdiv : forall y : R, ndiv y (of_int 255) = Ok (y / 255)).
    { intro y. cbn [ndiv of_int Fractional_R].
      destruct (Req_dec_T 255 0) as [E | _]; [exfalso; lra | reflexivity]. }
    destruct cs as [| s0 [| s1 [| s2 cs]]];
      destruct ce as [| e0 [| e1 [| e2 ce]]];
      simpl in Hlen; try (exfalso; lia);
      cbn [getitem nth_error rbind]; rewrite ?Hrun; cbn [rbind];
      rewrite ?Hdiv; cbn [rbind];
      rewrite ?Hrun; cbn [rbind]; rewrite ?Hdiv; cbn [rbind]; reflexivity.
Qed.

End ColorMapFacts.

(** * More of Walker.distance_from *)

Lemma map_each_raise {H A B} (f : A -> M H B) (l1 : list A) x l2 h e :
  (forall y, In y l1 -> exists v, f y h = (Ok v, h)) ->
  f x h = (Raise e, h) ->
  map_each f (l1 ++ x :: l2) h = (Raise e, h).
Proof.
  induction l1 as [| y l1 IH]; intros Hl1 Hx; simpl.
  - rewrite (bind_Raise _ Hx). reflexivity.
  - destruct (Hl1 y (or_introl eq_refl)) as [v Hv].
    rewrite (bind_Ok _ Hv).
    rewrite (bind_Raise _ (IH (fun z Hz => Hl1 z (or_intror Hz)) Hx)).
    reflexivity.
Qed.

Lemma seq_split n m :
  m < n -> seq 0 n = seq 0 m ++ m :: seq (S m) (n - S m).
Proof.
  intro Hlt. assert (E : n = m + S (n - S m)) by lia.
  rewrite E at 1. rewrite seq_app. reflexivity.
Qed.

Section DistanceFacts.

Open Scope R_scope.

Lemma sum_squares_sym ps :
  forall qs, length ps = length qs -> sum_squares ps qs = sum_squares qs ps.
Proof.
  induction ps as [| p ps IH]; intros [| q qs] L; try discriminate L.
  - reflexivity.
  - rewrite !sum_squares_cons, (IH qs) by (simpl in L; lia). ring.
Qed.

Lemma sum_squares_same ps : sum_squares ps ps = 0.
Proof.
  induction ps as [| p ps IH]; [reflexivity |].
  rewrite sum_squares_cons, IH. ring.
Qed.

(** X12. In exact arithmetic, between two walkers with as many
    coordinates, [distance_from] gives the same number, which is not
    negative, whichever of the two it is called on, and leaves the heap
    alone.  (On floats the square of a difference can overflow.) *)
Theorem distance_from_symmetric (a b : wref) (h : heap R)
        (ka kb : Walker R) :
  nth_error h a = Some ka -> nth_error h b = Some kb ->
  length (position ka) = length (position kb) ->
  exists d,
    distance_from a b h = (Ok d, h) /\
    distance_from b a h = (Ok d, h) /\
    0 <= d.
Proof.
  intros Ea Eb L. exists (dist (position ka) (position kb)).
  rewrite (distance_from_run a b h ka kb Ea Eb) by lia.
  rewrite (distance_from_run b a h kb ka Eb Ea) by lia.
  split; [reflexivity |]. split.
  - unfold dist. rewrite (sum_squares_sym _ _ L). reflexivity.
  - apply sqrt_pos.
Qed.

(** X13. In exact arithmetic, between two walkers with as many
    coordinates, [distance_from] returns 0 exactly when the two positions
    are equal.  (On floats the square of a small difference underflows
    to 0.) *)
Theorem distance_from_zero_iff (a b : wref) (h : heap R)
        (ka kb : Walker R) :
  nth_error h a = Some ka -> nth_error h b = Some kb ->
  length (position ka) = length (position kb) ->
  (distance_from a b h = (Ok 0, h) <-> position ka = position kb).
Proof.
  intros Ea Eb L.
  rewrite (distance_from_run a b h ka kb Ea Eb) by lia.
  unfold dist. split.
  - intros [= E]. apply (sum_squares_zero _ _ L).
    apply sqrt_eq_0; [apply sum_squares_nonneg | exact E].
  - intros <-. rewrite sum_squares_same, sqrt_0. reflexivity.
Qed.

End DistanceFacts.

Lemma map_each_stops {H A B} (f : A -> M H B) (l1 : list A) x l2 h e :
  (forall y, In y l1 -> snd (f y h) = h) ->
  f x h = (Raise e, h) ->
  exists e', map_each f (l1 ++ x :: l2) h = (Raise e', h).
Proof.
  induction l1 as [| y l1 IH]; intros Hl1 Hx; simpl.
  - exists e. rewrite (bind_Raise _ Hx). reflexivity.
  - pose proof (Hl1 y (or_introl eq_refl)) as Hy.
    destruct (f y h) as [[v | e1] h1] eqn:Ey; simpl in Hy; subst h1.
    + rewrite (bind_Ok _ Ey).
      destruct (IH (fun z Hz => Hl1 z (or_intror Hz)) Hx) as [e' E'].
      exists e'. rewrite (bind_Raise _ E'). reflexivity.
    + exists e1. rewrite (bind_Raise _ Ey). reflexivity.
Qed.

Section DistanceErrors.

Context {num : Type} `{Fractional num}.

(** One item of the comprehension of [distance_from], both coordinates
    being there. *)
Lemma square_step a b (h : heap num) ka kb i p q :
  nth_error h a = Some ka -> nth_error h b = Some kb ->
  nth_error (position ka) i = Some p -> nth_error (position kb) i = Some q ->
  (q0 <- load_coord b i ;; p0 <- load_coord a i ;;
   lift (nsquare (nsub q0 p0))) h
  = (nsquare (nsub q p), h).
Proof.
  intros Ea Eb Ep Eq.
  rewrite (bind_Ok _ (load_coord_run _ _ _ _ _ Eb Eq)).
  rewrite (bind_Ok _ (load_coord_run _ _ _ _ _ Ea Ep)).
  reflexivity.
Qed.

Lemma squares_run a b (h : heap num) ka kb :
  nth_error h a = Some ka -> nth_error h b = Some kb ->
  forall todo done,
    position ka = done ++ todo ->
    length done + length todo <= length (position kb) ->
    map_each
      (fun i => q <- load_coord b i ;; p <- load_coord a i ;;
                lift (nsquare (nsub q p)))
      (seq (length done) (length todo)) h
    = (comprehension (fun pq => nsquare (nsub (snd pq) (fst pq)))
                     (combine todo (skipn (length done) (position kb))), h).
Proof.
  intros Ea Eb. induction todo as [| p todo IH]; intros done Epos L.
  - reflexivity.
  - simpl length in *. simpl seq. simpl map_each.
    destruct (nth_error_lt (position kb) (length done)) as [q Eq]; [lia |].
    assert (Ep : nth_error (position ka) (length done) = Some p)
      by (rewrite Epos; apply nth_error_middle).
    rewrite (skipn_cons_nth _ _ _ Eq). cbn [combine comprehension fst snd].
    pose proof (square_step a b h ka kb (length done) p q Ea Eb Ep Eq)
      as Estep.
    destruct (nsquare (nsub q p)) as [v | e].
    + rewrite (bind_Ok _ Estep). cbn [rbind].
      specialize (IH (done ++ [p])). rewrite length_app in IH.
      simpl length in IH.
      replace (length done + 1) with (S (length done)) in IH by lia.
      specialize (IH ltac:(rewrite <- app_assoc; exact Epos) ltac:(lia)).
      destruct (comprehension _ _) as [ys | e].
      * rewrite (bind_Ok _ IH). reflexivity.
      * rewrite (bind_Raise _ IH). reflexivity.
    + rewrite (bind_Raise _ Estep). reflexivity.
Qed.

(** X14. Whatever the numbers, exact or floating: [distance_from] never
    returns when the other walker has fewer coordinates, and what it
    raises is IndexError unless the square of one of the differences it
    took before raised first (on floats, OverflowError); when the other
    walker has as many coordinates or more, it only computes on the
    coordinates that face each other, raising what [** 2] or [sqrt]
    raise and nothing else.  The heap is left alone in every case. *)
Theorem distance_from_index_error (a b : wref) (h : heap num)
        (ka kb : Walker num) :
  nth_error h a = Some ka -> nth_error h b = Some kb ->
  (length (position kb) < length (position ka) ->
   (exists e, distance_from a b h = (Raise e, h)) /\
   (Forall (fun pq => exists v, nsquare (nsub (snd pq) (fst pq)) = Ok v)
           (combine (position ka) (position kb)) ->
    distance_from a b h = (Raise IndexError, h))) /\
  (length (position ka) <= length (position kb) ->
   distance_from a b h = (distance (position ka) (position kb), h)).
Proof.
  intros Ea Eb. split.
  - intro Hlt.
    set (m := length (position kb)) in *.
    set (n := length (position ka)) in *.
    assert (En : nth_error (position kb) m = None)
      by (apply nth_error_None; unfold m; lia).
    assert (El : load_coord b m h = (Raise IndexError, h)).
    { unfold load_coord.
      rewrite (bind_Ok _ (load_position_run _ _ _ Eb)).
      unfold lift, getitem. rewrite En. reflexivity. }
    assert (Hin : forall i, In i (seq 0 m) ->
              exists p q, nth_error (position ka) i = Some p /\
                          nth_error (position kb) i = Some q).
    { intros i Hi. apply in_seq in Hi.
      destruct (nth_error_lt (position kb) i) as [q Eq]; [fold m; lia |].
      destruct (nth_error_lt (position ka) i) as [p Ep]; [fold n; lia |].
      eauto. }
    unfold distance_from.
    rewrite !(bind_Ok _ (load_position_run _ _ _ Ea)).
    fold n. rewrite (seq_split n m Hlt). split.
    + destruct (map_each_stops
                  (fun i => q <- load_coord b i ;; p <- load_coord a i ;;
                            lift (nsquare (nsub q p)))
                  (seq 0 m) m (seq (S m) (n - S m)) h IndexError)
        as [e' E'].
      * intros i Hi. destruct (Hin i Hi) as (p & q & Ep & Eq).
        rewrite (square_step a b h ka kb i p q Ea Eb Ep Eq). reflexivity.
      * rewrite (bind_Raise _ El). reflexivity.
      * exists e'. rewrite (bind_Raise _ E'). reflexivity.
    + intro Hsq. rewrite Forall_forall in Hsq.
      rewrite (bind_Raise _ (e := IndexError) (h1 := h)); [reflexivity |].
      apply map_each_raise.
      * intros i Hi. destruct (Hin i Hi) as (p & q & Ep & Eq).
        destruct (Hsq (p, q) (in_combine_nth _ _ _ _ _ Ep Eq)) as [v Ev].
        exists v.
        rewrite (square_step a b h ka kb i p q Ea Eb Ep Eq).
        simpl in Ev. rewrite Ev. reflexivity.
      * rewrite (bind_Raise _ El). reflexivity.
  - intro Hle. unfold distance_from, distance.
    rewrite (bind_Ok _ (load_position_run _ _ _ Ea)).
    pose proof (squares_run a b h ka kb Ea Eb (position ka) [] eq_refl Hle)
      as Esq.
    simpl in Esq.
    destruct (comprehension _ (combine (position ka) (position kb)))
      as [squares | e].
    + rewrite (bind_Ok _ Esq). reflexivity.
    + rewrite (bind_Raise _ Esq). reflexivity.
Qed.

End DistanceErrors.

(** * More of WalkingSystem.next_state *)

Section NextStateFacts.

Context {num : Type} `{Number num}.

(** X15. No call of [next_state], no resumption of the [states]
    generator and no call of [compute_3d_vectrices] changes the number
    of walker objects or the number of coordinates of any of them,
    whether it returns or raises. *)
Theorem dimensions_never_change (self : WalkingSystem num) (h : heap num) :
  (forall n, shape (snd (next_states n self h)) = shape h) /\
  (forall g, shape (snd (gen_next self g h)) = shape h) /\
  shape (snd (compute_3d_vectrices self h)) = shape h.
Proof.
  pose proof (quiet_shape self) as Hq. repeat split.
  - intro n. apply preserves_next_states. exact Hq.
  - intro g. apply preserves_gen_next. exact Hq.
  - apply preserves_compute_3d_vectrices. exact Hq.
Qed.

Lemma store_coord_elsewhere w w' i (v : num) :
  w' <> w -> preserves (fun h : heap num => nth_error h w) (store_coord w' i v).
Proof.
  intros Hne h. unfold store_coord, bind, deref, lift, put.
  destruct (nth_error h w') as [k |] eqn:E; simpl; [| reflexivity].
  destruct (setitem (position k) i v) as [pos |]; simpl; [| reflexivity].
  apply heap_set_other. exact Hne.
Qed.

Lemma quiet_elsewhere (self : WalkingSystem num) w :
  (forall entry, In entry (walkers self) -> fst entry = w -> snd entry = []) ->
  quiet (fun h : heap num => nth_error h w) self.
Proof.
  intros Hw entry rel i He Hrel. apply preserves_axis_step. intro v.
  apply store_coord_elsewhere. intro E.
  rewrite (Hw entry He E) in Hrel. destruct Hrel.
Qed.

(** X16. A walker that has no relation of its own, or is no key of the
    [walkers] dict at all, is left exactly as it is by any number of
    calls of [next_state] and by [compute_3d_vectrices], however many
    walkers are related to it. *)
Theorem walker_without_relations_stays (self : WalkingSystem num)
        (h : heap num) (w : wref) :
  (forall entry, In entry (walkers self) -> fst entry = w -> snd entry = []) ->
  (forall n, nth_error (snd (next_states n self h)) w = nth_error h w) /\
  nth_error (snd (compute_3d_vectrices self h)) w = nth_error h w.
Proof.
  intro Hw. pose proof (quiet_elsewhere self w Hw) as Hq. split.
  - intro n.
    apply (preserves_next_states (fun h : heap num => nth_error h w)).
    exact Hq.
  - apply (preserves_compute_3d_vectrices
             (fun h : heap num => nth_error h w)).
    exact Hq.
Qed.

(** The loop over the axes on a part of the coordinates only. *)
Lemma axis_loop_prefix w r (c : num) kr :
  w <> r ->
  forall todo done rest (h : heap num) kw,
    nth_error h w = Some kw -> nth_error h r = Some kr ->
    position kw = done ++ todo ++ rest ->
    length done + length todo <= length (position kr) ->
    for_each (seq (length done) (length todo)) (axis_step w r c) h
    = (Ok tt,
       heap_set w
         (with_position kw
            (done ++ move c todo (skipn (length done) (position kr)) ++ rest))
         h).
Proof.
  intro Hne.
  induction todo as [| p todo IH]; intros done rest h kw Ew Er Epos L.
  - simpl in *. unfold move. simpl. rewrite <- Epos, with_position_same.
    rewrite (heap_set_same _ _ _ Ew). reflexivity.
  - simpl length in *. simpl seq. simpl for_each.
    destruct (nth_error_lt (position kr) (length done)) as [q Eq]; [lia |].
    assert (Ep : nth_error (position kw) (length done) = Some p)
      by (rewrite Epos; apply nth_error_middle).
    assert (Es : setitem (position kw) (length done) (blend c p q)
                 = Ok (done ++ blend c p q :: todo ++ rest)).
    { rewrite Epos. unfold setitem. simpl app.
      apply modify_nth_app. reflexivity. }
    set (kw1 := with_position kw (done ++ blend c p q :: todo ++ rest)).
    assert (Estep : axis_step w r c (length done) h
                    = (Ok tt, heap_set w kw1 h)).
    { rewrite (axis_step_run _ _ _ _ _ _ _ _ _ Ew Ep Er Eq).
      apply (store_coord_run _ _ _ _ _ _ Ew Es). }
    rewrite (bind_Ok _ Estep).
    specialize (IH (done ++ [blend c p q]) rest (heap_set w kw1 h) kw1).
    rewrite length_app in IH. simpl length in IH.
    replace (length done + 1) with (S (length done)) in IH by lia.
    rewrite IH.
    + rewrite heap_set_twice. unfold kw1. rewrite with_position_twice.
      rewrite (skipn_cons_nth _ _ _ Eq). unfold move. simpl.
      rewrite <- app_assoc. reflexivity.
    + apply heap_set_lookup with (k0 := kw). exact Ew.
    + rewrite heap_set_other; [exact Er | exact Hne].
    + unfold kw1. simpl. rewrite <- app_assoc. reflexivity.
    + lia.
Qed.

(** X17. [next_state] is not all or nothing. When the first relation of
    the first walker leads to a walker with fewer coordinates, the call
    raises IndexError after it has moved the coordinates that the two
    walkers share: these are written, the others are as they were. *)
Theorem next_state_partial_write (self : WalkingSystem num) (h : heap num)
        (w r : wref) (c : num) rels ws (kw kr : Walker num) :
  walkers self = (w, (r, c) :: rels) :: ws ->
  w <> r -> nth_error h w = Some kw -> nth_error h r = Some kr ->
  length (position kr) < length (position kw) ->
  next_state self h
  = (Raise IndexError,
     heap_set w
       (with_position kw
          (move c (firstn (length (position kr)) (position kw)) (position kr)
           ++ skipn (length (position kr)) (position kw)))
       h).
Proof.
  intros Ews Hne Ew Er Hlt.
  set (m := length (position kr)) in *.
  set (kw1 := with_position kw
                (move c (firstn m (position kw)) (position kr)
                 ++ skipn m (position kw))).
  assert (Lf : length (firstn m (position kw)) = m)
    by (apply firstn_length_le; lia).
  assert (E1 : for_each (seq 0 m) (axis_step w r c) h
               = (Ok tt, heap_set w kw1 h)).
  { pose proof (axis_loop_prefix w r c kr Hne (firstn m (position kw)) []
                  (skipn m (position kw)) h kw Ew Er) as Hloop.
    rewrite Lf in Hloop. simpl in Hloop. apply Hloop.
    - symmetry. apply firstn_skipn.
    - unfold m. lia. }
  assert (Ew1 : nth_error (heap_set w kw1 h) w = Some kw1)
    by (apply heap_set_lookup with (k0 := kw); exact Ew).
  assert (Er1 : nth_error (heap_set w kw1 h) r = Some kr)
    by (rewrite heap_set_other; [exact Er | exact Hne]).
  assert (E2 : axis_step w r c m (heap_set w kw1 h)
               = (Raise IndexError, heap_set w kw1 h)).
  { destruct (nth_error_lt (position kw1) m) as [p Ep].
    { unfold kw1. simpl. rewrite length_app, length_skipn.
      unfold move. rewrite length_map, length_combine, Lf. fold m. lia. }
    unfold axis_step.
    rewrite (bind_Ok _ (load_coord_run _ _ _ _ _ Ew1 Ep)).
    assert (El : load_coord r m (heap_set w kw1 h)
                 = (Raise IndexError, heap_set w kw1 h)).
    { unfold load_coord.
      rewrite (bind_Ok _ (load_position_run _ _ _ Er1)).
      unfold lift, getitem.
      replace (nth_error (position kr) m) with (@None num);
        [reflexivity |].
      symmetry. apply nth_error_None. unfold m. lia. }
    rewrite (bind_Raise _ El). reflexivity. }
  assert (E3 : relation_step w (r, c) h
               = (Raise IndexError, heap_set w kw1 h)).
  { unfold relation_step.
    rewrite (bind_Ok _ (load_position_run _ _ _ Ew)). simpl fst. simpl snd.
    rewrite (seq_split (length (position kw)) m Hlt), for_each_app.
    rewrite (bind_Ok _ E1). simpl for_each.
    rewrite (bind_Raise _ E2). reflexivity. }
  assert (E4 : walker_step (w, (r, c) :: rels) h
               = (Raise IndexError, heap_set w kw1 h)).
  { unfold walker_step. simpl fst. simpl snd.
    rewrite (bind_Ok _ (load_position_run _ _ _ Ew)). simpl for_each.
    rewrite (bind_Raise _ E3). reflexivity. }
  unfold next_state. rewrite Ews. simpl for_each.
  rewrite (bind_Raise _ (bind_Raise _ E4)). reflexivity.
Qed.

(** One call of [next_state] on a walker attracted by another one that
    is attracted by nothing. *)
Lemma next_state_single (self : WalkingSystem num) (r : num)
      (ka kb : Walker num) :
  walkers self = [(0, [(1, r)])] ->
  length (position ka) <= length (position kb) ->
  next_state self [ka; kb]
  = (Ok [0],
     [with_position ka (move r (position ka) (position kb)); kb]).
Proof.
  intros Ews L.
  set (ka1 := with_position ka (move r (position ka) (position kb))).
  assert (W1 : walker_step (0, [(1, r)]) [ka; kb] = (Ok tt, [ka1; kb])).
  { unfold walker_step. simpl fst. simpl snd.
    rewrite (bind_Ok _ (load_position_run 0 [ka; kb] ka eq_refl)).
    simpl for_each.
    rewrite (bind_Ok _ (relation_step_exact 0 1 r [ka; kb] ka kb
                          ltac:(lia) eq_refl eq_refl L)).
    reflexivity. }
  unfold next_state. rewrite Ews. simpl for_each.
  rewrite (bind_Ok _ (bind_Ok _ W1)).
  unfold get_current_state. rewrite Ews. reflexivity.
Qed.

End NextStateFacts.

Section Attractor.

Open Scope R_scope.

Lemma move_approach r ps qs : move r ps qs = approach (1 - r) ps qs.
Proof.
  unfold move, approach, blend. apply map_ext. intros [p q]. simpl. ring.
Qed.

Lemma approach_twice t s ps :
  forall qs, (length ps <= length qs)%nat ->
    approach t (approach s ps qs) qs = approach (t * s) ps qs.
Proof.
  unfold approach.
  induction ps as [| p ps IH]; intros [| q qs] L; simpl in *;
    try reflexivity; try lia.
  rewrite IH by lia. f_equal. ring.
Qed.

Lemma approach_all ps :
  forall qs, (length ps <= length qs)%nat -> approach 1 ps qs = ps.
Proof.
  unfold approach.
  induction ps as [| p ps IH]; intros [| q qs] L; simpl in *;
    try reflexivity; try lia.
  rewrite IH by lia. f_equal. ring.
Qed.

Lemma approach_none ps :
  forall qs, length ps = length qs -> approach 0 ps qs = qs.
Proof.
  unfold approach.
  induction ps as [| p ps IH]; intros [| q qs] L; simpl in *;
    try reflexivity; try discriminate L.
  rewrite IH by lia. f_equal. ring.
Qed.

Lemma approach_length t ps qs :
  (length ps <= length qs)%nat -> length (approach t ps qs) = length ps.
Proof.
  intro L. unfold approach. rewrite length_map, length_combine. lia.
Qed.

Lemma next_states_single (self : WalkingSystem R) (r : R) (kb : Walker R) :
  walkers self = [(0%nat, [(1%nat, r)])] ->
  forall n ka,
    (length (position ka) <= length (position kb))%nat ->
    next_states n self [ka; kb]
    = (Ok tt,
       [with_position ka
          (approach ((1 - r) ^ n) (position ka) (position kb)); kb]).
Proof.
  intro Ews. induction n as [| n IH]; intros ka L.
  - simpl. rewrite (approach_all _ _ L), with_position_same. reflexivity.
  - simpl next_states.
    rewrite (bind_Ok _ (next_state_single self r ka kb Ews L)).
    rewrite IH by (simpl; rewrite move_length; lia).
    simpl position. rewrite with_position_twice, move_approach.
    rewrite (approach_twice _ _ _ _ L).
    replace ((1 - r) ^ n * (1 - r)) with ((1 - r) ^ S n) by (simpl; ring).
    reflexivity.
Qed.

(** X18. A walker attracted with coefficient [r] by one walker that
    nothing attracts is, after [n] calls of [next_state], at
    [q + (1 - r)^n (p - q)] on every axis, [p] being where it started and
    [q] where the other walker stays; with [r = 1] it is on the other
    walker from the first call on. *)
Theorem single_attractor_closed_form (self : WalkingSystem R) (r : R)
        (ka kb : Walker R) (n : nat) :
  walkers self = [(0%nat, [(1%nat, r)])] ->
  length (position ka) = length (position kb) ->
  next_states n self [ka; kb]
  = (Ok tt,
     [with_position ka (approach ((1 - r) ^ n) (position ka) (position kb));
      kb]) /\
  (r = 1 -> (1 <= n)%nat ->
   next_states n self [ka; kb]
   = (Ok tt, [with_position ka (position kb); kb])).
Proof.
  intros Ews L.
  assert (E : next_states n self [ka; kb]
              = (Ok tt,
                 [with_position ka
                    (approach ((1 - r) ^ n) (position ka) (position kb));
                  kb]))
    by (apply next_states_single; [exact Ews | lia]).
  split; [exact E |].
  intros -> Hn. rewrite E.
  replace ((1 - 1) ^ n) with 0.
  - rewrite (approach_none _ _ L). reflexivity.
  - destruct n as [| n]; [lia |]. simpl. ring.
Qed.

End Attractor.

(** * More of WalkingSystem.states *)

Section GeneratorFacts.

Context {num : Type} `{Number num}.

Lemma next_states_well_formed (self : WalkingSystem num) (h : heap num) n :
  well_formed self (snd (next_states n self h)) = well_formed self h.
Proof.
  apply well_formed_shape. apply preserves_next_states. apply quiet_shape.
Qed.

Lemma next_states_add (self : WalkingSystem num) n k :
  forall h, well_formed self h = true ->
    next_states (n + k) self h
    = next_states k self (snd (next_states n self h)).
Proof.
  induction n as [| n IH]; intros h Hwf.
  - reflexivity.
  - simpl plus. rewrite !(next_states_succ _ _ _ Hwf). apply IH.
    rewrite next_state_well_formed. exact Hwf.
Qed.

Lemma list_loop (self : WalkingSystem num) :
  forall rest acc h,
    well_formed self h = true ->
    loop_from self rest (fun acc st => ret (acc ++ [st])) acc h
    = (Ok (acc ++ repeat (map fst (walkers self)) (length rest)),
       snd (next_states (length rest) self h)).
Proof.
  induction rest as [| x rest IH]; intros acc h Hwf.
  - simpl. rewrite app_nil_r. reflexivity.
  - simpl loop_from.
    rewrite (bind_Ok _ (get_current_state_run _ _ Hwf)), bind_ret_l.
    rewrite (bind_Ok _ (next_state_run _ _ Hwf)).
    rewrite IH by (rewrite next_state_well_formed; exact Hwf).
    simpl length. rewrite (next_states_succ _ _ _ Hwf), <- app_assoc.
    reflexivity.
Qed.

(** X19. [list(self.states())] on a well-formed system is [iterations]
    times the same tuple of the same position lists: once the generator
    is used up, every state of the list reads as the positions after
    [iterations] calls of [next_state], the trajectory is not in it. *)
Theorem listed_states_are_aliases (self : WalkingSystem num)
        (h : heap num) :
  well_formed self h = true ->
  let n := Z.to_nat (iterations self) in
  let h_n := snd (next_states n self h) in
  list_states self h = (Ok (repeat (map fst (walkers self)) n), h_n) /\
  forall st, In st (repeat (map fst (walkers self)) n) ->
    snapshot st h_n = (Ok (positions self h_n), h_n).
Proof.
  intros Hwf n h_n. split.
  - unfold list_states, states. rewrite for_states_created.
    rewrite from_head_loop by apply le_n.
    rewrite (list_loop self _ [] h Hwf).
    unfold range. rewrite length_seq. reflexivity.
  - intros st Hst. apply repeat_spec in Hst. subst st.
    apply snapshot_run. unfold h_n.
    rewrite next_states_well_formed. exact Hwf.
Qed.

(** X20. The generator cannot be restarted: a second run of [states] on
    the same system goes on from where the first one stopped, its [k]-th
    state showing the positions after [iterations + k] calls of
    [next_state]. *)
Theorem second_run_continues (self : WalkingSystem num) (h : heap num) :
  well_formed self h = true ->
  let n := Z.to_nat (iterations self) in
  exists snaps1 snaps2,
    collect_states self h = (Ok snaps1, snd (next_states n self h)) /\
    collect_states self (snd (next_states n self h))
    = (Ok snaps2, snd (next_states (n + n) self h)) /\
    length snaps2 = n /\
    forall k, k < n ->
      nth_error snaps2 k
      = Some (positions self (snd (next_states (n + k) self h))).
Proof.
  intros Hwf n.
  assert (Hwf1 : well_formed self (snd (next_states n self h)) = true)
    by (rewrite next_states_well_formed; exact Hwf).
  destruct (collect_from_head self (range (iterations self))
              (length (range (iterations self))) [] h (le_n _) Hwf)
    as (snaps1 & E1 & L1 & _).
  destruct (collect_from_head self (range (iterations self))
              (length (range (iterations self))) []
              (snd (next_states n self h)) (le_n _) Hwf1)
    as (snaps2 & E2 & L2 & N2).
  unfold range in *. rewrite length_seq in *. fold n in E1, E2, L2, N2.
  exists snaps1, snaps2. unfold collect_states, states.
  rewrite !for_states_created. unfold range. rewrite length_seq. fold n.
  split; [exact E1 |]. split.
  - rewrite (next_states_add self n n h Hwf). exact E2.
  - split; [exact L2 |]. intros k Hk.
    rewrite (next_states_add self n k h Hwf). apply N2. exact Hk.
Qed.

End GeneratorFacts.

(** * More of WalkingSystem.compute_3d_vectrices *)

Section VectorizedFacts.

Context {num : Type} `{Number num}.

Lemma record_coord_at nw (done todo : curvesT num) c0 c1 ring ring1 j
      (v : num) :
  length done < nw -> j < 3 ->
  append_to j v c0 = Ok c1 -> append_to j v ring = Ok ring1 ->
  record_coord nw (length done) (done ++ c0 :: todo, ring) (j, v)
  = Ok (done ++ c1 :: todo, ring1).
Proof.
  intros Hi Hj Ec Er. unfold record_coord. cbn [fst snd].
  rewrite (pymod_small _ _ Hi), (pymod_small _ _ Hj). cbn [rbind].
  rewrite (modify_nth_app _ done c0 c1 todo Ec). cbn [rbind].
  rewrite Er. reflexivity.
Qed.

(** One walker with three coordinates: its curve and the ring get one
    coordinate each per axis. *)
Lemma record_position_at nw (done todo : curvesT num) cx cy cz a b c
      (x y z : num) :
  length done < nw ->
  rfold (record_coord nw (length done)) (enumerate [x; y; z])
        (done ++ [cx; cy; cz] :: todo, [a; b; c])
  = Ok (done ++ extend_curve [cx; cy; cz] [x; y; z] :: todo,
        [a ++ [x]; b ++ [y]; c ++ [z]]).
Proof.
  intro Hi. unfold enumerate. simpl combine. simpl rfold.
  rewrite (record_coord_at nw done todo [cx; cy; cz] [cx ++ [x]; cy; cz]
             [a; b; c] [a ++ [x]; b; c] 0 x Hi ltac:(lia) eq_refl eq_refl).
  cbn [rbind].
  rewrite (record_coord_at nw done todo [cx ++ [x]; cy; cz]
             [cx ++ [x]; cy ++ [y]; cz]
             [a ++ [x]; b; c] [a ++ [x]; b ++ [y]; c] 1 y Hi ltac:(lia)
             eq_refl eq_refl).
  cbn [rbind].
  rewrite (record_coord_at nw done todo [cx ++ [x]; cy ++ [y]; cz]
             [cx ++ [x]; cy ++ [y]; cz ++ [z]]
             [a ++ [x]; b ++ [y]; c] [a ++ [x]; b ++ [y]; c ++ [z]] 2 z Hi
             ltac:(lia) eq_refl eq_refl).
  reflexivity.
Qed.

Lemma record_walkers_content nw (h : heap num) :
  forall (ws : walkers_dict num) (done todo : curvesT num) a b c,
    forallb
      (fun entry : wref * relations num =>
         match nth_error (shape h) (fst entry) with
         | Some n => n =? 3
         | None => false
         end) ws = true ->
    length todo = length ws ->
    Forall (fun c => length c = 3) todo ->
    length done + length ws <= nw ->
    fold_each (combine (seq (length done) (length ws)) (map fst ws))
              (record_walker nw) (done ++ todo, [a; b; c]) h
    = (Ok (done ++ extend todo (system_positions ws h),
           [a ++ column 0 (system_positions ws h);
            b ++ column 1 (system_positions ws h);
            c ++ column 2 (system_positions ws h)]), h).
Proof.
  induction ws as [| entry ws IH]; intros done todo a b c H3 Lt Ft Ln.
  - destruct todo; [| discriminate Lt]. simpl.
    unfold column. simpl. rewrite !app_nil_r. reflexivity.
  - destruct todo as [| c0 todo]; [discriminate Lt |].
    simpl in H3. apply andb_prop in H3 as [He Hws].
    destruct (nth_error (shape h) (fst entry)) as [n |] eqn:Hw;
      [| discriminate].
    apply Nat.eqb_eq in He. subst n.
    destruct (lookup_of_shape _ _ _ Hw) as (k & Ek & Lk).
    destruct (position k) as [| x [| y [| z [| ? ?]]]] eqn:Epos;
      try discriminate Lk.
    inversion Ft as [| ? ? L0 Ft']; subst.
    destruct c0 as [| cx [| cy [| cz [| ? ?]]]]; try discriminate L0.
    simpl length in *. simpl map. simpl seq. simpl combine.
    simpl fold_each. unfold record_walker at 1. cbn [fst snd].
    rewrite bind_assoc, (bind_Ok _ (load_position_run _ _ _ Ek)), Epos.
    unfold lift, bind at 1.
    rewrite (record_position_at nw done todo cx cy cz a b c x y z)
      by lia.
    specialize (IH (done ++ [extend_curve [cx; cy; cz] [x; y; z]]) todo
                  (a ++ [x]) (b ++ [y]) (c ++ [z]) Hws).
    rewrite length_app in IH. simpl length in IH.
    replace (length done + 1) with (S (length done)) in IH by lia.
    rewrite <- app_assoc in IH. simpl app in IH.
    rewrite IH by (auto; lia).
    assert (Esp : system_positions (entry :: ws) h
                  = [x; y; z] :: system_positions ws h).
    { unfold system_positions. simpl map. rewrite Ek, Epos. reflexivity. }
    rewrite Esp, <- !app_assoc. reflexivity.
Qed.

Lemma extend_curves_ok nw (crvs : curvesT num) ps :
  curves_ok nw crvs -> length ps = nw -> curves_ok nw (extend crvs ps).
Proof.
  intros [L F] Lp. split.
  - unfold extend. rewrite length_map, length_combine. lia.
  - unfold extend. apply Forall_forall. intros c Hc.
    apply in_map_iff in Hc as ([c0 p] & <- & Hin).
    apply in_combine_l in Hin. rewrite Forall_forall in F.
    specialize (F c0 Hin). simpl.
    unfold extend_curve. rewrite length_map, length_combine, F. reflexivity.
Qed.

Lemma positions_length (self : WalkingSystem num) (h : heap num) :
  length (positions self h) = length (walkers self).
Proof. unfold positions. apply length_map. Qed.

(** the body of the loop of [compute_3d_vectrices] on one state *)
Lemma record_state_content (self : WalkingSystem num) (h : heap num)
      crvs rngs :
  walkers self <> [] ->
  three_dimensional self h = true ->
  curves_ok (length (walkers self)) crvs ->
  record_state self (crvs, rngs) (map fst (walkers self)) h
  = (Ok (extend crvs (positions self h),
         rngs ++ [ring_of (positions self h)]), h).
Proof.
  intros Hne H3 [Lc Fc]. unfold record_state, enumerate. cbn [fst snd].
  rewrite length_map. change (repeat [] 3) with [@nil num; []; []].
  pose proof (record_walkers_content (length (walkers self)) h
                (walkers self) [] crvs [] [] [] H3 Lc Fc ltac:(simpl; lia))
    as E.
  simpl length in E. simpl app in E.
  fold (positions self h) in E. unfold system_positions in E.
  fold (positions self h) in E.
  rewrite (bind_Ok _ E). cbn [fst snd].
  assert (Hring : close_ring [column 0 (positions self h);
                              column 1 (positions self h);
                              column 2 (positions self h)]
                  = Ok (ring_of (positions self h))).
  { unfold positions. unfold three_dimensional in H3.
    destruct (walkers self) as [| entry ws]; [congruence |].
    simpl in H3. apply andb_prop in H3 as [He _].
    destruct (nth_error (shape h) (fst entry)) as [n |] eqn:Hw;
      [| discriminate].
    apply Nat.eqb_eq in He. subst n.
    destruct (lookup_of_shape _ _ _ Hw) as (k & Ek & Lk).
    destruct (position k) as [| x [| y [| z [| ? ?]]]] eqn:Epos;
      try discriminate Lk.
    simpl map. rewrite Ek, Epos. reflexivity. }
  unfold lift, bind, ret. rewrite Hring. reflexivity.
Qed.

Lemma trajectory_succ (self : WalkingSystem num) (h : heap num) n :
  well_formed self h = true ->
  trajectory self h (S n)
  = positions self h :: trajectory self (snd (next_state self h)) n.
Proof.
  intro Hwf. unfold trajectory. simpl seq. simpl map. f_equal.
  rewrite <- seq_shift, map_map. apply map_ext. intro k.
  rewrite (next_states_succ _ _ _ Hwf). reflexivity.
Qed.

Lemma compute_loop_content (self : WalkingSystem num) :
  walkers self <> [] ->
  forall rest crvs rngs h,
    well_formed self h = true -> three_dimensional self h = true ->
    curves_ok (length (walkers self)) crvs ->
    loop_from self rest (record_state self) (crvs, rngs) h
    = (Ok (fold_left extend (trajectory self h (length rest)) crvs,
           rngs ++ map ring_of (trajectory self h (length rest))),
       snd (next_states (length rest) self h)).
Proof.
  intro Hne.
  induction rest as [| x rest IH]; intros crvs rngs h Hwf H3 Hc.
  - simpl. rewrite app_nil_r. reflexivity.
  - simpl loop_from.
    rewrite (bind_Ok _ (get_current_state_run _ _ Hwf)).
    rewrite (bind_Ok _ (record_state_content self h crvs rngs Hne H3 Hc)).
    rewrite (bind_Ok _ (next_state_run _ _ Hwf)).
    rewrite IH.
    + simpl length. rewrite (trajectory_succ _ _ _ Hwf).
      rewrite (next_states_succ _ _ _ Hwf). simpl fold_left. simpl map.
      rewrite <- app_assoc. reflexivity.
    + rewrite next_state_well_formed. exact Hwf.
    + rewrite (three_dimensional_shape _ _ _ (next_state_shape self h)).
      exact H3.
    + apply extend_curves_ok; [exact Hc | apply positions_length].
Qed.

Lemma history_snoc i j (snaps : list (list (list num))) ps :
  history i j (snaps ++ [ps])
  = history i j snaps
    ++ match nth_error ps i with Some p => coord j p | None => [] end.
Proof.
  unfold history. rewrite flat_map_app. simpl. rewrite app_nil_r.
  reflexivity.
Qed.

Lemma extend_rows (snaps : list (list (list num))) ps :
  forall todo pre,
    ps = pre ++ todo ->
    extend
      (map (fun i => map (fun j => history i j snaps) [0; 1; 2])
           (seq (length pre) (length todo)))
      todo
    = map (fun i => map (fun j => history i j (snaps ++ [ps])) [0; 1; 2])
          (seq (length pre) (length todo)).
Proof.
  induction todo as [| p todo IH]; intros pre E.
  - reflexivity.
  - simpl length. simpl seq. simpl map. unfold extend. simpl combine.
    simpl map. f_equal.
    + unfold extend_curve. simpl. rewrite !history_snoc, E.
      rewrite nth_error_middle. reflexivity.
    + specialize (IH (pre ++ [p])). rewrite length_app in IH.
      simpl length in IH.
      replace (length pre + 1) with (S (length pre)) in IH by lia.
      apply IH. rewrite <- app_assoc. exact E.
Qed.

Lemma fold_extend_curves nw (snaps : list (list (list num))) :
  Forall (fun ps => length ps = nw) snaps ->
  fold_left extend snaps (repeat (repeat [] 3) nw) = curves_of nw snaps.
Proof.
  induction snaps as [| ps snaps IH] using rev_ind; intro F.
  - simpl. unfold curves_of. unfold history. simpl.
    generalize 0 as k. clear F.
    induction nw as [| nw IHn]; intro k; [reflexivity |].
    simpl. f_equal. apply IHn.
  - apply Forall_app in F as [F Fp]. inversion Fp as [| ? ? Lp _]; subst.
    rewrite fold_left_app. cbn [fold_left]. rewrite (IH F). unfold curves_of.
    apply (extend_rows snaps ps ps [] eq_refl).
Qed.

Lemma trajectory_lengths (self : WalkingSystem num) (h : heap num) n :
  Forall (fun ps => length ps = length (walkers self)) (trajectory self h n).
Proof.
  apply Forall_forall. intros ps Hps. unfold trajectory in Hps.
  apply in_map_iff in Hps as (k & <- & _). apply positions_length.
Qed.

(** what [compute_3d_vectrices] returns, in full *)
Lemma compute_3d_vectrices_content (self : WalkingSystem num)
      (h : heap num) :
  walkers self <> [] ->
  well_formed self h = true -> three_dimensional self h = true ->
  let n := Z.to_nat (iterations self) in
  let crvs := curves_of (length (walkers self)) (trajectory self h n) in
  let rngs := map ring_of (trajectory self h n) in
  compute_3d_vectrices self h
  = (Ok (set_rings (set_curves self (Some crvs)) (Some rngs), (crvs, rngs)),
     snd (next_states n self h)).
Proof.
  intros Hne Hwf H3 n crvs rngs.
  rewrite compute_3d_vectrices_total.
  rewrite (bind_Ok _ (compute_loop_content self Hne _ _ [] h Hwf H3
                        (initial_curves_ok _))).
  unfold range. rewrite length_seq. fold n. simpl app.
  rewrite (fold_extend_curves _ _ (trajectory_lengths self h n)).
  reflexivity.
Qed.

(** X21. On a well-formed system of at least one walker, all with three
    coordinates, the rings returned by [compute_3d_vectrices] are, in
    order, the rings of the positions before each of the [iterations]
    calls of [next_state] it makes: axis [j] of ring [k] lists coordinate
    [j] of every walker at step [k], in the order of the dict, and then
    the one of the first walker again. *)
Theorem rings_hold_the_positions (self : WalkingSystem num) (h : heap num) :
  walkers self <> [] ->
  well_formed self h = true -> three_dimensional self h = true ->
  exists self' crvs,
    compute_3d_vectrices self h
    = (Ok (self',
           (crvs,
            map ring_of (trajectory self h (Z.to_nat (iterations self))))),
       snd (next_states (Z.to_nat (iterations self)) self h)).
Proof.
  intros Hne Hwf H3.
  rewrite (compute_3d_vectrices_content self h Hne Hwf H3). eauto.
Qed.

Lemma positions_three (self : WalkingSystem num) (h : heap num) :
  three_dimensional self h = true ->
  Forall (fun p => length p = 3) (positions self h).
Proof.
  unfold three_dimensional, positions. intro H3.
  apply Forall_forall. intros p Hp.
  apply in_map_iff in Hp as (entry & <- & Hin).
  rewrite forallb_forall in H3. specialize (H3 entry Hin).
  destruct (nth_error (shape h) (fst entry)) as [n |] eqn:Hw;
    [| discriminate].
  apply Nat.eqb_eq in H3. subst n.
  destruct (lookup_of_shape _ _ _ Hw) as (k & -> & Lk). exact Lk.
Qed.

Lemma history_length i j (snaps : list (list (list num))) nw :
  i < nw -> j < 3 ->
  Forall (fun ps => length ps = nw /\ Forall (fun p => length p = 3) ps)
         snaps ->
  length (history i j snaps) = length snaps.
Proof.
  intros Hi Hj. induction snaps as [| ps snaps IH]; intro F.
  - reflexivity.
  - inversion F as [| ? ? [Lp Fp] F']; subst.
    unfold history in *. simpl. rewrite length_app, (IH F'). clear IH.
    destruct (nth_error_lt ps i) as [p Ep]; [lia |]. rewrite Ep.
    rewrite Forall_forall in Fp.
    specialize (Fp p (nth_error_In _ _ Ep)).
    destruct (nth_error_lt p j) as [v Ev]; [lia |].
    unfold coord. rewrite Ev. reflexivity.
Qed.

(** X22. Under the same conditions, the curves returned by
    [compute_3d_vectrices] are one per walker, in the order of the dict:
    axis [j] of curve [i] is the history of coordinate [j] of walker [i],
    one value per iteration. *)
Theorem curves_hold_the_histories (self : WalkingSystem num)
        (h : heap num) :
  walkers self <> [] ->
  well_formed self h = true -> three_dimensional self h = true ->
  let n := Z.to_nat (iterations self) in
  (exists self' rngs,
      compute_3d_vectrices self h
      = (Ok (self',
             (curves_of (length (walkers self)) (trajectory self h n), rngs)),
         snd (next_states n self h))) /\
  forall i j, i < length (walkers self) -> j < 3 ->
    length (history i j (trajectory self h n)) = n.
Proof.
  intros Hne Hwf H3 n. split.
  - rewrite (compute_3d_vectrices_content self h Hne Hwf H3). eauto.
  - intros i j Hi Hj.
    rewrite (history_length i j _ (length (walkers self)) Hi Hj).
    + unfold trajectory. rewrite length_map, length_seq. reflexivity.
    + apply Forall_forall. intros ps Hps. unfold trajectory in Hps.
      apply in_map_iff in Hps as (k & <- & _).
      split; [apply positions_length |].
      apply positions_three.
      rewrite (three_dimensional_shape self h
                 (snd (next_states k self h))); [exact H3 |].
      apply preserves_next_states. apply quiet_shape.
Qed.

End VectorizedFacts.

(** * WalkingSystem.plot *)

Lemma map_snd_enumerate {A} (xs : list A) : map snd (enumerate xs) = xs.
Proof.
  unfold enumerate. generalize 0 as k.
  induction xs as [| x xs IH]; intro k; simpl; [reflexivity |].
  rewrite IH. reflexivity.
Qed.

Section PlotFacts.

Import Plot.

Context {num : Type} `{Number num}.

Lemma slice_to_nil {A} (k : Z) : slice_to k (@nil A) = [].
Proof.
  unfold slice_to. destruct (0 <=? k)%Z; apply firstn_nil.
Qed.

Lemma slice_to_all {A} (k : Z) (xs : list A) :
  (Z.of_nat (length xs) <= k)%Z -> slice_to k xs = xs.
Proof.
  intro Hk. unfold slice_to.
  destruct (Z.leb_spec 0 k) as [_ | Hneg]; [| lia].
  apply firstn_all2. lia.
Qed.

Lemma slice_to_length {A} (k : Z) (xs : list A) :
  (0 <= k)%Z -> length (slice_to k xs) = Nat.min (Z.to_nat k) (length xs).
Proof.
  intro Hk. unfold slice_to.
  destruct (Z.leb_spec 0 k) as [_ | Hneg]; [| lia].
  apply length_firstn.
Qed.

Lemma plot_rings_run (self : WalkingSystem num) (b : backend)
      (rngs : ringsT num) :
  priv_rings self = Some rngs ->
  3 <= length (Colormaps.cm_start (cmap self)) ->
  3 <= length (Colormaps.cm_end (cmap self)) ->
  rngs <> [] ->
  forall pairs,
    exists calls,
      plot_rings self b pairs = (calls, None) /\
      Forall2 (ring_drawn b) (map snd pairs) calls.
Proof.
  intros Er Ls Le Hne.
  assert (Hlen : (0 < INR (length rngs) / 2)%R).
  { apply Rdiv_lt_0_compat; [| lra]. apply lt_0_INR.
    destruct rngs; [congruence | simpl; lia]. }
  induction pairs as [| [i ring] pairs (calls & E & F)].
  - exists []. split; [reflexivity | constructor].
  - simpl plot_rings. unfold rings. rewrite Er. cbn [rbind].
    destruct (call_in_range (cmap self) (INR i) 0 (INR (length rngs) / 2) 1
                Ls Le ltac:(lra) ltac:(lra))
      as (r & g & bl & Ec & Hr & Hg & Hb).
    rewrite Ec, E.
    exists (PlotRing ring (paint b [r; g; bl]) :: calls).
    split; [reflexivity |]. simpl map. constructor; [| exact F].
    exists r, g, bl. auto.
Qed.

(** what [plot] does once it has an engine and the computed data *)
Lemma plot_run (self : WalkingSystem num) (importable : backend -> bool)
      (engine : String.string) (limit_arg : option Z)
      (limit : Z) (b : backend) (rngs : ringsT num) (crvs : curvesT num) :
  check_limit self limit_arg = Ok limit ->
  select_backend (lower engine) = Some b -> importable b = true ->
  priv_rings self = Some rngs -> priv_curves self = Some crvs ->
  3 <= length (Colormaps.cm_start (cmap self)) ->
  3 <= length (Colormaps.cm_end (cmap self)) ->
  exists calls,
    plot self importable engine limit_arg
    = (calls ++ map (fun curve => PlotCurve (slice_to limit curve)) crvs,
       Finished) /\
    Forall2 (ring_drawn b) (slice_to limit rngs) calls.
Proof.
  intros El Eb Ei Er Ec Ls Le.
  unfold plot. rewrite El, Eb, Ei. cbn [negb].
  unfold rings at 1, curves. rewrite Er, Ec.
  destruct rngs as [| ring0 rngs].
  - rewrite slice_to_nil. exists []. split; [reflexivity | constructor].
  - destruct (plot_rings_run self b (ring0 :: rngs) Er Ls Le
                ltac:(discriminate)
                (enumerate (slice_to limit (ring0 :: rngs))))
      as (calls & E & F).
    rewrite E. exists calls. split; [reflexivity |].
    rewrite map_snd_enumerate in F. exact F.
Qed.

(** X23. [plot] refuses, with a ValueError and before anything is drawn:
    an iteration limit above [self.iterations], whatever the engine;
    then an engine that is neither visvis nor pyplot once put in lower
    case; then, with an engine that can be imported, a system whose rings
    have not been computed. *)
Theorem plot_refusals (self : WalkingSystem num)
        (importable : backend -> bool) (engine : String.string)
        (limit_arg : option Z) :
  (forall it, limit_arg = Some it -> (iterations self < it)%Z ->
     plot self importable engine limit_arg = ([], Raised ValueError)) /\
  (forall limit, check_limit self limit_arg = Ok limit ->
     select_backend (lower engine) = None ->
     plot self importable engine limit_arg = ([], Raised ValueError)) /\
  (forall limit b, check_limit self limit_arg = Ok limit ->
     select_backend (lower engine) = Some b -> importable b = true ->
     priv_rings self = None ->
     plot self importable engine limit_arg = ([], Raised ValueError)).
Proof.
  repeat split.
  - intros it -> Hit. unfold plot, check_limit.
    destruct (Z.gtb_spec it (iterations self)) as [_ | Hle]; [reflexivity | lia].
  - intros limit El Eb. unfold plot. rewrite El, Eb. reflexivity.
  - intros limit b El Eb Ei Er. unfold plot. rewrite El, Eb, Ei. cbn [negb].
    unfold rings. rewrite Er. reflexivity.
Qed.

Lemma Forall_slice_to {A} (P : A -> Prop) (k : Z) (xs : list A) :
  Forall P xs -> Forall P (slice_to k xs).
Proof.
  intro F. unfold slice_to.
  destruct (0 <=? k)%Z.
  - rewrite <- (firstn_skipn (Z.to_nat k) xs) in F.
    apply Forall_app in F. apply F.
  - rewrite <- (firstn_skipn (length xs - Z.to_nat (- k)) xs) in F.
    apply Forall_app in F. apply F.
Qed.

Lemma rings_drawn_axes (b : backend) (rngs : list (list (list num))) :
  forall calls,
    Forall2 (ring_drawn b) rngs calls ->
    Forall (fun ring => length ring = 3) rngs ->
    Forall (fun c => length (axes_of c) = 3) calls.
Proof.
  induction rngs as [| ring rngs IH]; intros calls F2 F3;
    inversion F2 as [| ? c ? calls' Hd F2' ]; subst; constructor.
  - destruct Hd as (r & g & bl & -> & _). simpl.
    inversion F3; assumption.
  - apply IH; [exact F2' | inversion F3; assumption].
Qed.

(** X24. With an engine that can be imported, a limit of 3 or more that
    passes, colors of three channels, and rings and curves of three axes
    each, as [compute_3d_vectrices] makes them, [plot] hands the engine
    three coordinate lists at every call and goes to its end, with no
    ZeroDivisionError from the color map: it draws the rings up to the
    limit, each as it is and in a color whose components, computed in
    exact arithmetic, lie between 0 and 1, and then every curve. *)
Theorem plot_draws_rings_then_curves (self : WalkingSystem num)
        (importable : backend -> bool) (engine : String.string)
        (limit_arg : option Z) (limit : Z) (b : backend)
        (rngs : ringsT num) (crvs : curvesT num) :
  check_limit self limit_arg = Ok limit -> (3 <= limit)%Z ->
  select_backend (lower engine) = Some b -> importable b = true ->
  priv_rings self = Some rngs -> priv_curves self = Some crvs ->
  3 <= length (Colormaps.cm_start (cmap self)) ->
  3 <= length (Colormaps.cm_end (cmap self)) ->
  Forall (fun ring => length ring = 3) rngs ->
  Forall (fun curve => length curve = 3) crvs ->
  exists ring_calls,
    plot self importable engine limit_arg
    = (ring_calls ++ map PlotCurve crvs, Finished) /\
    Forall2 (ring_drawn b) (slice_to limit rngs) ring_calls /\
    Forall (fun c => length (axes_of c) = 3)
           (ring_calls ++ map PlotCurve crvs).
Proof.
  intros El H3 Eb Ei Er Ec Ls Le Fr Fc.
  destruct (plot_run self importable engine limit_arg limit b rngs crvs
              El Eb Ei Er Ec Ls Le) as (calls & E & F).
  exists calls. split; [| split].
  - rewrite E. f_equal. f_equal. apply map_ext_in. intros curve Hc.
    rewrite Forall_forall in Fc.
    rewrite slice_to_all; [reflexivity |]. rewrite (Fc curve Hc). lia.
  - exact F.
  - apply Forall_app. split.
    + apply (rings_drawn_axes b (slice_to limit rngs) calls F).
      apply Forall_slice_to. exact Fr.
    + apply Forall_map. exact Fc.
Qed.

(** X25. The iteration limit of [plot] shortens the list of rings and
    not the curves: [curve[:iterations]] cuts the list of the three axes
    of a curve, so that with a limit of 3 or more every curve is drawn
    whole, whatever the number of iterations computed. *)
Theorem plot_limit_spares_curves (self : WalkingSystem num)
        (importable : backend -> bool) (engine : String.string)
        (limit_arg : option Z) (limit : Z) (b : backend)
        (rngs : ringsT num) (crvs : curvesT num) :
  check_limit self limit_arg = Ok limit ->
  select_backend (lower engine) = Some b -> importable b = true ->
  priv_rings self = Some rngs -> priv_curves self = Some crvs ->
  3 <= length (Colormaps.cm_start (cmap self)) ->
  3 <= length (Colormaps.cm_end (cmap self)) ->
  Forall (fun curve => length curve = 3) crvs ->
  (3 <= limit)%Z ->
  exists ring_calls,
    plot self importable engine limit_arg
    = (ring_calls ++ map PlotCurve crvs, Finished) /\
    length ring_calls = Nat.min (Z.to_nat limit) (length rngs).
Proof.
  intros El Eb Ei Er Ec Ls Le F3 H3.
  destruct (plot_run self importable engine limit_arg limit b rngs crvs
              El Eb Ei Er Ec Ls Le) as (calls & E & F).
  exists calls. split.
  - rewrite E. f_equal. f_equal. apply map_ext_in. intros curve Hc.
    rewrite Forall_forall in F3.
    rewrite slice_to_all; [reflexivity |]. rewrite (F3 curve Hc). lia.
  - rewrite <- (Forall2_length F). apply slice_to_length. lia.
Qed.

Lemma lower_char_twice c : lower_char (lower_char c) = lower_char c.
Proof. destruct c as [[] [] [] [] [] [] [] []]; reflexivity. Qed.

Lemma lower_twice s : lower (lower s) = lower s.
Proof.
  induction s as [| c s IH]; simpl; [reflexivity |].
  rewrite lower_char_twice, IH. reflexivity.
Qed.

(** X26. The name of the engine is read without regard to case: [plot]
    does the same with a name and with that name in lower case. *)
Theorem plot_engine_any_case (self : WalkingSystem num)
        (importable : backend -> bool) (engine : String.string)
        (limit_arg : option Z) :
  plot self importable (lower engine) limit_arg
  = plot self importable engine limit_arg.
Proof. unfold plot. rewrite lower_twice. reflexivity. Qed.

End PlotFacts.

(** ** The further theorems at work *)

Section MoreInstances.

Import Samples MoreSamples.

Lemma clamp_bounds_sample :
  nltb FloatSamples.hundred PrimFloat.zero = false /\
  nltb (Utils.clamp PrimFloat.nan PrimFloat.zero FloatSamples.hundred)
       PrimFloat.zero = false /\
  nltb FloatSamples.hundred
       (Utils.clamp PrimFloat.nan PrimFloat.zero FloatSamples.hundred)
  = false /\
  Utils.clamp (Utils.clamp PrimFloat.nan PrimFloat.zero FloatSamples.hundred)
              PrimFloat.zero FloatSamples.hundred
  = Utils.clamp PrimFloat.nan PrimFloat.zero FloatSamples.hundred.
Proof.
  assert (Hb : nltb FloatSamples.hundred PrimFloat.zero = false)
    by reflexivity.
  split; [exact Hb | apply clamp_bounds; exact Hb].
Defined.

Lemma lin_interp_round_trip_sample :
  (0%R <> 10%R /\ 0%R <> 100%R) /\
  exists y,
    Utils.lin_interp 5%R 0%R 10%R 0%R 100%R = Ok y /\
    Utils.lin_interp y 0%R 100%R 0%R 10%R = Ok 5%R.
Proof.
  assert (H1 : 0%R <> 10%R) by lra. assert (H2 : 0%R <> 100%R) by lra.
  split; [split; assumption | apply lin_interp_round_trip; assumption].
Defined.

Lemma lin_interp_endpoints_monotone_sample :
  ((0 < 10)%R /\ (0 < 100)%R) /\
  Utils.lin_interp 0%R 0%R 10%R 0%R 100%R = Ok 0%R /\
  Utils.lin_interp 10%R 0%R 10%R 0%R 100%R = Ok 100%R /\
  forall x x' y y',
    (x < x')%R ->
    Utils.lin_interp x 0%R 10%R 0%R 100%R = Ok y ->
    Utils.lin_interp x' 0%R 10%R 0%R 100%R = Ok y' ->
    (y < y')%R.
Proof.
  assert (H1 : (0 < 10)%R) by lra. assert (H2 : (0 < 100)%R) by lra.
  split; [split; assumption |].
  apply lin_interp_endpoints_monotone; assumption.
Defined.

Lemma log_interp_endpoints_sample :
  0%R <> 500%R /\
  Interp.log_interp 0 0 500 0 10 = Ok 0%R /\
  Interp.log_interp 500 0 500 0 10 = Ok 10%R.
Proof.
  assert (H1 : 0%R <> 500%R) by lra.
  split; [exact H1 | apply log_interp_endpoints; exact H1].
Defined.

Lemma log_interp_domain_error_sample :
  (0%R <> 500%R /\ ((-500 - 0) / (500 - 0) <= -1)%R) /\
  Interp.log_interp (-500) 0 500 0 10 = Raise ValueError.
Proof.
  assert (H1 : 0%R <> 500%R) by lra.
  assert (H2 : ((-500 - 0) / (500 - 0) <= -1)%R) by lra.
  split; [split; assumption | apply log_interp_domain_error; assumption].
Defined.

Lemma pow_interp_endpoints_sample :
  ((forall p, (0 < p)%R -> Interp.real_pow 0 p = Ok 0%R) /\
   (forall p, Interp.real_pow 1 p = Ok 1%R) /\
   0%R <> 500%R /\ (0 < 1 / 2)%R) /\
  Interp.pow_interp Interp.real_pow 0 (1 / 2) 0 500 0 10 = Ok 0%R /\
  Interp.pow_interp Interp.real_pow 500 (1 / 2) 0 500 0 10 = Ok 10%R.
Proof.
  assert (H1 : 0%R <> 500%R) by lra. assert (H2 : (0 < 1 / 2)%R) by lra.
  split.
  - split; [exact real_pow_zero |]. split; [exact real_pow_one |].
    split; assumption.
  - apply pow_interp_endpoints;
      [exact real_pow_zero | exact real_pow_one | exact H1 | exact H2].
Defined.

Lemma approxIndex_none_iff_sample :
  Search.approxIndex [1; 5; 9]%Z 20%Z 2%Z = Ok None /\
  forall x, In x [1; 5; 9]%Z -> Search.within 20%Z 2%Z x = false.
Proof.
  split; [reflexivity |].
  apply (proj1 (approxIndex_none_iff [1; 5; 9]%Z 20%Z 2%Z)). reflexivity.
Defined.

Lemma approxIndex_last_match_sample :
  Search.approxIndex [1; 5; 9; 5; 1]%Z 5%Z 1%Z = Ok (Some 3) /\
  (exists x, nth_error [1; 5; 9; 5; 1]%Z 3 = Some x /\
             Search.within 5%Z 1%Z x = true) /\
  (forall j y, 3 < j -> nth_error [1; 5; 9; 5; 1]%Z j = Some y ->
               Search.within 5%Z 1%Z y = false).
Proof.
  split; [reflexivity |].
  apply (proj1 (approxIndex_last_match [1; 5; 9; 5; 1]%Z 5%Z 1%Z 3)).
  reflexivity.
Defined.

Lemma approxIndex_no_threshold_sample :
  (0 <= 0)%Z /\ Search.approxIndex [5; 5; 5]%Z 5%Z 0%Z = Ok None.
Proof.
  assert (H0 : (0 <= 0)%Z) by lia.
  split; [exact H0 |].
  apply (proj1 approxIndex_no_threshold). exact H0.
Defined.

Lemma colormap_in_range_sample :
  (Colormaps.valid_color (Colormaps.cm_start Colormaps.black) = true /\
   Colormaps.valid_color (Colormaps.cm_end Colormaps.black) = true /\
   nltb PrimFloat.one (of_int 0) = false /\
   Colormaps.call Colormaps.black Binary64.huge
                  (PrimFloat.opp Binary64.huge) PrimFloat.one PrimFloat.one
   = Ok [PrimFloat.nan; PrimFloat.nan; PrimFloat.nan]) /\
  length [PrimFloat.nan; PrimFloat.nan; PrimFloat.nan] = 3 /\
  Forall (fun c => nltb c (of_int 0) = false /\ nltb PrimFloat.one c = false)
         [PrimFloat.nan; PrimFloat.nan; PrimFloat.nan].
Proof.
  assert (Hm : nltb PrimFloat.one (of_int 0) = false)
    by (vm_compute; reflexivity).
  assert (Ec : Colormaps.call Colormaps.black Binary64.huge
                 (PrimFloat.opp Binary64.huge) PrimFloat.one PrimFloat.one
               = Ok [PrimFloat.nan; PrimFloat.nan; PrimFloat.nan])
    by (vm_compute; reflexivity).
  split; [split; [reflexivity | split; [reflexivity | split; assumption]] |].
  apply (colormap_in_range Colormaps.black Binary64.huge
           (PrimFloat.opp Binary64.huge) PrimFloat.one PrimFloat.one
           [PrimFloat.nan; PrimFloat.nan; PrimFloat.nan]
           eq_refl eq_refl Hm Ec).
Defined.

Lemma colormap_errors_sample :
  (1 <= length (Colormaps.cm_start Colormaps.cyan_to_red) /\
   1 <= length (Colormaps.cm_end Colormaps.cyan_to_red)) /\
  Colormaps.call Colormaps.cyan_to_red 0%R 2%R 2%R 255%R
  = Raise ZeroDivisionError.
Proof.
  assert (L1 : 1 <= length (Colormaps.cm_start Colormaps.cyan_to_red)) by (simpl; lia).
  assert (L2 : 1 <= length (Colormaps.cm_end Colormaps.cyan_to_red)) by (simpl; lia).
  split; [split; assumption |].
  apply (proj1 (colormap_errors Colormaps.cyan_to_red 0%R 2%R 2%R 255%R)
           eq_refl L1 L2).
Defined.

Lemma distance_from_symmetric_sample :
  (nth_error halfway_heap 0 = Some (Walker_init [0; 0; 0]%R) /\
   nth_error halfway_heap 1 = Some (Walker_init [10; 0; 0]%R) /\
   length [0; 0; 0]%R = length [10; 0; 0]%R) /\
  exists d,
    distance_from 0 1 halfway_heap = (Ok d, halfway_heap) /\
    distance_from 1 0 halfway_heap = (Ok d, halfway_heap) /\
    (0 <= d)%R.
Proof.
  split; [repeat split |].
  apply (distance_from_symmetric 0 1 halfway_heap
           (Walker_init [0; 0; 0]%R) (Walker_init [10; 0; 0]%R)
           eq_refl eq_refl eq_refl).
Defined.

Lemma distance_from_zero_iff_sample :
  (nth_error halfway_heap 0 = Some (Walker_init [0; 0; 0]%R) /\
   nth_error halfway_heap 1 = Some (Walker_init [10; 0; 0]%R) /\
   length [0; 0; 0]%R = length [10; 0; 0]%R) /\
  (distance_from 0 1 halfway_heap = (Ok 0%R, halfway_heap) <->
   [0; 0; 0]%R = [10; 0; 0]%R).
Proof.
  split; [repeat split |].
  apply (distance_from_zero_iff 0 1 halfway_heap
           (Walker_init [0; 0; 0]%R) (Walker_init [10; 0; 0]%R)
           eq_refl eq_refl eq_refl).
Defined.

Lemma distance_from_index_error_sample :
  (nth_error FloatSamples.wide_heap 0
   = Some (Walker_init [PrimFloat.zero; PrimFloat.zero; PrimFloat.zero]) /\
   nth_error FloatSamples.wide_heap 1
   = Some (Walker_init [Binary64.wide; PrimFloat.zero]) /\
   length [Binary64.wide; PrimFloat.zero]
   < length [PrimFloat.zero; PrimFloat.zero; PrimFloat.zero]) /\
  (exists e,
      distance_from 0 1 FloatSamples.wide_heap
      = (Raise e, FloatSamples.wide_heap)) /\
  (Forall (fun pq => exists v, nsquare (nsub (snd pq) (fst pq)) = Ok v)
          (combine [PrimFloat.zero; PrimFloat.zero; PrimFloat.zero]
                   [Binary64.wide; PrimFloat.zero]) ->
   distance_from 0 1 FloatSamples.wide_heap
   = (Raise IndexError, FloatSamples.wide_heap)).
Proof.
  assert (L : length [Binary64.wide; PrimFloat.zero]
              < length [PrimFloat.zero; PrimFloat.zero; PrimFloat.zero])
    by (simpl; lia).
  split; [repeat split; exact L |].
  apply (proj1 (distance_from_index_error 0 1 FloatSamples.wide_heap
                  (Walker_init [PrimFloat.zero; PrimFloat.zero;
                                PrimFloat.zero])
                  (Walker_init [Binary64.wide; PrimFloat.zero])
                  eq_refl eq_refl)).
  exact L.
Defined.

Lemma walker_without_relations_stays_sample :
  (forall entry, In entry (walkers chased) -> fst entry = 2 ->
                 snd entry = []) /\
  (forall n, nth_error (snd (next_states n chased triangle_heap)) 2
             = nth_error triangle_heap 2) /\
  nth_error (snd (compute_3d_vectrices chased triangle_heap)) 2
  = nth_error triangle_heap 2.
Proof.
  assert (Hw : forall entry, In entry (walkers chased) -> fst entry = 2 ->
                             snd entry = []).
  { intros entry He E. simpl in He.
    destruct He as [<- | [<- | [<- | []]]];
      [discriminate E | discriminate E | reflexivity]. }
  split; [exact Hw |].
  apply walker_without_relations_stays. exact Hw.
Defined.

Lemma next_state_partial_write_sample :
  (walkers lopsided = [(0, [(1, 1%Z)])] /\ 0 <> 1 /\
   nth_error lopsided_heap 0 = Some (Walker_init [1; 2; 3]%Z) /\
   nth_error lopsided_heap 1 = Some (Walker_init [5; 7]%Z) /\
   length [5; 7]%Z < length [1; 2; 3]%Z) /\
  next_state lopsided lopsided_heap
  = (Raise IndexError,
     [{| start_position := [1; 2; 3]%Z; position := [5; 7; 3]%Z |};
      Walker_init [5; 7]%Z]).
Proof.
  assert (Hne : 0 <> 1) by discriminate.
  assert (L : length [5; 7]%Z < length [1; 2; 3]%Z) by (simpl; lia).
  split; [repeat split; assumption |].
  rewrite (next_state_partial_write lopsided lopsided_heap 0 1 1%Z [] []
             (Walker_init [1; 2; 3]%Z) (Walker_init [5; 7]%Z)
             eq_refl Hne eq_refl eq_refl L).
  reflexivity.
Defined.

Lemma single_attractor_closed_form_sample :
  (walkers follower = [(0, [(1, half)])] /\
   length [0; 0; 0]%R = length [10; 0; 0]%R) /\
  next_states 3 follower halfway_heap
  = (Ok tt,
     [with_position (Walker_init [0; 0; 0]%R)
        (approach ((1 - half) ^ 3) [0; 0; 0]%R [10; 0; 0]%R);
      Walker_init [10; 0; 0]%R]) /\
  (half = 1%R -> 1 <= 3 ->
   next_states 3 follower halfway_heap
   = (Ok tt,
      [with_position (Walker_init [0; 0; 0]%R) [10; 0; 0]%R;
       Walker_init [10; 0; 0]%R])).
Proof.
  split; [split; reflexivity |].
  apply (single_attractor_closed_form follower half
           (Walker_init [0; 0; 0]%R) (Walker_init [10; 0; 0]%R) 3
           eq_refl eq_refl).
Defined.

Lemma listed_states_are_aliases_sample :
  well_formed triangle triangle_heap = true /\
  let n := Z.to_nat (iterations triangle) in
  let h_n := snd (next_states n triangle triangle_heap) in
  list_states triangle triangle_heap
  = (Ok (repeat (map fst (walkers triangle)) n), h_n) /\
  forall st, In st (repeat (map fst (walkers triangle)) n) ->
    snapshot st h_n = (Ok (positions triangle h_n), h_n).
Proof.
  split; [reflexivity |].
  apply listed_states_are_aliases. reflexivity.
Defined.

Lemma second_run_continues_sample :
  well_formed triangle triangle_heap = true /\
  let n := Z.to_nat (iterations triangle) in
  exists snaps1 snaps2,
    collect_states triangle triangle_heap
    = (Ok snaps1, snd (next_states n triangle triangle_heap)) /\
    collect_states triangle (snd (next_states n triangle triangle_heap))
    = (Ok snaps2, snd (next_states (n + n) triangle triangle_heap)) /\
    length snaps2 = n /\
    forall k, k < n ->
      nth_error snaps2 k
      = Some (positions triangle
                (snd (next_states (n + k) triangle triangle_heap))).
Proof.
  split; [reflexivity |].
  apply second_run_continues. reflexivity.
Defined.

Lemma rings_hold_the_positions_sample :
  (walkers triangle <> [] /\
   well_formed triangle triangle_heap = true /\
   three_dimensional triangle triangle_heap = true) /\
  exists self' crvs,
    compute_3d_vectrices triangle triangle_heap
    = (Ok (self',
           (crvs,
            map ring_of
                (trajectory triangle triangle_heap
                            (Z.to_nat (iterations triangle))))),
       snd (next_states (Z.to_nat (iterations triangle)) triangle
                        triangle_heap)).
Proof.
  split; [split; [discriminate | split; reflexivity] |].
  apply rings_hold_the_positions; [discriminate | reflexivity | reflexivity].
Defined.

Lemma curves_hold_the_histories_sample :
  (walkers triangle <> [] /\
   well_formed triangle triangle_heap = true /\
   three_dimensional triangle triangle_heap = true) /\
  let n := Z.to_nat (iterations triangle) in
  (exists self' rngs,
      compute_3d_vectrices triangle triangle_heap
      = (Ok (self',
             (curves_of (length (walkers triangle))
                        (trajectory triangle triangle_heap n), rngs)),
         snd (next_states n triangle triangle_heap))) /\
  forall i j, i < length (walkers triangle) -> j < 3 ->
    length (history i j (trajectory triangle triangle_heap n)) = n.
Proof.
  split; [split; [discriminate | split; reflexivity] |].
  apply curves_hold_the_histories; [discriminate | reflexivity | reflexivity].
Defined.

Lemma plot_refusals_sample :
  (iterations computed < 3)%Z /\
  Plot.plot computed everything_importable EngineNames.pyplot (Some 3%Z)
  = ([], Plot.Raised ValueError).
Proof.
  assert (Hit : (iterations computed < 3)%Z) by (simpl; lia).
  split; [exact Hit |].
  apply (proj1 (plot_refusals computed everything_importable EngineNames.pyplot
                  (Some 3%Z)) 3%Z eq_refl Hit).
Defined.

Lemma plot_draws_rings_then_curves_sample :
  (Plot.check_limit computed_five (Some 3%Z) = Ok 3%Z /\
   (3 <= 3)%Z /\
   Plot.select_backend (Plot.lower EngineNames.mixed_case) = Some Plot.Pyplot /\
   everything_importable Plot.Pyplot = true /\
   priv_rings computed_five = Some computed_rings /\
   priv_curves computed_five = Some computed_curves /\
   3 <= length (Colormaps.cm_start (cmap computed_five)) /\
   3 <= length (Colormaps.cm_end (cmap computed_five)) /\
   Forall (fun ring => length ring = 3) computed_rings /\
   Forall (fun curve => length curve = 3) computed_curves) /\
  exists ring_calls,
    Plot.plot computed_five everything_importable EngineNames.mixed_case
              (Some 3%Z)
    = (ring_calls ++ map Plot.PlotCurve computed_curves, Plot.Finished) /\
    Forall2 (Plot.ring_drawn Plot.Pyplot) (Plot.slice_to 3 computed_rings)
            ring_calls /\
    Forall (fun c => length (Plot.axes_of c) = 3)
           (ring_calls ++ map Plot.PlotCurve computed_curves).
Proof.
  assert (L1 : 3 <= length (Colormaps.cm_start (cmap computed_five)))
    by (simpl; lia).
  assert (L2 : 3 <= length (Colormaps.cm_end (cmap computed_five)))
    by (simpl; lia).
  assert (Fr : Forall (fun ring : list (list Z) => length ring = 3)
                      computed_rings)
    by (repeat constructor).
  assert (Fc : Forall (fun curve : list (list Z) => length curve = 3)
                      computed_curves)
    by (repeat constructor).
  assert (H3 : (3 <= 3)%Z) by lia.
  split; [repeat split; assumption |].
  apply (plot_draws_rings_then_curves computed_five everything_importable
           EngineNames.mixed_case (Some 3%Z) 3%Z Plot.Pyplot computed_rings
           computed_curves eq_refl H3 eq_refl eq_refl eq_refl eq_refl
           L1 L2 Fr Fc).
Defined.

Lemma plot_limit_spares_curves_sample :
  (Plot.check_limit computed_five (Some 3%Z) = Ok 3%Z /\
   Plot.select_backend (Plot.lower EngineNames.visvis) = Some Plot.Visvis /\
   everything_importable Plot.Visvis = true /\
   priv_rings computed_five = Some computed_rings /\
   priv_curves computed_five = Some computed_curves /\
   3 <= length (Colormaps.cm_start (cmap computed_five)) /\
   3 <= length (Colormaps.cm_end (cmap computed_five)) /\
   Forall (fun curve => length curve = 3) computed_curves /\
   (3 <= 3)%Z) /\
  exists ring_calls,
    Plot.plot computed_five everything_importable EngineNames.visvis
              (Some 3%Z)
    = (ring_calls ++ map Plot.PlotCurve computed_curves, Plot.Finished) /\
    length ring_calls = Nat.min (Z.to_nat 3) (length computed_rings).
Proof.
  assert (L1 : 3 <= length (Colormaps.cm_start (cmap computed_five)))
    by (simpl; lia).
  assert (L2 : 3 <= length (Colormaps.cm_end (cmap computed_five)))
    by (simpl; lia).
  assert (F3 : Forall (fun curve : list (list Z) => length curve = 3)
                      computed_curves)
    by (repeat constructor).
  assert (H3 : (3 <= 3)%Z) by lia.
  split; [repeat split; assumption |].
  apply (plot_limit_spares_curves computed_five everything_importable
           EngineNames.visvis (Some 3%Z) 3%Z Plot.Visvis computed_rings
           computed_curves eq_refl eq_refl eq_refl eq_refl eq_refl
           L1 L2 F3 H3).
Defined.

Lemma lin_interp_start_on_floats_sample :
  (Binary64.finite FloatSamples.nine_tenths = true /\
   Binary64.finite (PrimFloat.sub FloatSamples.full FloatSamples.hundred)
   = true /\
   PrimFloat.eqb (PrimFloat.sub Binary64.large FloatSamples.nine_tenths)
                 PrimFloat.zero = false /\
   PrimFloat.is_nan (PrimFloat.sub Binary64.large FloatSamples.nine_tenths)
   = false /\
   Binary64.negative_zero FloatSamples.hundred = false) /\
  Utils.lin_interp FloatSamples.nine_tenths FloatSamples.nine_tenths
                   Binary64.large FloatSamples.hundred FloatSamples.full
  = Ok FloatSamples.hundred.
Proof.
  split; [repeat split |].
  apply (proj1 (lin_interp_start_on_floats
                  PrimFloat.zero FloatSamples.nine_tenths Binary64.large
                  FloatSamples.hundred FloatSamples.full));
    reflexivity.
Defined.

Lemma colormap_start_on_floats_sample :
  (Colormaps.valid_color (Colormaps.cm_start FloatSamples.gray) = true /\
   Colormaps.valid_color (Colormaps.cm_end FloatSamples.gray) = true /\
   Binary64.finite PrimFloat.zero = true /\
   PrimFloat.eqb (PrimFloat.sub Binary64.large PrimFloat.zero)
                 PrimFloat.zero = false /\
   PrimFloat.is_nan (PrimFloat.sub Binary64.large PrimFloat.zero) = false) /\
  Colormaps.call FloatSamples.gray PrimFloat.zero PrimFloat.zero
                 Binary64.large (of_int 255)
  = Ok (map of_int (Colormaps.cm_start FloatSamples.gray)).
Proof.
  split; [repeat split |].
  apply (colormap_start_on_floats FloatSamples.gray PrimFloat.zero
           Binary64.large); reflexivity.
Defined.

End MoreInstances.
